(** * MyPromise: a shallow embedding of the promise library and its properties

    The JavaScript class [MyPromise] keeps four private fields per instance
    ([#state], [#value], [#thenCbs], [#catchCbs]) and runs every callback
    synchronously on the caller's stack.  The embedding below keeps the
    instances in a store indexed by allocation order, represents every
    closure the class creates by a constructor of [Fn] that records the
    variables the closure captures, and gives each method as a function on
    the store.  Calls between methods are re-entrant without a structural
    bound, so the interpreter [exec] takes a call-depth budget. *)

From stdpp Require Import base list sets strings.
From Stdlib Require Import ZArith Lia.

Set Warnings "-clear-no-such-hyp".

Open Scope string_scope.
Open Scope list_scope.

(** ** Values *)

Abbreviation loc := nat (only parsing).

(** Runtime values that flow through the library.  [VPromise p] is a
    reference to the instance stored at [p]; [VArray a] is a reference to
    the [results] array of the combinator call whose variables live at [a];
    the two status constructors are the object literals built by
    [allSettled]. *)
Inductive Value :=
| VUndefined
| VNull
| VNum (n : Z)
| VStr (s : string)
| VPromise (p : loc)
| VArray (a : loc)
| VStatusFulfilled (value : Value)
| VStatusRejected (reason : Value)
| VUncaughtPromiseError (message : Value)
| VReferenceError (name : string).

(** [value instanceof MyPromise] *)
Definition instanceof_MyPromise (v : Value) : bool :=
  match v with VPromise _ => true | _ => false end.

(** [new UncaughtPromiseError(value)]: the constructor stores its argument
    as the message. *)
Definition UncaughtPromiseError (value : Value) : Value :=
  VUncaughtPromiseError value.

(** How a call ends: by returning a value or by throwing one. *)
Inductive Completion :=
| Return (v : Value)
| Throw (e : Value).

(** ** States *)

Inductive STATES := FULFILLED | REJECTED | PENDING | SETTLED.

(** ** Closures *)

(** Every function value the library creates or receives.  The arguments
    of a constructor are the variables its closure captures; [n] and
    [outer] stand for the pair [resolve]/[reject] of the promise stored
    there (its [#onSuccess] and [#onFailed]).  [FUser id body] is a handler
    supplied by the caller: it returns or throws a value computed from its
    argument and does not touch the store; [id] names it in the record of
    invocations. *)
#[warnings="-register-all"] Inductive Fn :=
| FOnSuccess (this : loc)
| FOnFailed (this : loc)
| FThenCb (thenCb : option Fn) (n : loc)
| FCatchCb (catchCb : option Fn) (n : loc)
| FFinallyValue (cb : Fn)
| FFinallyError (cb : Fn)
| FAllThen (vars : loc) (index : nat) (promiseArray : list loc) (outer : loc)
| FAllCatch (outer : loc)
| FAllSettledThen (vars : loc) (index : nat) (promiseArray : list loc) (outer : loc)
| FAllSettledCatch (vars : loc) (index : nat) (promiseArray : list loc) (outer : loc)
| FAnyThen (outer : loc)
| FAnyCatch (vars : loc) (index : nat) (promiseArray : list loc) (outer : loc)
| FUser (id : nat) (body : Value -> Completion).

(** One statement of a caller-supplied resolver: a call of the first or of
    the second capability it was given. *)
Inductive Action :=
| ActResolve (v : Value)
| ActReject (e : Value).

(** The functions passed to [new MyPromise(...)]. *)
Inductive Resolver :=
| RThen (this : loc) (thenCb catchCb : option Fn)
| RResolve (value : Value)
| RReject (error : Value)
| RAll (promiseArray : list loc)
| RAllSettled (promiseArray : list loc)
| RRace (promiseArray : list loc)
| RAny (promiseArray : list loc)
| RUser (body : list Action) (fin : Completion).

(** ** The store *)

(** An instance of the class.  The two callback arrays are only ever
    changed by [push] and [pop], so they are kept as stacks: the head of
    the list is the last element of the array. *)
Record MyPromise := mkPromise {
  state : STATES;
  value : Value;
  thenCbs : list Fn;
  catchCbs : list Fn
}.

(** The local variables [results] and [resultCount] of one combinator
    call, shared by the callbacks it registers.  [None] is a hole of the
    array. *)
Record Vars := mkVars {
  results : list (option Value);
  resultCount : nat
}.

(** The store: the instances in allocation order, the variables of the
    combinator calls, and the record of the caller's handlers invoked so
    far, each with its argument. *)
Record Heap := mkHeap {
  promises : list MyPromise;
  frames : list Vars;
  trace : list (nat * Value)
}.

Definition empty_heap : Heap := mkHeap [] [] [].

Inductive Queue := QThen | QCatch.

Definition queue (q : Queue) (P : MyPromise) : list Fn :=
  match q with QThen => thenCbs P | QCatch => catchCbs P end.

Definition with_queue (q : Queue) (cbs : list Fn) (P : MyPromise) : MyPromise :=
  match q with
  | QThen => mkPromise (state P) (value P) cbs (catchCbs P)
  | QCatch => mkPromise (state P) (value P) (thenCbs P) cbs
  end.

Definition settled (s : STATES) (v : Value) (P : MyPromise) : MyPromise :=
  mkPromise s v (thenCbs P) (catchCbs P).

Definition set_promise (p : loc) (P : MyPromise) (h : Heap) : Heap :=
  mkHeap (<[p := P]> (promises h)) (frames h) (trace h).

Definition set_vars (a : loc) (V : Vars) (h : Heap) : Heap :=
  mkHeap (promises h) (<[a := V]> (frames h)) (trace h).

Definition fresh_promise : MyPromise := mkPromise PENDING VUndefined [] [].

Definition alloc_promise (h : Heap) : Heap :=
  mkHeap (promises h ++ [fresh_promise]) (frames h) (trace h).

Definition alloc_vars (h : Heap) : Heap :=
  mkHeap (promises h) (frames h ++ [mkVars [] 0]) (trace h).

Definition log (id : nat) (arg : Value) (h : Heap) : Heap :=
  mkHeap (promises h) (frames h) (trace h ++ [(id, arg)]).

(** [a[i] = v] on a JavaScript array: writing past the end extends the
    array and leaves holes. *)
Definition array_set (a : list (option Value)) (i : nat) (v : Value)
  : list (option Value) :=
  if decide (i < length a) then <[i := Some v]> a
  else a ++ replicate (i - length a) None ++ [Some v].

(** ** Computations *)

(** A call either runs out of budget or meets a dangling reference
    ([None]), or it ends with a store and a completion. *)
Definition M := Heap -> option (Heap * Completion).

Definition ret (v : Value) : M := fun h => Some (h, Return v).
Definition throw (e : Value) : M := fun h => Some (h, Throw e).

Definition bind (m : M) (k : Value -> M) : M := fun h =>
  match m h with
  | Some (h', Return v) => k v h'
  | Some (h', Throw e) => Some (h', Throw e)
  | None => None
  end.

Definition try_catch (m : M) (handler : Value -> M) : M := fun h =>
  match m h with
  | Some (h', Return v) => Some (h', Return v)
  | Some (h', Throw e) => handler e h'
  | None => None
  end.

Notation "'let*' x ':=' m 'in' k" := (bind m (fun x => k))
  (at level 10, x name, m at level 100, k at level 200).
Notation "m ';;' k" := (bind m (fun _ => k))
  (at level 100, k at level 200, right associativity).

Inductive Call :=
| CApply (f : Fn) (arg : Value)
| CRunCallbacks (this : loc) (q : Queue)
| CResolver (r : Resolver) (this : loc)
| CNew (r : Resolver).

(** [this.then(thenCb, catchCb)] *)
Definition then_ (this : loc) (thenCb catchCb : option Fn) : Call :=
  CNew (RThen this thenCb catchCb).

(** [this.catch(cb)] *)
Definition catch (this : loc) (cb : option Fn) : Call :=
  then_ this None cb.

(** [this.finally(cb)] *)
Definition finally (this : loc) (cb : Fn) : Call :=
  then_ this (Some (FFinallyValue cb)) (Some (FFinallyError cb)).

Definition resolve (v : Value) : Call := CNew (RResolve v).
Definition reject (e : Value) : Call := CNew (RReject e).
Definition all (promiseArray : list loc) : Call := CNew (RAll promiseArray).
Definition allSettled (promiseArray : list loc) : Call := CNew (RAllSettled promiseArray).
Definition race (promiseArray : list loc) : Call := CNew (RRace promiseArray).
Definition any (promiseArray : list loc) : Call := CNew (RAny promiseArray).

Section Methods.

(** The interpreter at the next smaller budget. *)
Variable rec : Call -> M.

Definition call (f : Fn) (arg : Value) : M := rec (CApply f arg).

(** [#onSuccess] *)
Definition onSuccess (this : loc) (v : Value) : M := fun h =>
  match promises h !! this with
  | None => None
  | Some P =>
    match state P with
    | PENDING =>
      match v with
      | VPromise q =>
          (rec (then_ q (Some (FOnSuccess this)) (Some (FOnFailed this)));;
           ret VUndefined) h
      | _ =>
          rec (CRunCallbacks this QThen)
              (set_promise this (settled FULFILLED v P) h)
      end
    | _ => Some (h, Return VUndefined)
    end
  end.

(** [#onFailed].  In the branch for a promise payload the body names
    [value], which is not in scope there. *)
Definition onFailed (this : loc) (error : Value) : M := fun h =>
  match promises h !! this with
  | None => None
  | Some P =>
    match state P with
    | PENDING =>
      match error with
      | VPromise _ => Some (h, Throw (VReferenceError "value"))
      | _ =>
          let h1 := set_promise this (settled REJECTED error P) h in
          match catchCbs P with
          | [] => Some (h1, Throw (UncaughtPromiseError (VStr "Unhandle catch")))
          | _ :: _ => rec (CRunCallbacks this QCatch) h1
          end
      end
    | _ => Some (h, Return VUndefined)
    end
  end.

(** [#runCallbacks(cbArray)] for [cbArray] one of the two arrays of
    [this]. *)
Definition runCallbacks (this : loc) (q : Queue) : M := fun h =>
  match promises h !! this with
  | None => None
  | Some P =>
    match queue q P with
    | [] => Some (h, Return VUndefined)
    | cb :: rest =>
        (call cb (value P);; rec (CRunCallbacks this q))
          (set_promise this (with_queue q rest P) h)
    end
  end.

(** The closure pushed on [#thenCbs] by [then]. *)
Definition thenCb_wrapper (thenCb : option Fn) (n : loc) (result : Value) : M :=
  match thenCb with
  | None => call (FOnSuccess n) result;; ret VUndefined
  | Some f =>
      try_catch
        (let* r := call f result in call (FOnSuccess n) r;; ret VUndefined)
        (fun e => call (FOnFailed n) e;; ret VUndefined)
  end.

(** The closure pushed on [#catchCbs] by [then]. *)
Definition catchCb_wrapper (catchCb : option Fn) (n : loc) (result : Value) : M :=
  match catchCb with
  | None => call (FOnFailed n) result;; ret VUndefined
  | Some f =>
      try_catch
        (let* r := call f result in call (FOnSuccess n) r;; ret VUndefined)
        (fun e => call (FOnFailed n) e;; ret VUndefined)
  end.

(** The fulfilment callback of [all]. *)
Definition all_then (vars : loc) (index : nat) (promiseArray : list loc)
    (outer : loc) (v : Value) : M := fun h =>
  match frames h !! vars with
  | None => None
  | Some V =>
    let V' := mkVars (array_set (results V) index v) (resultCount V + 1) in
    let h1 := set_vars vars V' h in
    if decide (resultCount V' = length promiseArray)
    then (call (FOnSuccess outer) (VArray vars);; ret VUndefined) h1
    else Some (h1, Return VUndefined)
  end.

(** The two callbacks of [allSettled]. *)
Definition allSettled_record (vars : loc) (index : nat)
    (promiseArray : list loc) (outer : loc) (entry : Value) : M := fun h =>
  match frames h !! vars with
  | None => None
  | Some V =>
    let h1 := set_vars vars (mkVars (array_set (results V) index entry) (resultCount V)) h in
    if decide (resultCount V = length promiseArray)
    then (call (FOnSuccess outer) (VArray vars);; ret VUndefined) h1
    else Some (h1, Return VUndefined)
  end.

(** The rejection callback of [any]: after the counter is incremented
    the body reads [value], which is not in scope there. *)
Definition any_catch (vars : loc) (index : nat) (promiseArray : list loc)
    (outer : loc) (e : Value) : M := fun h =>
  match frames h !! vars with
  | None => None
  | Some V =>
    Some (set_vars vars (mkVars (results V) (resultCount V + 1)) h,
          Throw (VReferenceError "value"))
  end.

Definition apply (f : Fn) (arg : Value) : M :=
  match f with
  | FOnSuccess this => onSuccess this arg
  | FOnFailed this => onFailed this arg
  | FThenCb thenCb n => thenCb_wrapper thenCb n arg
  | FCatchCb catchCb n => catchCb_wrapper catchCb n arg
  | FFinallyValue cb => call cb VUndefined;; ret arg
  | FFinallyError cb => call cb VUndefined;; throw arg
  | FAllThen vars index promiseArray outer =>
      all_then vars index promiseArray outer arg
  | FAllCatch outer => call (FOnFailed outer) arg;; ret VUndefined
  | FAllSettledThen vars index promiseArray outer =>
      allSettled_record vars index promiseArray outer (VStatusFulfilled arg)
  | FAllSettledCatch vars index promiseArray outer =>
      allSettled_record vars index promiseArray outer (VStatusRejected arg)
  | FAnyThen outer => call (FOnSuccess outer) arg;; ret VUndefined
  | FAnyCatch vars index promiseArray outer =>
      any_catch vars index promiseArray outer arg
  | FUser id body => fun h => Some (log id arg h, body arg)
  end.

(** [promise.then(onThen).catch(onCatch)], the shape of every
    combinator's loop body. *)
Definition then_catch (promise : loc) (onThen onCatch : Fn) : M :=
  let* t := rec (then_ promise (Some onThen) None) in
  match t with
  | VPromise n => rec (catch n (Some onCatch))
  | _ => fun _ => None
  end.

(** [promiseArray.forEach((promise, index) => body)] *)
Fixpoint forEach (body : loc -> nat -> M) (promiseArray : list loc)
    (index : nat) : M :=
  match promiseArray with
  | [] => ret VUndefined
  | promise :: rest => body promise index;; forEach body rest (S index)
  end.

(** The body of a caller-supplied resolver, given the two capabilities
    of [this]. *)
Fixpoint user_resolver (body : list Action) (fin : Completion) (this : loc) : M :=
  match body with
  | [] => fun h => Some (h, match fin with Return _ => Return VUndefined | Throw e => Throw e end)
  | ActResolve v :: rest => call (FOnSuccess this) v;; user_resolver rest fin this
  | ActReject e :: rest => call (FOnFailed this) e;; user_resolver rest fin this
  end.

(** The resolver of [then]. *)
Definition then_resolver (this : loc) (thenCb catchCb : option Fn) (n : loc) : M := fun h =>
  match promises h !! this with
  | None => None
  | Some P =>
    let P' := mkPromise (state P) (value P)
                (FThenCb thenCb n :: thenCbs P)
                (FCatchCb catchCb n :: catchCbs P) in
    let h1 := set_promise this P' h in
    match state P with
    | FULFILLED => rec (CRunCallbacks this QThen) h1
    | REJECTED => rec (CRunCallbacks this QCatch) h1
    | _ => Some (h1, Return VUndefined)
    end
  end.

Definition all_resolver (promiseArray : list loc) (outer : loc) : M := fun h =>
  let vars := length (frames h) in
  forEach (fun promise index =>
             then_catch promise
               (FAllThen vars index promiseArray outer) (FAllCatch outer))
          promiseArray 0 (alloc_vars h).

Definition allSettled_resolver (promiseArray : list loc) (outer : loc) : M := fun h =>
  let vars := length (frames h) in
  forEach (fun promise index h' =>
             match frames h' !! vars with
             | None => None
             | Some V =>
               then_catch promise
                 (FAllSettledThen vars index promiseArray outer)
                 (FAllSettledCatch vars index promiseArray outer)
                 (set_vars vars (mkVars (results V) (resultCount V + 1)) h')
             end)
          promiseArray 0 (alloc_vars h).

Definition race_resolver (promiseArray : list loc) (outer : loc) : M :=
  forEach (fun promise _ =>
             then_catch promise (FOnSuccess outer) (FOnFailed outer))
          promiseArray 0.

Definition any_resolver (promiseArray : list loc) (outer : loc) : M := fun h =>
  let vars := length (frames h) in
  forEach (fun promise index =>
             then_catch promise
               (FAnyThen outer) (FAnyCatch vars index promiseArray outer))
          promiseArray 0 (alloc_vars h).

(** [resolver(this.#onSuccess, this.#onFailed)] *)
Definition run_resolver (r : Resolver) (this : loc) : M :=
  match r with
  | RThen p thenCb catchCb => then_resolver p thenCb catchCb this
  | RResolve v => call (FOnSuccess this) v;; ret VUndefined
  | RReject e => call (FOnFailed this) e;; ret VUndefined
  | RAll promiseArray => all_resolver promiseArray this
  | RAllSettled promiseArray => allSettled_resolver promiseArray this
  | RRace promiseArray => race_resolver promiseArray this
  | RAny promiseArray => any_resolver promiseArray this
  | RUser body fin => user_resolver body fin this
  end.

(** [new MyPromise(resolver)] *)
Definition constructor (resolver : Resolver) : M := fun h =>
  let this := length (promises h) in
  (try_catch (rec (CResolver resolver this))
             (fun e => call (FOnFailed this) e);;
   ret (VPromise this)) (alloc_promise h).

Definition step (c : Call) : M :=
  match c with
  | CApply f arg => apply f arg
  | CRunCallbacks this q => runCallbacks this q
  | CResolver r this => run_resolver r this
  | CNew r => constructor r
  end.

End Methods.

(** The interpreter: [fuel] bounds the depth of nested calls. *)
Fixpoint exec (fuel : nat) (c : Call) : M :=
  match fuel with
  | 0 => fun _ => None
  | S n => step (exec n) c
  end.

(** A top-level caller that performs calls one after the other and goes
    on after a call that threw. *)
Fixpoint run (fuel : nat) (cs : list Call) (h : Heap) : option Heap :=
  match cs with
  | [] => Some h
  | c :: cs' =>
      match exec fuel c h with
      | Some (h', _) => run fuel cs' h'
      | None => None
      end
  end.

(** [evals c h h' r]: the call [c] started in [h] ends in [h'] with
    completion [r]. *)
Definition evals (c : Call) (h h' : Heap) (r : Completion) : Prop :=
  exists fuel, exec fuel c h = Some (h', r).

(** ** The first version of the class

    [MyPromise.js] is an earlier version of the class.  Its two entry
    points store any payload, a promise included, and the reject entry
    point runs the rejection callbacks without a check that there is one;
    [then], [catch], [finally], [#runCallbacks] and the constructor are
    those of the later version, and the six static methods have empty
    bodies. *)

Module Draft.

Section Methods.

Variable rec : Call -> M.

(** [#onSuccess] *)
Definition onSuccess (this : loc) (v : Value) : M := fun h =>
  match promises h !! this with
  | None => None
  | Some P =>
    match state P with
    | PENDING =>
        rec (CRunCallbacks this QThen)
            (set_promise this (settled FULFILLED v P) h)
    | _ => Some (h, Return VUndefined)
    end
  end.

(** [#onFailed] *)
Definition onFailed (this : loc) (error : Value) : M := fun h =>
  match promises h !! this with
  | None => None
  | Some P =>
    match state P with
    | PENDING =>
        rec (CRunCallbacks this QCatch)
            (set_promise this (settled REJECTED error P) h)
    | _ => Some (h, Return VUndefined)
    end
  end.

(** The closures this version creates; those of the combinators do not
    exist in it. *)
Definition apply (f : Fn) (arg : Value) : M :=
  match f with
  | FOnSuccess this => onSuccess this arg
  | FOnFailed this => onFailed this arg
  | FThenCb thenCb n => thenCb_wrapper rec thenCb n arg
  | FCatchCb catchCb n => catchCb_wrapper rec catchCb n arg
  | FFinallyValue cb => call rec cb VUndefined;; ret arg
  | FFinallyError cb => call rec cb VUndefined;; throw arg
  | FUser id body => fun h => Some (log id arg h, body arg)
  | _ => fun _ => None
  end.

(** The resolvers this version passes to its constructor: the one of
    [then] and those of the caller. *)
Definition run_resolver (r : Resolver) (this : loc) : M :=
  match r with
  | RThen p thenCb catchCb => then_resolver rec p thenCb catchCb this
  | RUser body fin => user_resolver rec body fin this
  | _ => fun _ => None
  end.

Definition step (c : Call) : M :=
  match c with
  | CApply f arg => apply f arg
  | CRunCallbacks this q => runCallbacks rec this q
  | CResolver r this => run_resolver r this
  | CNew r => constructor rec r
  end.

End Methods.

Fixpoint exec (fuel : nat) (c : Call) : M :=
  match fuel with
  | 0 => fun _ => None
  | S n => step (exec n) c
  end.

(** [static resolve() {}] and the five other static methods: the body is
    empty, the call returns [undefined]. *)
Definition static : M := ret VUndefined.

End Draft.

(** ** Vocabulary of the statements

    Readings of the store, the sequences of calls the statements are
    about, and the example stores they are applied to. *)

(** [this.#state === STATES.PENDING] *)
Definition pending (P : MyPromise) : bool :=
  match state P with PENDING => true | _ => false end.

(** Every promise settled in [h0] has the same state and value in [h]. *)
Definition same_settlement (h0 h : Heap) : Prop :=
  forall p P, promises h0 !! p = Some P -> pending P = false ->
    exists P', promises h !! p = Some P' /\
               state P' = state P /\ value P' = value P.

(** A store with one promise, fulfilled with 5. *)
Definition one_fulfilled : Heap :=
  mkHeap [mkPromise FULFILLED (VNum 5) [] []] [] [].

(** Stores with one, two and three pending promises, as made by
    [new MyPromise((resolve, reject) => { ... })] with a resolver that only
    keeps its two arguments for later. *)
Definition one_pending : Heap := alloc_promise empty_heap.

Definition two_pending : Heap := alloc_promise (alloc_promise empty_heap).

Definition three_pending : Heap :=
  alloc_promise (alloc_promise (alloc_promise empty_heap)).

(** The state and value of every promise, in allocation order. *)
Definition settlements (h : Heap) : list (STATES * Value) :=
  map (fun P => (state P, value P)) (promises h).

(** The completion of [f(x); return;] given the completion of [f(x)]. *)
Definition discard (r : Completion) : Completion :=
  match r with Return _ => Return VUndefined | Throw e => Throw e end.

(** The two closures [then] registers have the same body when a handler
    was given. *)
Definition wrapper (wrap : option Fn -> loc -> Fn) : Prop :=
  wrap = FThenCb \/ wrap = FCatchCb.

(** What [then] does to the promise it is called on. *)
Definition pushed (thenCb catchCb : option Fn) (n : loc) (P : MyPromise) : MyPromise :=
  mkPromise (state P) (value P)
    (FThenCb thenCb n :: thenCbs P) (FCatchCb catchCb n :: catchCbs P).

(** [start.then(a1, b1).then(a2, b2)...]: each link is called on the
    promise the previous one returned; a link that throws ends the
    expression. *)
Fixpoint chain (fuel : nat) (links : list (option Fn * option Fn)) (cur : Value) : M :=
  match links with
  | [] => ret cur
  | (thenCb, catchCb) :: rest =>
      match cur with
      | VPromise p =>
          let* t := exec fuel (then_ p thenCb catchCb) in chain fuel rest t
      | _ => fun _ => None
      end
  end.

(** [chains links cur h h' r]: the chain expression started in [h] ends in
    [h'] with completion [r]. *)
Definition chains (links : list (option Fn * option Fn)) (cur : Value)
    (h h' : Heap) (r : Completion) : Prop :=
  exists fuel, chain fuel links cur h = Some (h', r).

(** The state and value a promise takes when it is resolved or rejected
    with the completion of a handler. *)
Definition settlement_of (r : Completion) : STATES * Value :=
  match r with Return w => (FULFILLED, w) | Throw x => (REJECTED, x) end.

(** The value returned or thrown is not a promise. *)
Definition plain (r : Completion) : bool :=
  match r with Return w | Throw w => negb (instanceof_MyPromise w) end.

(** What the chain [F.then(f).then(g).catch(hd)] has done once [F] is
    fulfilled with [v]: [f] was invoked with [v] and then [hd] with [e],
    and nothing else was invoked; the promises made by the two [then]
    calls (allocated at [L] and [L+1]) are rejected with [e], and the one
    made by [catch] has the completion of [hd]. *)
Definition chain_outcome (h0 : Heap) (F : loc) (v e : Value) (idf idh : nat)
    (rh : Completion) (h' : Heap) : Prop :=
  let L := length (promises h0) in
  trace h' = trace h0 ++ [(idf, v); (idh, e)] /\
  settlements h' !! F = Some (FULFILLED, v) /\
  settlements h' !! L = Some (REJECTED, e) /\
  settlements h' !! S L = Some (REJECTED, e) /\
  settlements h' !! S (S L) = Some (settlement_of rh).

(** What [F.then(g)] has done once [F] is rejected with [e]: no handler
    was invoked and the new promise is rejected with [e]. *)
Definition forward_outcome (h0 : Heap) (F : loc) (e : Value) (h' : Heap) : Prop :=
  trace h' = trace h0 /\
  settlements h' !! F = Some (REJECTED, e) /\
  settlements h' !! length (promises h0) = Some (REJECTED, e).

(** The four runs the statement about [F.then(f).then(g).catch(hd)] covers:
    [F] fulfilled before the chain is built, [F] fulfilled after it, and
    for [F.then(g)] alone, [F] rejected before and after. *)
Definition throw_reaches_catch (h0 : Heap) (F : loc) (v e : Value)
    (idf idg idh : nat) (bf bg bh : Value -> Completion) : Prop :=
  let L := length (promises h0) in
  let links := [(Some (FUser idf bf), None);
                (Some (FUser idg bg), None);
                (None, Some (FUser idh bh))] in
  (exists hA h',
     evals (CApply (FOnSuccess F) v) h0 hA (Return VUndefined) /\
     chains links (VPromise F) hA h' (Return (VPromise (S (S L)))) /\
     chain_outcome h0 F v e idf idh (bh e) h') /\
  (exists hB h' r,
     chains links (VPromise F) h0 hB (Return (VPromise (S (S L)))) /\
     evals (CApply (FOnSuccess F) v) hB h' r /\
     chain_outcome h0 F v e idf idh (bh e) h') /\
  (exists hA rA h',
     evals (CApply (FOnFailed F) e) h0 hA rA /\
     evals (then_ F (Some (FUser idg bg)) None) hA h' (Return (VPromise L)) /\
     forward_outcome h0 F e h') /\
  (exists hB h' r,
     evals (then_ F (Some (FUser idg bg)) None) h0 hB (Return (VPromise L)) /\
     evals (CApply (FOnFailed F) e) hB h' r /\
     forward_outcome h0 F e h').

(** [p] is pending and has no callbacks. *)
Definition quiet (h : Heap) (p : loc) : Prop :=
  exists u, promises h !! p = Some (mkPromise PENDING u [] []).

(** [adopted h G links]: [G] is pending and its only callbacks are the pair
    registered when the first promise of [links] was fulfilled with [G];
    that promise in turn has as only callbacks those of the next one, and
    so on; the last one is quiet.  Each link [(N, F)] names the promise
    [N] that [then] returned and the adopting promise [F]. *)
Fixpoint adopted (h : Heap) (G : loc) (links : list (loc * loc)) : Prop :=
  match links with
  | [] => quiet h G
  | (N, F) :: rest =>
      (exists u, promises h !! G
         = Some (mkPromise PENDING u
                   [FThenCb (Some (FOnSuccess F)) N]
                   [FCatchCb (Some (FOnFailed F)) N])) /\
      quiet h N /\ adopted h F rest
  end.

(** All promises of a chain of adoptions. *)
Fixpoint locs (G : loc) (links : list (loc * loc)) : list loc :=
  match links with
  | [] => [G]
  | (N, F) :: rest => G :: N :: locs F rest
  end.

(** The promises of a chain that adopt: all but the link promises. *)
Fixpoint adopters (G : loc) (links : list (loc * loc)) : list loc :=
  match links with
  | [] => [G]
  | (_, F) :: rest => G :: adopters F rest
  end.

(** [new UncaughtPromiseError("Unhandle catch")] *)
Definition unhandled : Value := UncaughtPromiseError (VStr "Unhandle catch").

(** [runs cs h h']: the calls [cs] made one after the other from [h] end
    in [h']. *)
Definition runs (cs : list Call) (h h' : Heap) : Prop :=
  exists fuel, run fuel cs h = Some h'.

(** [outer] is fulfilled with the first promise of [inner], that one with
    the next, and so on. *)
Fixpoint adopt_calls (outer : loc) (inner : list loc) : list Call :=
  match inner with
  | [] => []
  | G :: rest => CApply (FOnSuccess outer) (VPromise G) :: adopt_calls G rest
  end.

(** The call that settles [F] with [v]: of its fulfil entry point or of
    its reject entry point. *)
Definition settle_call (fulfil : bool) (F : loc) (v : Value) : Call :=
  CApply (if fulfil then FOnSuccess F else FOnFailed F) v.

(** The state [F] is in afterwards. *)
Definition settled_state (fulfil : bool) : STATES :=
  if fulfil then FULFILLED else REJECTED.

(** [p] is pending. *)
Definition is_pending (h : Heap) (p : loc) : Prop :=
  exists P, promises h !! p = Some P /\ state P = PENDING.

(** The pair of closures registered when [F] was fulfilled with [G] is
    the last one pushed on the arrays of the pending promise [G]. *)
Definition adopting (h : Heap) (F G : loc) : Prop :=
  exists n P ts cs,
    promises h !! G = Some P /\ state P = PENDING /\
    thenCbs P = FThenCb (Some (FOnSuccess F)) n :: ts /\
    catchCbs P = FCatchCb (Some (FOnFailed F)) n :: cs.

(** A nest of adoptions: [F] was fulfilled with the first promise of
    [inner], that one with the next, and so on; all are pending. *)
Fixpoint nested (h : Heap) (F : loc) (inner : list loc) : Prop :=
  match inner with
  | [] => is_pending h F
  | G :: rest => is_pending h F /\ adopting h F G /\ nested h G rest
  end.




(** [promise.then(onThen).catch(onCatch)] on a quiet promise: two new
    promises are allocated and both pairs of closures are registered. *)
Definition then_catch_heap (promise : loc) (onThen onCatch : Fn) (u : Value)
    (h : Heap) : Heap :=
  let n1 := length (promises h) in
  set_promise n1
    (mkPromise PENDING VUndefined [FThenCb None (S n1)] [FCatchCb (Some onCatch) (S n1)])
    (alloc_promise
       (set_promise promise
          (mkPromise PENDING u [FThenCb (Some onThen) n1] [FCatchCb None n1])
          (alloc_promise h))).



(** The method call [c] on [F], which returns the next promise allocated,
    is made after [F] was settled with [v], or before: in both runs the
    final store satisfies [Q]. *)
Definition either_order (h0 : Heap) (F : loc) (fulfil : bool) (v : Value)
    (c : Call) (Q : Heap -> Prop) : Prop :=
  let L := length (promises h0) in
  (exists h1 r h2,
     evals (settle_call fulfil F v) h0 h1 r /\
     evals c h1 h2 (Return (VPromise L)) /\ Q h2) /\
  (exists h1 h2 r,
     evals c h0 h1 (Return (VPromise L)) /\
     evals (settle_call fulfil F v) h1 h2 r /\ Q h2).

(** The final store of such a run: the handler invocations [t] were
    recorded, [F] is settled with [v], and the new promise is settled with
    the completion [r]: fulfilled with the value returned, rejected with
    the value thrown. *)
Definition handler_outcome (h0 : Heap) (F : loc) (fulfil : bool) (v : Value)
    (t : list (nat * Value)) (r : Completion) (h : Heap) : Prop :=
  trace h = trace h0 ++ t /\
  settlements h !! F = Some (settled_state fulfil, v) /\
  settlements h !! length (promises h0) = Some (settlement_of r).


(** A handler supplied by the caller: its name in the record of
    invocations and its body. *)
Definition Handler : Type := nat * (Value -> Completion).

(** The handler as a function value. *)
Definition user (f : Handler) : Fn := FUser (fst f) (snd f).

(** [F.then(f1); F.then(f2); ...] *)
Definition attach_calls (F : loc) (fs : list Handler) : list Call :=
  map (fun f => then_ F (Some (user f)) None) fs.

(** The closures these calls push on [#thenCbs] and on [#catchCbs], in the
    order of the calls; the first call returns the promise at [n]. *)
Fixpoint then_cbs (n : loc) (fs : list Handler) : list Fn :=
  match fs with
  | [] => []
  | f :: rest => FThenCb (Some (user f)) n :: then_cbs (S n) rest
  end.

Fixpoint catch_cbs (n : loc) (k : nat) : list Fn :=
  match k with
  | 0 => []
  | S k' => FCatchCb None n :: catch_cbs (S n) k'
  end.

(** The invocations of the handlers [fs] with [v], first handler first. *)
Definition invocations (fs : list Handler) (v : Value) : list (nat * Value) :=
  map (fun f => (fst f, v)) fs.

(** The handler returns a value that is not a promise. *)
Definition returns_plain (v : Value) (f : Handler) : bool :=
  match snd f v with
  | Return w => negb (instanceof_MyPromise w)
  | Throw _ => false
  end.

(** What [race(ps)] does on pending inputs: the returned promise
    (allocated at [O]) is pending after the call; when the first input to
    settle, [pj], is fulfilled or rejected with [v], the returned promise
    is fulfilled or rejected with [v], and it stays so through any later
    calls. *)
Definition race_outcome (h0 : Heap) (ps : list loc) (pj : loc) (fulfil : bool)
    (v : Value) : Prop :=
  let O := length (promises h0) in
  exists h1 h2 r,
    evals (race ps) h0 h1 (Return (VPromise O)) /\
    settlements h1 !! O = Some (PENDING, VUndefined) /\
    evals (settle_call fulfil pj v) h1 h2 r /\
    settlements h2 !! O = Some (settled_state fulfil, v) /\
    forall fuel cs h3, run fuel cs h2 = Some h3 ->
                       settlements h3 !! O = Some (settled_state fulfil, v).

(** The inputs are rejected by calls of their reject entry points. *)
Definition reject_calls (evs : list (loc * Value)) : list Call :=
  map (fun ev => CApply (FOnFailed (fst ev)) (snd ev)) evs.

(** What [any(ps)] does when the inputs of [evs] are rejected one after
    the other: every rejection is counted in [resultCount] and the
    returned promise (allocated at [O]) is still pending. *)
Definition any_pending_outcome (h0 : Heap) (ps : list loc)
    (evs : list (loc * Value)) (h2 : Heap) : Prop :=
  let O := length (promises h0) in
  let fr := length (frames h0) in
  exists h1,
    evals (any ps) h0 h1 (Return (VPromise O)) /\
    runs (reject_calls evs) h1 h2 /\
    settlements h2 !! O = Some (PENDING, VUndefined) /\
    frames h2 !! fr = Some (mkVars [] (length evs)).

(** How an input settles: fulfilled ([true]) or rejected, and with which
    value. *)
Definition Outcome : Type := bool * Value.

(** The object literal [allSettled] stores for an input. *)
Definition status_entry (o : Outcome) : Value :=
  if fst o then VStatusFulfilled (snd o) else VStatusRejected (snd o).

(** The inputs are settled by calls of their entry points. *)
Definition settle_calls (evs : list (loc * Outcome)) : list Call :=
  map (fun ev => settle_call (fst (snd ev)) (fst ev) (snd (snd ev))) evs.

(** The inputs of [evs], each with the entry stored for it. *)
Definition entries (evs : list (loc * Outcome)) : list (loc * Value) :=
  map (fun ev => (fst ev, status_entry (snd ev))) evs.

(** What [allSettled(ps)] does when the inputs of [evs] settle one after
    the other: the returned promise (allocated at [O]) is pending after the
    call and fulfilled with the results array once the inputs of [evs] have
    settled; [arr] is the content of that array then. *)
Definition allSettled_outcome (h0 : Heap) (ps : list loc)
    (evs : list (loc * Outcome)) (arr : list (option Value)) : Prop :=
  let O := length (promises h0) in
  let fr := length (frames h0) in
  exists h1 h2,
    evals (allSettled ps) h0 h1 (Return (VPromise O)) /\
    settlements h1 !! O = Some (PENDING, VUndefined) /\
    runs (settle_calls evs) h1 h2 /\
    settlements h2 !! O = Some (FULFILLED, VArray fr) /\
    results <$> frames h2 !! fr = Some arr.

(** The handlers given to one [then] call of a chain. *)
Definition Link : Type := option Handler * option Handler.

(** The link as the two arguments of the call. *)
Definition fn_link (l : Link) : option Fn * option Fn :=
  (user <$> fst l, user <$> snd l).

(** How a completion settles the promise it is passed to. *)
Definition completion_outcome (r : Completion) : Outcome :=
  match r with Return w => (true, w) | Throw x => (false, x) end.

(** The state and value of a promise settled as [o]. *)
Definition outcome_settlement (o : Outcome) : STATES * Value :=
  (settled_state (fst o), snd o).

(** The handler of a link that is invoked when the promise the link is
    attached to settles as [o]. *)
Definition handler_for (o : Outcome) (l : Link) : option Handler :=
  if fst o then fst l else snd l.

(** How the promise returned by [then] settles, given how the promise it
    was called on settles: as that one when there is no handler for its
    state, else by the completion of the handler. *)
Definition link_result (o : Outcome) (l : Link) : Outcome :=
  match handler_for o l with
  | None => o
  | Some f => completion_outcome (snd f (snd o))
  end.

(** The handler invocation the link makes, if any. *)
Definition link_trace (o : Outcome) (l : Link) : list (nat * Value) :=
  match handler_for o l with
  | None => []
  | Some f => [(fst f, snd o)]
  end.

(** The settlements of the promises a chain creates, the handler
    invocations it makes, and whether every value passed along is no
    promise, when the chain starts from a promise settled as [o]. *)
Fixpoint chain_results (o : Outcome) (links : list Link) : list Outcome :=
  match links with
  | [] => []
  | l :: rest => link_result o l :: chain_results (link_result o l) rest
  end.

Fixpoint chain_trace (o : Outcome) (links : list Link) : list (nat * Value) :=
  match links with
  | [] => []
  | l :: rest => link_trace o l ++ chain_trace (link_result o l) rest
  end.

Fixpoint chain_plain (o : Outcome) (links : list Link) : bool :=
  match links with
  | [] => true
  | l :: rest =>
      negb (instanceof_MyPromise (snd (link_result o l)))
      && chain_plain (link_result o l) rest
  end.

(** The promise the chain expression evaluates to: the start [p] for the
    empty chain, else the last promise allocated. *)
Definition chain_end (p n : loc) (k : nat) : loc :=
  match k with 0 => p | S k' => n + k' end.

(** The final store of a chain of [then] calls started on [F]: the handler
    invocations are those of [chain_trace], in that order, and the promise
    returned by call number [i] is settled as [chain_results] says. *)
Definition chain_folds (h0 : Heap) (F : loc) (o : Outcome) (links : list Link)
    (h : Heap) : Prop :=
  trace h = trace h0 ++ chain_trace o links /\
  settlements h !! F = Some (outcome_settlement o) /\
  forall i oi, chain_results o links !! i = Some oi ->
    settlements h !! (length (promises h0) + i) = Some (outcome_settlement oi).

(** [linked h p n links]: the chain [links] has been built on the pending
    promise [p]; its [then] calls returned the promises from [n] on, each
    carrying the closures of the next call. *)
Fixpoint linked (h : Heap) (p n : loc) (links : list Link) : Prop :=
  match links with
  | [] => quiet h p
  | l :: rest =>
      (exists u, promises h !! p
         = Some (mkPromise PENDING u
                   [FThenCb (user <$> fst l) n] [FCatchCb (user <$> snd l) n])) /\
      linked h n (S n) rest
  end.

(** The two entry points and the two closures of [then], by the state
    they belong to. *)
Definition queue_of (b : bool) : Queue := if b then QThen else QCatch.

Definition wrap_of (b : bool) : option Fn -> loc -> Fn :=
  if b then FThenCb else FCatchCb.

(** The two runs of a chain on [F]: [F] is settled as [o] and then the
    chain is built, or the chain is built and then [F] is settled.  Both
    end in a store that satisfies [chain_folds]. *)
Definition chain_runs (h0 : Heap) (F : loc) (o : Outcome) (links : list Link) : Prop :=
  let last := chain_end F (length (promises h0)) (length links) in
  (exists h1 r h2,
     evals (settle_call (fst o) F (snd o)) h0 h1 r /\
     chains (fn_link <$> links) (VPromise F) h1 h2 (Return (VPromise last)) /\
     chain_folds h0 F o links h2) /\
  (exists h1 h2 r,
     chains (fn_link <$> links) (VPromise F) h0 h1 (Return (VPromise last)) /\
     evals (settle_call (fst o) F (snd o)) h1 h2 r /\
     chain_folds h0 F o links h2).


(** [f] is one of the two closures [then] pushes. *)
Definition then_closure (f : Fn) : bool :=
  match f with FThenCb _ _ | FCatchCb _ _ => true | _ => false end.

(** The two callback arrays of every promise hold only such closures. *)
Definition only_then_closures (h : Heap) : Prop :=
  forall p P, promises h !! p = Some P ->
    Forall (fun f => then_closure f = true) (thenCbs P) /\
    Forall (fun f => then_closure f = true) (catchCbs P).

(** The calls a user of the class makes, or that the class makes on its
    own promises: everything but a direct call of a handler or of a
    resolver body. *)
Definition library_call (c : Call) : bool :=
  match c with
  | CApply (FOnSuccess _) _ | CApply (FOnFailed _) _ => true
  | CApply f _ => then_closure f
  | CRunCallbacks _ _ => true
  | CResolver (RThen _ _ _) _ => true
  | CResolver _ _ => false
  | CNew _ => true
  end.

(** The call ends by returning. *)
Definition returns (r : Completion) : Prop := exists w, r = Return w.

(** The two errors the class itself raises. *)
Definition class_error (e : Value) : Prop :=
  e = unhandled \/ e = VReferenceError "value".

(** The closures the class creates, as opposed to the functions of the
    caller and to the two closures of [finally], which call one and end as
    it ends. *)
Definition class_closure (f : Fn) : bool :=
  match f with
  | FUser _ _ | FFinallyValue _ | FFinallyError _ => false
  | _ => true
  end.

(** The calls of the class's own code: everything but a direct call of a
    function of the caller. *)
Definition class_call (c : Call) : bool :=
  match c with
  | CApply f _ => class_closure f
  | CRunCallbacks _ _ => true
  | CResolver (RUser _ _) _ => false
  | CResolver _ _ => true
  | CNew _ => true
  end.

(** The call does not end by throwing anything but an error of the
    class. *)
Definition throws_class_error (r : Completion) : Prop :=
  forall e, r = Throw e -> class_error e.

(** The first statement of a resolver body. *)
Definition first_action (fulfil : bool) (v : Value) : Action :=
  if fulfil then ActResolve v else ActReject v.

(** [p] is fulfilled with [v] and its fulfilment callbacks have run. *)
Definition fulfilled_with (h : Heap) (p : loc) (v : Value) : Prop :=
  exists cs, promises h !! p = Some (mkPromise FULFILLED v [] cs).

(** ** Well-formed stores and the work a call can do *)

(** A bound on the work of a call of [#onSuccess]: with a payload that
    is a promise it calls [then], which registers two closures. *)
Definition settle_cost (promise : bool) : nat := if promise then 40 else 2.

(** Can the closure return a promise when its argument is one
    ([promise]) or is none? *)
Definition returns_promise (promise : bool) (f : Fn) : bool :=
  match f with
  | FUser _ _ => true
  | FFinallyValue _ => promise
  | _ => false
  end.

(** A bound on the calls a closure makes, not counting the callbacks it
    finds in the arrays. *)
Fixpoint cost (promise : bool) (f : Fn) : nat :=
  match f with
  | FOnSuccess _ => settle_cost promise
  | FOnFailed _ => 2
  | FThenCb None _ => settle_cost promise + 2
  | FCatchCb None _ => 4
  | FThenCb (Some g) _ | FCatchCb (Some g) _ =>
      cost promise g + settle_cost (returns_promise promise g) + 6
  | FFinallyValue cb | FFinallyError cb => cost false cb + 2
  | FAllThen _ _ _ _ | FAllSettledThen _ _ _ _ | FAllSettledCatch _ _ _ _ => 4
  | FAllCatch _ => 4
  | FAnyThen _ => settle_cost promise + 2
  | FAnyCatch _ _ _ _ => 1
  | FUser _ _ => 1
  end.

Definition then_cost (thenCb catchCb : option Fn) : nat :=
  cost false (FThenCb thenCb 0) + cost false (FCatchCb catchCb 0) + 6.

(** One turn of a combinator's loop: [promise.then(onThen).catch(onCatch)]. *)
Definition loop_cost (onThen onCatch : Fn) : nat :=
  then_cost (Some onThen) None + then_cost None (Some onCatch).

Definition resolver_cost (r : Resolver) : nat :=
  match r with
  | RThen _ thenCb catchCb => then_cost thenCb catchCb - 4
  | RResolve v => settle_cost (instanceof_MyPromise v) + 2
  | RReject _ => 4
  | RAll ps => length ps * loop_cost (FAllThen 0 0 [] 0) (FAllCatch 0) + 2
  | RAllSettled ps =>
      length ps * loop_cost (FAllSettledThen 0 0 [] 0) (FAllSettledCatch 0 0 [] 0) + 2
  | RRace ps => length ps * loop_cost (FOnSuccess 0) (FOnFailed 0) + 2
  | RAny ps => length ps * loop_cost (FAnyThen 0) (FAnyCatch 0 0 [] 0) + 2
  | RUser body _ => length body * 40 + 2
  end.

Definition call_cost (c : Call) : nat :=
  match c with
  | CApply f v => cost (instanceof_MyPromise v) f
  | CRunCallbacks _ _ => 1
  | CResolver r _ => resolver_cost r
  | CNew r => resolver_cost r + 4
  end.

(** The work that waits in the callback arrays. *)
Definition queued (cbs : list Fn) : nat := foldr (fun f n => cost false f + n) 0 cbs.

Definition waiting (P : MyPromise) : nat := queued (thenCbs P) + queued (catchCbs P).

Definition work (h : Heap) : nat := foldr (fun P n => waiting P + n) 0 (promises h).

(** The store grew. *)
Definition grew (h h' : Heap) : Prop :=
  length (promises h) <= length (promises h') /\
  length (frames h) <= length (frames h').

Definition can_return_promise (c : Call) : bool :=
  match c with
  | CApply f v => returns_promise (instanceof_MyPromise v) f
  | CNew _ => true
  | _ => false
  end.
(** [protected_p] and [protected_f] mark promises and combinator
    variables that a call is not to reach; with nothing protected,
    [fn_ok np nf f] says that every reference of the closure [f] is to one
    of the first [np] promises or [nf] variable records, and that its
    handlers return only such promises. *)
Section Reach.

Variable protected_p protected_f : loc -> Prop.

Definition loc_ok (np : nat) (p : loc) : Prop := p < np /\ ~ protected_p p.

Definition frame_ok (nf : nat) (a : loc) : Prop := a < nf /\ ~ protected_f a.

Definition value_ok (np : nat) (v : Value) : Prop :=
  match v with VPromise q => loc_ok np q | _ => True end.

Fixpoint fn_ok (np nf : nat) (f : Fn) : Prop :=
  match f with
  | FOnSuccess p | FOnFailed p => loc_ok np p
  | FThenCb cb n | FCatchCb cb n =>
      loc_ok np n /\ match cb with Some g => fn_ok np nf g | None => True end
  | FFinallyValue cb | FFinallyError cb => fn_ok np nf cb
  | FAllThen vars _ _ outer | FAllSettledThen vars _ _ outer
  | FAllSettledCatch vars _ _ outer | FAnyCatch vars _ _ outer =>
      frame_ok nf vars /\ loc_ok np outer
  | FAllCatch outer | FAnyThen outer => loc_ok np outer
  | FUser _ body => forall x w, body x = Return w -> value_ok np w
  end.

Definition opt_ok (np nf : nat) (cb : option Fn) : Prop :=
  match cb with Some g => fn_ok np nf g | None => True end.

Definition action_ok (np : nat) (a : Action) : Prop :=
  match a with ActResolve v => value_ok np v | ActReject _ => True end.

Definition resolver_ok (np nf : nat) (r : Resolver) : Prop :=
  match r with
  | RThen p thenCb catchCb => loc_ok np p /\ opt_ok np nf thenCb /\ opt_ok np nf catchCb
  | RResolve v => value_ok np v
  | RReject _ => True
  | RAll ps | RAllSettled ps | RRace ps | RAny ps => Forall (loc_ok np) ps
  | RUser body _ => Forall (action_ok np) body
  end.

Definition call_ok (np nf : nat) (c : Call) : Prop :=
  match c with
  | CApply f v =>
      fn_ok np nf f /\ match f with FOnFailed _ => True | _ => value_ok np v end
  | CRunCallbacks p _ => loc_ok np p
  | CResolver r this => loc_ok np this /\ resolver_ok np nf r
  | CNew r => resolver_ok np nf r
  end.

(** The store is well formed: no stored value is a promise, and the
    callbacks of every promise that is not protected reach only promises
    and variables that exist and are not protected. *)
Definition store_ok (h : Heap) : Prop :=
  (forall p, protected_p p -> p < length (promises h)) /\
  (forall a, protected_f a -> a < length (frames h)) /\
  forall p P, promises h !! p = Some P ->
    instanceof_MyPromise (value P) = false /\
    (~ protected_p p ->
     Forall (fn_ok (length (promises h)) (length (frames h))) (thenCbs P) /\
     Forall (fn_ok (length (promises h)) (length (frames h))) (catchCbs P)).

(** What is protected is as it was. *)
Definition untouched (h h' : Heap) : Prop :=
  (forall p, protected_p p -> promises h' !! p = promises h !! p) /\
  (forall a, protected_f a -> frames h' !! a = frames h !! a).

(** How a call that ends leaves the store: well formed, no smaller, with
    less work waiting than the call was allowed, and with what is protected
    as it was; a value it returns exists, [new] returns a promise, and only
    a handler of the caller returns a promise of its own. *)
Definition ends (c : Call) (h h' : Heap) (r : Completion) : Prop :=
  store_ok h' /\ grew h h' /\ work h' + 1 <= work h + call_cost c /\
  untouched h h' /\
  match r with
  | Return w =>
      value_ok (length (promises h')) w /\
      (instanceof_MyPromise w = true -> can_return_promise c = true) /\
      match c with CNew _ => instanceof_MyPromise w = true | _ => True end
  | Throw _ => True
  end.

End Reach.

(** Nothing is protected. *)
Definition nothing : loc -> Prop := fun _ => False.

Definition well_formed (h : Heap) : Prop := store_ok nothing nothing h.

(** ** A larger budget changes no result *)

Definition le_M (m1 m2 : M) : Prop :=
  forall h x, m1 h = Some x -> m2 h = Some x.

Lemma le_M_refl m : le_M m m.
Proof. intros h x H; exact H. Qed.

Lemma le_bind m1 m2 k1 k2 :
  le_M m1 m2 -> (forall v, le_M (k1 v) (k2 v)) -> le_M (bind m1 k1) (bind m2 k2).
Proof.
  intros Hm Hk h x. unfold bind.
  destruct (m1 h) as [[h1 [v|e]]|] eqn:E; try discriminate.
  - rewrite (Hm _ _ E). apply Hk.
  - rewrite (Hm _ _ E). auto.
Qed.

Lemma le_try_catch m1 m2 k1 k2 :
  le_M m1 m2 -> (forall v, le_M (k1 v) (k2 v)) ->
  le_M (try_catch m1 k1) (try_catch m2 k2).
Proof.
  intros Hm Hk h x. unfold try_catch.
  destruct (m1 h) as [[h1 [v|e]]|] eqn:E; try discriminate.
  - rewrite (Hm _ _ E). auto.
  - rewrite (Hm _ _ E). apply Hk.
Qed.

Lemma le_forEach (b1 b2 : loc -> nat -> M) ps :
  (forall p i, le_M (b1 p i) (b2 p i)) ->
  forall i, le_M (forEach b1 ps i) (forEach b2 ps i).
Proof.
  intros Hb. induction ps as [|p ps IH]; intros i; simpl.
  - apply le_M_refl.
  - apply le_bind; auto.
Qed.

Create HintDb mono.

Section Monotone.

Variables rec1 rec2 : Call -> M.
Hypothesis Hrec : forall c, le_M (rec1 c) (rec2 c).

Local Hint Resolve le_M_refl le_bind le_try_catch : mono.
Local Hint Extern 1 (le_M (rec1 _) (rec2 _)) => apply Hrec : mono.
Local Hint Extern 1 (le_M (call rec1 _ _) (call rec2 _ _)) => apply Hrec : mono.

Lemma le_onSuccess this v : le_M (onSuccess rec1 this v) (onSuccess rec2 this v).
Proof.
  intros h x. unfold onSuccess.
  destruct (promises h !! this) as [P|]; [|discriminate].
  destruct (state P); auto; destruct v; try apply Hrec.
  apply le_bind; auto with mono.
Qed.

Lemma le_onFailed this e : le_M (onFailed rec1 this e) (onFailed rec2 this e).
Proof.
  intros h x. unfold onFailed.
  destruct (promises h !! this) as [P|]; [|discriminate].
  destruct (state P); auto; destruct e; auto; destruct (catchCbs P); auto;
    apply Hrec.
Qed.

Lemma le_runCallbacks this q :
  le_M (runCallbacks rec1 this q) (runCallbacks rec2 this q).
Proof.
  intros h x. unfold runCallbacks.
  destruct (promises h !! this) as [P|]; [|discriminate].
  destruct (queue q P); auto. apply le_bind; auto with mono.
Qed.

Lemma le_wrapped f n v :
  le_M (try_catch (let* r := call rec1 f v in call rec1 (FOnSuccess n) r;; ret VUndefined)
          (fun e => call rec1 (FOnFailed n) e;; ret VUndefined))
       (try_catch (let* r := call rec2 f v in call rec2 (FOnSuccess n) r;; ret VUndefined)
          (fun e => call rec2 (FOnFailed n) e;; ret VUndefined)).
Proof.
  apply le_try_catch; [apply le_bind|]; intros; auto with mono.
Qed.

Lemma le_apply f v : le_M (apply rec1 f v) (apply rec2 f v).
Proof.
  destruct f; simpl; auto using le_onSuccess, le_onFailed with mono.
  - destruct thenCb; simpl; [apply le_wrapped | auto with mono].
  - destruct catchCb; simpl; [apply le_wrapped | auto with mono].
  - intros h x. unfold all_then.
    destruct (frames h !! vars); auto. simpl.
    case_decide; auto. apply le_bind; auto with mono.
  - intros h x. unfold allSettled_record.
    destruct (frames h !! vars); auto.
    case_decide; auto. apply le_bind; auto with mono.
  - intros h x. unfold allSettled_record.
    destruct (frames h !! vars); auto.
    case_decide; auto. apply le_bind; auto with mono.
Qed.

Lemma le_then_catch p f g :
  le_M (then_catch rec1 p f g) (then_catch rec2 p f g).
Proof.
  apply le_bind; auto with mono. intros []; auto with mono.
Qed.

Lemma le_user_resolver body fin this :
  le_M (user_resolver rec1 body fin this) (user_resolver rec2 body fin this).
Proof.
  induction body as [|[v|e] body IH]; simpl; auto with mono.
Qed.

Lemma le_run_resolver r this :
  le_M (run_resolver rec1 r this) (run_resolver rec2 r this).
Proof.
  destruct r; simpl; auto using le_user_resolver with mono.
  - intros h x. unfold then_resolver.
    destruct (promises h !! this0) as [P|]; auto.
    destruct (state P); auto; apply Hrec.
  - intros h. apply le_forEach. intros; apply le_then_catch.
  - intros h. apply le_forEach. intros p i h' x.
    destruct (frames h' !! length (frames h)); auto. apply le_then_catch.
  - apply le_forEach. intros; apply le_then_catch.
  - intros h. apply le_forEach. intros; apply le_then_catch.
Qed.

Lemma le_step c : le_M (step rec1 c) (step rec2 c).
Proof.
  destruct c; simpl;
    auto using le_apply, le_runCallbacks, le_run_resolver.
  intros h. unfold constructor. apply le_bind; auto with mono.
Qed.

End Monotone.

Lemma exec_mono n m c h x :
  exec n c h = Some x -> n <= m -> exec m c h = Some x.
Proof.
  revert m c h x. induction n as [|n IH]; intros m c h x H Hle; [discriminate|].
  destruct m as [|m]; [lia|]. simpl in *.
  revert H. apply le_step. intros c' h' x' H'. apply (IH m); [exact H'|lia].
Qed.

(** ** Store invariants carried through every call

    A property [I] of stores is kept by every call as soon as the few
    assignments the class makes keep it.  [okp] tells which promises'
    [#onSuccess]/[#onFailed] the calls under consideration hold; [okf]
    extends it to closures. *)

Section Invariant.

Variable I : Heap -> Prop.
Variable okp : loc -> Prop.

Fixpoint okf (f : Fn) : Prop :=
  match f with
  | FOnSuccess p | FOnFailed p => okp p
  | FThenCb cb n | FCatchCb cb n =>
      okp n /\ match cb with Some g => okf g | None => True end
  | FFinallyValue cb | FFinallyError cb => okf cb
  | FAllThen _ _ _ outer | FAllCatch outer
  | FAllSettledThen _ _ _ outer | FAllSettledCatch _ _ _ outer
  | FAnyThen outer | FAnyCatch _ _ _ outer => okp outer
  | FUser _ _ => True
  end.

Definition okopt (cb : option Fn) : Prop :=
  match cb with Some g => okf g | None => True end.

Definition okr (r : Resolver) : Prop :=
  match r with
  | RThen _ thenCb catchCb => okopt thenCb /\ okopt catchCb
  | _ => True
  end.

Definition okc (c : Call) : Prop :=
  match c with
  | CApply f _ => okf f
  | CRunCallbacks _ _ => True
  | CResolver r this => okr r /\ okp this
  | CNew r => okr r
  end.

Hypothesis I_settle : forall h p P s v,
  I h -> promises h !! p = Some P -> state P = PENDING -> okp p ->
  instanceof_MyPromise v = false -> s = FULFILLED \/ s = REJECTED ->
  I (set_promise p (settled s v P) h).
Hypothesis I_pop : forall h p P q cb rest,
  I h -> promises h !! p = Some P -> queue q P = cb :: rest ->
  I (set_promise p (with_queue q rest P) h) /\ okf cb.
Hypothesis I_push : forall h p P thenCb catchCb n,
  I h -> promises h !! p = Some P -> okopt thenCb -> okopt catchCb -> okp n ->
  I (set_promise p (mkPromise (state P) (value P)
                      (FThenCb thenCb n :: thenCbs P)
                      (FCatchCb catchCb n :: catchCbs P)) h).
Hypothesis I_alloc : forall h,
  I h -> I (alloc_promise h) /\ okp (length (promises h)).
Hypothesis I_alloc_vars : forall h, I h -> I (alloc_vars h).
Hypothesis I_set_vars : forall h a V, I h -> I (set_vars a V h).
Hypothesis I_log : forall h id v, I h -> I (log id v h).

Definition pres (m : M) : Prop :=
  forall h h' r, m h = Some (h', r) -> I h -> I h'.

Lemma pres_ret v : pres (ret v).
Proof. intros h h' r [= <- _]; auto. Qed.

Lemma pres_throw v : pres (throw v).
Proof. intros h h' r [= <- _]; auto. Qed.

Lemma pres_bind m k : pres m -> (forall v, pres (k v)) -> pres (bind m k).
Proof.
  intros Hm Hk h h' r. unfold bind.
  destruct (m h) as [[h1 [v|e]]|] eqn:E; try discriminate.
  - intros H Hi. eapply Hk; eauto.
  - intros [= <- _] Hi. eauto.
Qed.

Lemma pres_try_catch m k :
  pres m -> (forall v, pres (k v)) -> pres (try_catch m k).
Proof.
  intros Hm Hk h h' r. unfold try_catch.
  destruct (m h) as [[h1 [v|e]]|] eqn:E; try discriminate.
  - intros [= <- _] Hi. eauto.
  - intros H Hi. eapply Hk; eauto.
Qed.

Lemma pres_forEach (body : loc -> nat -> M) ps :
  (forall p i, pres (body p i)) -> forall i, pres (forEach body ps i).
Proof.
  intros Hb. induction ps as [|p ps IH]; intros i; simpl.
  - apply pres_ret.
  - apply pres_bind; auto.
Qed.

Section Step.

Variable rec : Call -> M.
Hypothesis Hrec : forall c, okc c -> pres (rec c).

Lemma pres_call f v : okf f -> pres (call rec f v).
Proof. intros Hf. apply Hrec. exact Hf. Qed.

Local Hint Resolve pres_ret pres_throw pres_bind pres_try_catch pres_call : core.

Lemma pres_onSuccess this v : okp this -> pres (onSuccess rec this v).
Proof.
  intros Hp h h' r. unfold onSuccess.
  destruct (promises h !! this) as [P|] eqn:EP; [|discriminate].
  destruct (state P) eqn:ES; try (intros [= <- _]; auto; fail).
  destruct v;
    try (intros H Hi; eapply (Hrec (CRunCallbacks this QThen)); simpl;
         eauto; fail).
  apply pres_bind; auto. apply Hrec. simpl. auto.
Qed.

Lemma pres_onFailed this e : okp this -> pres (onFailed rec this e).
Proof.
  intros Hp h h' r. unfold onFailed.
  destruct (promises h !! this) as [P|] eqn:EP; [|discriminate].
  destruct (state P) eqn:ES; try (intros [= <- _]; auto; fail).
  destruct e; try (intros [= <- _]; auto; fail);
    (destruct (catchCbs P);
     [ intros [= <- _] Hi; eauto
     | intros H Hi; eapply (Hrec (CRunCallbacks this QCatch)); simpl; eauto ]).
Qed.

Lemma pres_runCallbacks this q : pres (runCallbacks rec this q).
Proof.
  intros h h' r. unfold runCallbacks.
  destruct (promises h !! this) as [P|] eqn:EP; [|discriminate].
  destruct (queue q P) as [|cb rest] eqn:EQ; [intros [= <- _]; auto|].
  intros H Hi. destruct (I_pop _ _ _ _ _ _ Hi EP EQ) as [Hi' Hcb].
  revert H Hi'. apply pres_bind; auto. intros _. apply Hrec. exact Logic.I.
Qed.

Lemma pres_wrapped f n v :
  okf f -> okp n ->
  pres (try_catch
          (let* r := call rec f v in call rec (FOnSuccess n) r;; ret VUndefined)
          (fun e => call rec (FOnFailed n) e;; ret VUndefined)).
Proof. intros Hf Hn. apply pres_try_catch; auto 6. Qed.

Lemma pres_record vars index promiseArray outer entry :
  okp outer ->
  pres (allSettled_record rec vars index promiseArray outer entry).
Proof.
  intros Ho h h' r. unfold allSettled_record.
  destruct (frames h !! vars) as [V|]; [|discriminate].
  case_decide as Hd.
  - intros H Hi.
    eapply pres_bind; [| |exact H|]; simpl; auto.
  - intros [= <- _] Hi. auto.
Qed.

Lemma pres_apply f v : okf f -> pres (apply rec f v).
Proof.
  destruct f; simpl; intros Hf;
    auto using pres_onSuccess, pres_onFailed, pres_record.
  - destruct Hf as [Hn Hcb]. destruct thenCb; simpl; auto using pres_wrapped.
  - destruct Hf as [Hn Hcb]. destruct catchCb; simpl; auto using pres_wrapped.
  - intros h h' r. unfold all_then.
    destruct (frames h !! vars) as [V|]; [|discriminate]. simpl.
    case_decide as Hd.
    + intros H Hi.
      eapply pres_bind; [| |exact H|]; simpl; auto.
    + intros [= <- _] Hi. auto.
  - intros h h' r. unfold any_catch.
    destruct (frames h !! vars) as [V|]; [|discriminate].
    intros [= <- _] Hi. auto.
  - intros h h' r [= <- _] Hi. auto.
Qed.

Lemma pres_then_catch p f g :
  okf f -> okf g -> pres (then_catch rec p f g).
Proof.
  intros Hf Hg. apply pres_bind.
  - apply Hrec. simpl. auto.
  - intros []; try (intros h h' r; discriminate).
    apply Hrec. simpl. auto.
Qed.

Lemma pres_user_resolver body fin this :
  okp this -> pres (user_resolver rec body fin this).
Proof.
  intros Hp. induction body as [|[v|e] body IH]; simpl; auto.
  intros h h' r [= <- _]; auto.
Qed.

Lemma pres_run_resolver r this :
  okr r -> okp this -> pres (run_resolver rec r this).
Proof.
  destruct r; simpl; intros Hr Hp; auto using pres_user_resolver.
  - intros h h' r. unfold then_resolver.
    destruct (promises h !! this0) as [P|] eqn:EP; [|discriminate].
    destruct Hr as [Ht Hc]. intros H Hi.
    pose proof (I_push h this0 P thenCb catchCb this Hi EP Ht Hc Hp) as Hi1.
    remember (set_promise this0 _ h) as h1 eqn:Eh1. clear Eh1.
    destruct (state P);
      try (injection H as <- _; exact Hi1);
      (eapply (Hrec (CRunCallbacks this0 _)); [exact Logic.I|exact H|]; auto).
  - intros h h' r H Hi. unfold all_resolver in H. revert H.
    intros H. eapply pres_forEach; [|exact H|auto].
    intros. apply pres_then_catch; simpl; auto.
  - intros h h' r H Hi. unfold allSettled_resolver in H.
    eapply pres_forEach; [|exact H|auto].
    intros p i h1 h2 r2.
    destruct (frames h1 !! length (frames h)); [|discriminate].
    intros H2 Hi2. eapply pres_then_catch; [| |exact H2|]; simpl; auto.
  - apply pres_forEach. intros. apply pres_then_catch; simpl; auto.
  - intros h h' r H Hi. unfold any_resolver in H.
    eapply pres_forEach; [|exact H|auto].
    intros. apply pres_then_catch; simpl; auto.
Qed.

Lemma pres_step c : okc c -> pres (step rec c).
Proof.
  destruct c; simpl; intros Hc;
    auto using pres_apply, pres_runCallbacks.
  - destruct Hc. auto using pres_run_resolver.
  - intros h h' x H Hi. unfold constructor in H.
    destruct (I_alloc h Hi) as [Hi' Hp].
    revert H Hi'. apply pres_bind; auto.
    apply pres_try_catch; auto. apply Hrec. simpl. auto.
Qed.

End Step.

Lemma exec_pres fuel : forall c, okc c -> pres (exec fuel c).
Proof.
  induction fuel as [|n IH]; intros c Hc; simpl.
  - intros h h' r; discriminate.
  - apply pres_step; auto.
Qed.

End Invariant.

(** ** Reading the store *)

Lemma pending_true P : pending P = true <-> state P = PENDING.
Proof. unfold pending. destruct (state P); split; congruence. Qed.

Lemma pending_false P : pending P = false <-> state P <> PENDING.
Proof. unfold pending. destruct (state P); split; congruence. Qed.

Lemma promises_set_promise p P h :
  promises (set_promise p P h) = <[p := P]> (promises h).
Proof. reflexivity. Qed.

Lemma lookup_set_promise_eq p P h :
  p < length (promises h) -> promises (set_promise p P h) !! p = Some P.
Proof. intros. simpl. by apply list_lookup_insert_eq. Qed.

Lemma lookup_set_promise_ne p q P h :
  p <> q -> promises (set_promise p P h) !! q = promises h !! q.
Proof. intros. simpl. by apply list_lookup_insert_ne. Qed.

Lemma lookup_alloc_old p h :
  p < length (promises h) -> promises (alloc_promise h) !! p = promises h !! p.
Proof. intros. simpl. by apply lookup_app_l. Qed.

Lemma lookup_alloc_new h :
  promises (alloc_promise h) !! length (promises h) = Some fresh_promise.
Proof. simpl. by apply list_lookup_middle. Qed.

Lemma length_set_promise p P h :
  length (promises (set_promise p P h)) = length (promises h).
Proof. simpl. apply length_insert. Qed.

Lemma length_alloc_promise h :
  length (promises (alloc_promise h)) = S (length (promises h)).
Proof. simpl. rewrite length_app. simpl. lia. Qed.

Lemma settlements_lookup h p :
  settlements h !! p = (fun P => (state P, value P)) <$> promises h !! p.
Proof.
  unfold settlements. generalize (promises h). intros l. revert p.
  induction l as [|P l IH]; intros [|p]; simpl; auto.
Qed.

Lemma settlements_lookup_Some h p P :
  promises h !! p = Some P -> settlements h !! p = Some (state P, value P).
Proof. intros H. rewrite settlements_lookup. by rewrite H. Qed.

(** ** A settlement is final *)

Lemma same_settlement_refl h : same_settlement h h.
Proof. intros p P HP _. eauto. Qed.

Lemma same_settlement_update h0 h p P P' :
  same_settlement h0 h -> promises h !! p = Some P ->
  (pending P = false -> state P' = state P /\ value P' = value P) ->
  same_settlement h0 (set_promise p P' h).
Proof.
  intros Hs HP Hkeep q Q HQ Hq.
  destruct (Hs q Q HQ Hq) as (Q' & HQ' & Hst & Hval).
  destruct (decide (p = q)) as [->|Hne].
  - exists P'. rewrite lookup_set_promise_eq by eauto using lookup_lt_Some.
    assert (Q' = P) as -> by congruence.
    destruct Hkeep as [-> ->]; auto.
    apply pending_false. rewrite Hst. by apply pending_false.
  - exists Q'. by rewrite lookup_set_promise_ne.
Qed.

Lemma okf_always (f : Fn) : okf (fun _ => True) f.
Proof.
  revert f. fix IH 1. intros f.
  destruct f as [| |cb ?|cb ?|cb|cb| | | | | | | ]; simpl; auto;
    try (split; [exact Logic.I|]; destruct cb; auto).
Qed.

Lemma okc_always (c : Call) : okc (fun _ => True) c.
Proof.
  destruct c as [f ?| |r ?|r]; simpl; auto using okf_always;
    destruct r; simpl; auto;
    repeat split; repeat match goal with
           | cb : option Fn |- _ => destruct cb; simpl
           end; auto using okf_always.
Qed.

(** Whatever call is made, a promise that has settled keeps its state and
    its value. *)
Lemma settled_forever fuel c h h' r :
  exec fuel c h = Some (h', r) -> same_settlement h h'.
Proof.
  intros H.
  apply (exec_pres (same_settlement h) (fun _ => True)) with fuel c h r;
    auto using okc_always, same_settlement_refl.
  - intros h1 p P s v Hs HP Hpend _ _ _.
    eapply same_settlement_update; eauto.
    intros Hn. apply pending_false in Hn. contradiction.
  - intros h1 p P q cb rest Hs HP _. split; [|apply okf_always].
    eapply same_settlement_update; eauto. destruct q; auto.
  - intros h1 p P tc cc n Hs HP _ _ _.
    eapply same_settlement_update; eauto.
  - intros h1 Hs. split; [|exact Logic.I].
    intros q Q HQ Hq. destruct (Hs q Q HQ Hq) as (Q' & HQ' & ?).
    exists Q'. split; auto.
    rewrite lookup_alloc_old; eauto using lookup_lt_Some.
Qed.

Lemma run_settled_forever fuel cs : forall h h',
  run fuel cs h = Some h' -> same_settlement h h'.
Proof.
  induction cs as [|c cs IH]; simpl; intros h h' H.
  - injection H as <-. apply same_settlement_refl.
  - destruct (exec fuel c h) as [[h1 r]|] eqn:E; [|discriminate].
    intros p P HP Hp.
    destruct (settled_forever _ _ _ _ _ E p P HP Hp) as (P1 & HP1 & Hs1 & Hv1).
    destruct (IH _ _ H p P1 HP1) as (P2 & HP2 & Hs2 & Hv2).
    + unfold pending in *. by rewrite Hs1.
    + exists P2. split; [done|]. split; congruence.
Qed.

(** ** Every call ends *)

Section Total.

Variable protected_p protected_f : loc -> Prop.

Abbreviation loc_ok := (loc_ok protected_p).
Abbreviation frame_ok := (frame_ok protected_f).
Abbreviation value_ok := (value_ok protected_p).
Abbreviation fn_ok := (fn_ok protected_p protected_f).
Abbreviation opt_ok := (opt_ok protected_p protected_f).
Abbreviation resolver_ok := (resolver_ok protected_p protected_f).
Abbreviation call_ok := (call_ok protected_p protected_f).
Abbreviation store_ok := (store_ok protected_p protected_f).
Abbreviation untouched := (untouched protected_p protected_f).

Lemma loc_ok_mono np np' p : np <= np' -> loc_ok np p -> loc_ok np' p.
Proof. intros Hle [Hlt Hn]. split; [lia|exact Hn]. Qed.

Lemma frame_ok_mono nf nf' a : nf <= nf' -> frame_ok nf a -> frame_ok nf' a.
Proof. intros Hle [Hlt Hn]. split; [lia|exact Hn]. Qed.

Lemma value_ok_mono np np' v : np <= np' -> value_ok np v -> value_ok np' v.
Proof. intros Hle. destruct v; simpl; eauto using loc_ok_mono. Qed.

Lemma fn_ok_mono np nf np' nf' :
  np <= np' -> nf <= nf' -> forall f, fn_ok np nf f -> fn_ok np' nf' f.
Proof.
  intros Hp Hf. fix IH 1. intros f.
  destruct f as [| |cb ?|cb ?|cb|cb| | | | | | | ]; simpl;
    eauto using loc_ok_mono, frame_ok_mono.
  - intros [Hn Hcb]. split; [eauto using loc_ok_mono|]. destruct cb; auto.
  - intros [Hn Hcb]. split; [eauto using loc_ok_mono|]. destruct cb; auto.
  - intros [? ?]; eauto using loc_ok_mono, frame_ok_mono.
  - intros [? ?]; eauto using loc_ok_mono, frame_ok_mono.
  - intros [? ?]; eauto using loc_ok_mono, frame_ok_mono.
  - intros [? ?]; eauto using loc_ok_mono, frame_ok_mono.
  - intros H x w Hx. eapply value_ok_mono; eauto.
Qed.

Lemma opt_ok_mono np nf np' nf' cb :
  np <= np' -> nf <= nf' -> opt_ok np nf cb -> opt_ok np' nf' cb.
Proof. destruct cb; simpl; eauto using fn_ok_mono. Qed.

Lemma Forall_fn_ok_mono np nf np' nf' cbs :
  np <= np' -> nf <= nf' -> Forall (fn_ok np nf) cbs -> Forall (fn_ok np' nf') cbs.
Proof. intros ? ? H. eapply Forall_impl; [exact H|]. eauto using fn_ok_mono. Qed.

Lemma resolver_ok_mono np nf np' nf' r :
  np <= np' -> nf <= nf' -> resolver_ok np nf r -> resolver_ok np' nf' r.
Proof.
  intros Hp Hf. destruct r; simpl; eauto using value_ok_mono;
    try (intros H; eapply Forall_impl; [exact H|]; eauto using loc_ok_mono).
  - intros (? & ? & ?). eauto 6 using loc_ok_mono, opt_ok_mono.
  - intros a. destruct a; simpl; eauto using value_ok_mono.
Qed.

(** *** The work that waits in the arrays *)

Lemma work_set_promise p P P' h :
  promises h !! p = Some P ->
  work (set_promise p P' h) + waiting P = work h + waiting P'.
Proof.
  unfold work. simpl. generalize (promises h). intros l. revert p.
  induction l as [|Q l IH]; intros [|p]; simpl; try discriminate.
  - intros [= ->]. lia.
  - intros H. specialize (IH p H). lia.
Qed.

Lemma work_alloc_promise h : work (alloc_promise h) = work h.
Proof.
  unfold work. simpl. induction (promises h) as [|Q l IH]; simpl; [reflexivity|].
  by rewrite IH.
Qed.

Lemma work_set_vars a V h : work (set_vars a V h) = work h.
Proof. reflexivity. Qed.

Lemma work_alloc_vars h : work (alloc_vars h) = work h.
Proof. reflexivity. Qed.

Lemma work_log id v h : work (log id v h) = work h.
Proof. reflexivity. Qed.

Lemma queued_cons f l : queued (f :: l) = cost false f + queued l.
Proof. reflexivity. Qed.

Lemma queued_app l k : queued (l ++ k) = queued l + queued k.
Proof. induction l as [|f l IH]; simpl; [reflexivity|]. rewrite IH. lia. Qed.

(** *** Well-formed stores *)

Lemma store_ok_set_promise h p P' :
  store_ok h -> p < length (promises h) -> ~ protected_p p ->
  instanceof_MyPromise (value P') = false ->
  Forall (fn_ok (length (promises h)) (length (frames h))) (thenCbs P') ->
  Forall (fn_ok (length (promises h)) (length (frames h))) (catchCbs P') ->
  store_ok (set_promise p P' h).
Proof.
  intros (Hp & Hf & Hall) Hlt Hn Hv Ht Hc. unfold store_ok.
  rewrite length_set_promise. simpl.
  split; [exact Hp|]. split; [exact Hf|].
  intros q Q. rewrite list_lookup_insert_Some.
  intros [(_ & <- & _)|(_ & HQ)]; auto.
Qed.

Lemma store_ok_alloc_promise h : store_ok h -> store_ok (alloc_promise h).
Proof.
  intros (Hp & Hf & Hall). unfold store_ok. rewrite length_alloc_promise. simpl.
  split; [intros p Hpp; specialize (Hp p Hpp); lia|]. split; [exact Hf|].
  intros q Q. rewrite lookup_snoc_Some.
  intros [(_ & HQ)|(_ & <-)]; simpl;
    [|split; [reflexivity|intros _; split; constructor]].
  destruct (Hall q Q HQ) as [Hv Hcb]. split; [exact Hv|].
  intros Hn. destruct (Hcb Hn).
  split; (eapply Forall_fn_ok_mono; [| |eassumption]; lia).
Qed.

Lemma store_ok_alloc_vars h : store_ok h -> store_ok (alloc_vars h).
Proof.
  intros (Hp & Hf & Hall). unfold store_ok. simpl. rewrite length_app. simpl.
  split; [exact Hp|]. split; [intros a Ha; specialize (Hf a Ha); lia|].
  intros q Q HQ. destruct (Hall q Q HQ) as [Hv Hcb]. split; [exact Hv|].
  intros Hn. destruct (Hcb Hn).
  split; (eapply Forall_fn_ok_mono; [| |eassumption]; lia).
Qed.

Lemma store_ok_set_vars a V h : store_ok h -> store_ok (set_vars a V h).
Proof.
  intros (Hp & Hf & Hall). unfold store_ok. simpl. rewrite length_insert.
  auto.
Qed.

Lemma store_ok_log id v h : store_ok h -> store_ok (log id v h).
Proof. intros H. exact H. Qed.

Lemma untouched_refl h : untouched h h.
Proof. split; auto. Qed.

Lemma untouched_trans h1 h2 h3 : untouched h1 h2 -> untouched h2 h3 -> untouched h1 h3.
Proof.
  intros [H1 H2] [H3 H4]. split; intros x Hx.
  - by rewrite H3, H1.
  - by rewrite H4, H2.
Qed.

Lemma untouched_set_promise p P h : ~ protected_p p -> untouched h (set_promise p P h).
Proof.
  intros Hn. split; [|auto]. intros q Hq. simpl.
  apply list_lookup_insert_ne. intros ->. contradiction.
Qed.

Lemma untouched_alloc_promise h : store_ok h -> untouched h (alloc_promise h).
Proof.
  intros (Hp & _). split; [|auto]. intros q Hq. simpl.
  apply lookup_app_l. auto.
Qed.

Lemma untouched_alloc_vars h : store_ok h -> untouched h (alloc_vars h).
Proof.
  intros (_ & Hf & _). split; [auto|]. intros a Ha. simpl.
  apply lookup_app_l. auto.
Qed.

Lemma untouched_set_vars a V h : ~ protected_f a -> untouched h (set_vars a V h).
Proof.
  intros Hn. split; [auto|]. intros b Hb. simpl.
  apply list_lookup_insert_ne. intros ->. contradiction.
Qed.

Lemma grew_refl h : grew h h.
Proof. split; lia. Qed.

Lemma grew_trans h1 h2 h3 : grew h1 h2 -> grew h2 h3 -> grew h1 h3.
Proof. intros [? ?] [? ?]. split; lia. Qed.

Lemma call_ok_mono np nf np' nf' c :
  np <= np' -> nf <= nf' -> call_ok np nf c -> call_ok np' nf' c.
Proof.
  intros Hp Hf. destruct c as [f v| |r this|r]; simpl;
    eauto using loc_ok_mono, resolver_ok_mono.
  - intros [Hfn Hv]. split; [eauto using fn_ok_mono|].
    destruct f; eauto using value_ok_mono.
  - intros [? ?]. eauto using loc_ok_mono, resolver_ok_mono.
Qed.

Lemma cost_pos b f : 1 <= cost b f.
Proof.
  destruct f as [| |[g|] ?|[g|] ?| | | | | | | | | ]; simpl;
    unfold settle_cost; destruct b; lia.
Qed.

Lemma cost_then_n b cb n : cost b (FThenCb cb n) = cost b (FThenCb cb 0).
Proof. by destruct cb. Qed.

Lemma cost_catch_n b cb n : cost b (FCatchCb cb n) = cost b (FCatchCb cb 0).
Proof. by destruct cb. Qed.

Lemma settle_cost_le b : settle_cost b <= 40.
Proof. destruct b; simpl; lia. Qed.

(** *** One level of the interpreter *)

(** [tot k m h Q]: the computation [m] ends from [h], with less than [k]
    more work waiting, in a well-formed store that satisfies [Q]. *)
Definition tot (k : nat) (m : M) (h : Heap) (Q : Heap -> Completion -> Prop) : Prop :=
  exists h' r, m h = Some (h', r) /\ store_ok h' /\ grew h h' /\
    work h' + 1 <= work h + k /\ untouched h h' /\ Q h' r.

Definition returned (c : Call) (h' : Heap) (r : Completion) : Prop :=
  match r with
  | Return w =>
      value_ok (length (promises h')) w /\
      (instanceof_MyPromise w = true -> can_return_promise c = true) /\
      match c with CNew _ => instanceof_MyPromise w = true | _ => True end
  | Throw _ => True
  end.

(** The completion is not a returned promise. *)
Definition no_promise (h' : Heap) (r : Completion) : Prop :=
  match r with Return w => instanceof_MyPromise w = false | Throw _ => True end.

Lemma no_promise_returned c h' r :
  match c with CNew _ => False | _ => True end ->
  no_promise h' r -> returned c h' r.
Proof.
  intros Hc. destruct r as [w|e]; simpl; [|auto]. intros Hw.
  split; [by destruct w|]. split; [congruence|]. by destruct c.
Qed.

Lemma returned_no_promise c h' r :
  can_return_promise c = false -> returned c h' r -> no_promise h' r.
Proof.
  intros Hc. destruct r as [w|e]; simpl; [|auto]. intros (_ & H & _).
  destruct (instanceof_MyPromise w); [|reflexivity].
  rewrite Hc in H. symmetry. by apply H.
Qed.

Lemma tot_done k (m : M) h r (Q : Heap -> Completion -> Prop) :
  m h = Some (h, r) -> store_ok h -> 1 <= k -> Q h r -> tot k m h Q.
Proof.
  intros Hm Hok Hk HQ. exists h, r.
  split; [exact Hm|]. split; [exact Hok|]. split; [apply grew_refl|].
  split; [lia|]. split; [apply untouched_refl|exact HQ].
Qed.

Lemma tot_ret k v h (Q : Heap -> Completion -> Prop) :
  store_ok h -> 1 <= k -> Q h (Return v) -> tot k (ret v) h Q.
Proof. intros. by apply tot_done with (Return v). Qed.

Lemma tot_weaken k k' (m : M) h (Q Q' : Heap -> Completion -> Prop) :
  tot k m h Q -> k <= k' -> (forall h' r, Q h' r -> Q' h' r) -> tot k' m h Q'.
Proof.
  intros (h' & r & Hm & Hok & Hg & Hw & Hu & HQ) Hk HQQ.
  exists h', r. split; [exact Hm|]. split; [exact Hok|]. split; [exact Hg|].
  split; [lia|]. split; [exact Hu|auto].
Qed.

(** The computation starts by an assignment that leads from [h] to
    [ha]. *)
Lemma tot_shift k k' (m m' : M) h ha (Q : Heap -> Completion -> Prop) :
  m h = m' ha -> grew h ha -> untouched h ha ->
  work ha + k' <= work h + k ->
  tot k' m' ha Q -> tot k m h Q.
Proof.
  intros Hm Hg Hu Hw (h' & r & Hm' & Hok & Hg' & Hw' & Hu' & HQ).
  exists h', r. split; [congruence|]. split; [exact Hok|].
  split; [eauto using grew_trans|]. split; [lia|].
  split; [eauto using untouched_trans|exact HQ].
Qed.

Lemma tot_bind k1 k2 (m : M) (f : Value -> M) h
    (Q1 Q : Heap -> Completion -> Prop) :
  tot k1 m h Q1 ->
  (forall h1 v, store_ok h1 -> grew h h1 -> work h1 + 1 <= work h + k1 ->
                Q1 h1 (Return v) -> tot k2 (f v) h1 Q) ->
  (forall h1 e, Q h1 (Throw e)) ->
  tot (k1 + k2) (bind m f) h Q.
Proof.
  intros (h1 & r & Hm & Hok & Hg & Hw & Hu & HQ) Hf Hthrow.
  unfold bind. destruct r as [v|e].
  - destruct (Hf h1 v Hok Hg Hw HQ) as (h2 & r2 & Hm2 & Hok2 & Hg2 & Hw2 & Hu2 & HQ2).
    exists h2, r2. rewrite Hm. split; [exact Hm2|]. split; [exact Hok2|].
    split; [eauto using grew_trans|]. split; [lia|].
    split; [eauto using untouched_trans|exact HQ2].
  - exists h1, (Throw e). rewrite Hm. split; [reflexivity|]. split; [exact Hok|].
    split; [exact Hg|]. split; [lia|]. split; [exact Hu|auto].
Qed.

Lemma tot_try_catch k1 k2 (m : M) (f : Value -> M) h
    (Q1 Q : Heap -> Completion -> Prop) :
  tot k1 m h Q1 ->
  (forall h1 e, store_ok h1 -> grew h h1 -> work h1 + 1 <= work h + k1 ->
                tot k2 (f e) h1 Q) ->
  (forall h1 v, Q1 h1 (Return v) -> Q h1 (Return v)) ->
  tot (k1 + k2) (try_catch m f) h Q.
Proof.
  intros (h1 & r & Hm & Hok & Hg & Hw & Hu & HQ) Hf Hret.
  unfold try_catch. destruct r as [v|e].
  - exists h1, (Return v). rewrite Hm. split; [reflexivity|]. split; [exact Hok|].
    split; [exact Hg|]. split; [lia|]. split; [exact Hu|auto].
  - destruct (Hf h1 e Hok Hg Hw) as (h2 & r2 & Hm2 & Hok2 & Hg2 & Hw2 & Hu2 & HQ2).
    exists h2, r2. rewrite Hm. split; [exact Hm2|]. split; [exact Hok2|].
    split; [eauto using grew_trans|]. split; [lia|].
    split; [eauto using untouched_trans|exact HQ2].
Qed.

(** *** The three assignments to a promise *)

Lemma store_ok_lookup h p P :
  store_ok h -> promises h !! p = Some P -> ~ protected_p p ->
  instanceof_MyPromise (value P) = false /\
  Forall (fn_ok (length (promises h)) (length (frames h))) (thenCbs P) /\
  Forall (fn_ok (length (promises h)) (length (frames h))) (catchCbs P).
Proof.
  intros (_ & _ & Hall) HP Hn. destruct (Hall p P HP) as [Hv Hcb].
  destruct (Hcb Hn). auto.
Qed.

Lemma grew_set_promise p P h : grew h (set_promise p P h).
Proof. unfold grew. rewrite length_set_promise. simpl. lia. Qed.

Lemma settle_step s this P v h :
  store_ok h -> promises h !! this = Some P -> ~ protected_p this ->
  instanceof_MyPromise v = false ->
  store_ok (set_promise this (settled s v P) h) /\
  grew h (set_promise this (settled s v P) h) /\
  untouched h (set_promise this (settled s v P) h) /\
  work (set_promise this (settled s v P) h) = work h.
Proof.
  intros Hok HP Hn Hv.
  destruct (store_ok_lookup h this P Hok HP Hn) as (_ & Ht & Hc).
  split; [apply store_ok_set_promise; eauto using lookup_lt_Some|].
  split; [apply grew_set_promise|].
  split; [by apply untouched_set_promise|].
  pose proof (work_set_promise this P (settled s v P) h HP) as Hw.
  unfold waiting in Hw. simpl in Hw. lia.
Qed.

Lemma pop_step q this P cb rest h :
  store_ok h -> promises h !! this = Some P -> ~ protected_p this ->
  queue q P = cb :: rest ->
  store_ok (set_promise this (with_queue q rest P) h) /\
  grew h (set_promise this (with_queue q rest P) h) /\
  untouched h (set_promise this (with_queue q rest P) h) /\
  work (set_promise this (with_queue q rest P) h) + cost false cb = work h /\
  fn_ok (length (promises h)) (length (frames h)) cb.
Proof.
  intros Hok HP Hn HQ.
  destruct (store_ok_lookup h this P Hok HP Hn) as (Hv & Ht & Hc).
  pose proof (work_set_promise this P (with_queue q rest P) h HP) as Hw.
  destruct q; simpl in HQ; rewrite HQ in *.
  - apply Forall_cons in Ht as [Hcb Ht].
    split; [apply store_ok_set_promise; eauto using lookup_lt_Some|].
    split; [apply grew_set_promise|].
    split; [by apply untouched_set_promise|].
    split; [|exact Hcb].
    unfold waiting, with_queue in *. simpl in Hw. rewrite HQ in Hw.
    simpl in Hw. lia.
  - apply Forall_cons in Hc as [Hcb Hc].
    split; [apply store_ok_set_promise; eauto using lookup_lt_Some|].
    split; [apply grew_set_promise|].
    split; [by apply untouched_set_promise|].
    split; [|exact Hcb].
    unfold waiting, with_queue in *. simpl in Hw. rewrite HQ in Hw.
    simpl in Hw. lia.
Qed.

Lemma push_step p P thenCb catchCb n h :
  store_ok h -> promises h !! p = Some P -> ~ protected_p p ->
  loc_ok (length (promises h)) n ->
  opt_ok (length (promises h)) (length (frames h)) thenCb ->
  opt_ok (length (promises h)) (length (frames h)) catchCb ->
  store_ok (set_promise p (pushed thenCb catchCb n P) h) /\
  grew h (set_promise p (pushed thenCb catchCb n P) h) /\
  untouched h (set_promise p (pushed thenCb catchCb n P) h) /\
  work (set_promise p (pushed thenCb catchCb n P) h)
    = work h + cost false (FThenCb thenCb 0) + cost false (FCatchCb catchCb 0).
Proof.
  intros Hok HP Hn Hnn Ht Hc.
  destruct (store_ok_lookup h p P Hok HP Hn) as (Hv & Hts & Hcs).
  split; [apply store_ok_set_promise; eauto using lookup_lt_Some;
          simpl; apply Forall_cons; split; auto; split; auto|].
  split; [apply grew_set_promise|].
  split; [by apply untouched_set_promise|].
  pose proof (work_set_promise p P (pushed thenCb catchCb n P) h HP) as Hw.
  unfold waiting, pushed in Hw. cbn [thenCbs catchCbs] in Hw.
  rewrite !queued_cons in Hw.
  rewrite (cost_then_n false thenCb n), (cost_catch_n false catchCb n) in Hw.
  unfold pushed. lia.
Qed.

Section Step.

Variable rec : Call -> M.
Variable N : nat.

Hypothesis Hrec : forall c h,
  store_ok h -> call_ok (length (promises h)) (length (frames h)) c ->
  work h + call_cost c <= N ->
  exists h' r, rec c h = Some (h', r) /\ ends protected_p protected_f c h h' r.

Lemma tot_rec c h :
  store_ok h -> call_ok (length (promises h)) (length (frames h)) c ->
  work h + call_cost c <= N ->
  tot (call_cost c) (rec c) h (returned c).
Proof.
  intros Hok Hc Hw. destruct (Hrec c h Hok Hc Hw) as (h' & r & Hm & He).
  destruct He as (? & ? & ? & ? & ?). exists h', r. auto 10.
Qed.

(** A call whose completion is dropped. *)
Lemma tot_rec_drop c h k :
  store_ok h -> call_ok (length (promises h)) (length (frames h)) c ->
  work h + call_cost c <= N -> call_cost c + 1 <= k ->
  tot k (rec c;; ret VUndefined) h no_promise.
Proof.
  intros Hok Hc Hw Hk.
  apply tot_weaken with (call_cost c + 1) no_promise; [|exact Hk|auto].
  apply tot_bind with (returned c); [by apply tot_rec| |intros; exact Logic.I].
  intros h1 v Hok1 _ _ _. by apply tot_ret.
Qed.

Lemma step_onSuccess this v h :
  store_ok h -> loc_ok (length (promises h)) this ->
  value_ok (length (promises h)) v ->
  work h + settle_cost (instanceof_MyPromise v) <= S N ->
  tot (settle_cost (instanceof_MyPromise v)) (onSuccess rec this v) h no_promise.
Proof.
  intros Hok [Hlt Hn] Hv Hw.
  destruct (lookup_lt_is_Some_2 _ _ Hlt) as [P HP].
  assert (Hk : 1 <= settle_cost (instanceof_MyPromise v))
    by (destruct v; simpl; lia).
  assert (Hdone : state P <> PENDING ->
            tot (settle_cost (instanceof_MyPromise v)) (onSuccess rec this v) h no_promise).
  { intros Hne. apply tot_done with (Return VUndefined);
      [unfold onSuccess; rewrite HP; destruct (state P); congruence
      |exact Hok|exact Hk|reflexivity]. }
  destruct (state P) eqn:Hs; try (apply Hdone; discriminate).
  clear Hdone. destruct (instanceof_MyPromise v) eqn:Hi.
  - destruct v as [| | | |q| | | | |]; try discriminate.
    apply tot_shift with 27 (rec (then_ q (Some (FOnSuccess this)) (Some (FOnFailed this)));;
                             ret VUndefined) h;
      [unfold onSuccess; rewrite HP, Hs; reflexivity
      |apply grew_refl|apply untouched_refl|simpl; lia|].
    apply tot_rec_drop; [exact Hok| |simpl in *; lia|simpl; lia].
    simpl. split; [exact Hv|]. split; split; auto.
  - destruct (settle_step FULFILLED this P v h Hok HP Hn Hi) as (Hok' & Hg & Hu & Hwk).
    apply tot_shift with 1 (rec (CRunCallbacks this QThen))
            (set_promise this (settled FULFILLED v P) h);
      [unfold onSuccess; rewrite HP, Hs; by destruct v
      |exact Hg|exact Hu|simpl; lia|].
    apply tot_weaken with 1 (returned (CRunCallbacks this QThen)); [|lia|].
    + apply (tot_rec (CRunCallbacks this QThen)); [exact Hok'| |simpl in *; lia].
      simpl. rewrite length_insert. by split.
    + intros h' r. by apply returned_no_promise.
Qed.

Lemma step_onFailed this e h :
  store_ok h -> loc_ok (length (promises h)) this ->
  work h + 2 <= S N ->
  tot 2 (onFailed rec this e) h no_promise.
Proof.
  intros Hok [Hlt Hn] Hw.
  destruct (lookup_lt_is_Some_2 _ _ Hlt) as [P HP].
  assert (Hdone : state P <> PENDING -> tot 2 (onFailed rec this e) h no_promise).
  { intros Hne. apply tot_done with (Return VUndefined);
      [unfold onFailed; rewrite HP; destruct (state P); congruence
      |exact Hok|lia|reflexivity]. }
  destruct (state P) eqn:Hs; try (apply Hdone; discriminate).
  clear Hdone. destruct (instanceof_MyPromise e) eqn:Hi.
  - destruct e as [| | | |q| | | | |]; try discriminate.
    apply tot_done with (Throw (VReferenceError "value"));
      [unfold onFailed; rewrite HP, Hs; reflexivity|exact Hok|lia|exact Logic.I].
  - destruct (settle_step REJECTED this P e h Hok HP Hn Hi) as (Hok' & Hg & Hu & Hwk).
    destruct (catchCbs P) as [|cb rest] eqn:Hc.
    + exists (set_promise this (settled REJECTED e P) h),
        (Throw (UncaughtPromiseError (VStr "Unhandle catch"))).
      split; [unfold onFailed; rewrite HP, Hs, Hc; by destruct e|].
      split; [exact Hok'|]. split; [exact Hg|]. split; [lia|].
      split; [exact Hu|exact Logic.I].
    + apply tot_shift with 1 (rec (CRunCallbacks this QCatch))
              (set_promise this (settled REJECTED e P) h);
        [unfold onFailed; rewrite HP, Hs, Hc; by destruct e
        |exact Hg|exact Hu|simpl; lia|].
      apply tot_weaken with 1 (returned (CRunCallbacks this QCatch)); [|lia|].
      * apply (tot_rec (CRunCallbacks this QCatch)); [exact Hok'| |simpl in *; lia].
        simpl. rewrite length_insert. by split.
      * intros h' r. by apply returned_no_promise.
Qed.

Lemma step_entry (fulfil : bool) n v h k :
  store_ok h -> loc_ok (length (promises h)) n ->
  (fulfil = true -> value_ok (length (promises h)) v) ->
  work h + call_cost (CApply (if fulfil then FOnSuccess n else FOnFailed n) v) <= N ->
  call_cost (CApply (if fulfil then FOnSuccess n else FOnFailed n) v) + 1 <= k ->
  tot k (call rec (if fulfil then FOnSuccess n else FOnFailed n) v;; ret VUndefined)
    h no_promise.
Proof.
  intros Hok Hn Hv Hw Hk. apply tot_rec_drop; auto.
  destruct fulfil; simpl; auto.
Qed.

Lemma step_runCallbacks this q h :
  store_ok h -> loc_ok (length (promises h)) this ->
  work h + 1 <= S N ->
  tot 1 (runCallbacks rec this q) h no_promise.
Proof.
  intros Hok [Hlt Hn] Hw.
  destruct (lookup_lt_is_Some_2 _ _ Hlt) as [P HP].
  destruct (queue q P) as [|cb rest] eqn:HQ.
  - apply tot_done with (Return VUndefined);
      [unfold runCallbacks; by rewrite HP, HQ|exact Hok|lia|reflexivity].
  - destruct (pop_step q this P cb rest h Hok HP Hn HQ) as (Hok' & Hg & Hu & Hwk & Hcb).
    destruct (store_ok_lookup h this P Hok HP Hn) as (Hv & _).
    apply tot_shift with (cost false cb + 1)
            (call rec cb (value P);; rec (CRunCallbacks this q))
            (set_promise this (with_queue q rest P) h);
      [unfold runCallbacks; by rewrite HP, HQ|exact Hg|exact Hu|lia|].
    apply tot_bind with (returned (CApply cb (value P))).
    + replace (cost false cb) with (call_cost (CApply cb (value P)))
        by (simpl; by rewrite Hv).
      apply tot_rec; [exact Hok'| |simpl; rewrite Hv; lia].
      simpl. rewrite length_insert. split; [exact Hcb|].
      destruct cb; auto; by destruct (value P).
    + intros h1 w Hok1 Hg1 Hw1 _.
      apply tot_weaken with 1 (returned (CRunCallbacks this q)); [|lia|].
      * apply (tot_rec (CRunCallbacks this q)); [exact Hok1| |simpl in *; lia].
        simpl. destruct Hg1 as [Hg1 _]. rewrite length_set_promise in Hg1.
        split; [lia|exact Hn].
      * intros h' r. by apply returned_no_promise.
    + intros; exact Logic.I.
Qed.

Lemma step_wrapped (f : Fn) n v h :
  store_ok h -> fn_ok (length (promises h)) (length (frames h)) f ->
  match f with FOnFailed _ => True | _ => value_ok (length (promises h)) v end ->
  loc_ok (length (promises h)) n ->
  work h + cost (instanceof_MyPromise v) f
    + settle_cost (returns_promise (instanceof_MyPromise v) f) + 6 <= S N ->
  tot (cost (instanceof_MyPromise v) f
       + settle_cost (returns_promise (instanceof_MyPromise v) f) + 6)
    (try_catch
       (let* r := call rec f v in call rec (FOnSuccess n) r;; ret VUndefined)
       (fun e => call rec (FOnFailed n) e;; ret VUndefined))
    h no_promise.
Proof.
  intros Hok Hf Hv Hn Hw.
  set (b := instanceof_MyPromise v) in *.
  apply tot_weaken with ((cost b f + (settle_cost (returns_promise b f) + 1)) + 3)
          no_promise; [|lia|auto].
  apply tot_try_catch with no_promise; [| |auto].
  - apply tot_bind with (returned (CApply f v)).
    + apply (tot_rec (CApply f v)); [exact Hok|by split|simpl; fold b; lia].
    + intros h1 w Hok1 Hg1 Hw1 (Hwok & Hwp & _).
      assert (Hsc : settle_cost (instanceof_MyPromise w)
                    <= settle_cost (returns_promise b f)).
      { destruct (instanceof_MyPromise w) eqn:Hi; [|destruct (returns_promise b f); simpl; lia].
        simpl in Hwp. fold b in Hwp. rewrite (Hwp eq_refl). lia. }
      apply (step_entry true n w h1); auto.
      * destruct Hg1. eapply loc_ok_mono; eauto.
      * simpl. lia.
      * simpl. lia.
    + intros; exact Logic.I.
  - intros h1 e Hok1 Hg1 Hw1.
    apply (step_entry false n e h1); auto.
    + destruct Hg1. eapply loc_ok_mono; eauto.
    + discriminate.
    + simpl. lia.
Qed.

Lemma step_record vars index promiseArray outer entry h :
  store_ok h -> frame_ok (length (frames h)) vars ->
  loc_ok (length (promises h)) outer ->
  work h + 4 <= S N ->
  tot 4 (allSettled_record rec vars index promiseArray outer entry) h no_promise.
Proof.
  intros Hok [Hlt Hnf] Ho Hw.
  destruct (lookup_lt_is_Some_2 _ _ Hlt) as [V HV].
  set (ha := set_vars vars
               (mkVars (array_set (results V) index entry) (resultCount V)) h).
  assert (Hoka : store_ok ha) by by apply store_ok_set_vars.
  assert (Hua : untouched h ha) by by apply untouched_set_vars.
  assert (Hga : grew h ha) by (unfold grew, ha; simpl; rewrite length_insert; lia).
  destruct (decide (resultCount V = length promiseArray)) as [Hd|Hd].
  - apply tot_shift with 3 (call rec (FOnSuccess outer) (VArray vars);; ret VUndefined) ha;
      [|exact Hga|exact Hua|change (work ha) with (work h); lia|].
    + unfold allSettled_record. rewrite HV. by rewrite decide_True.
    + apply (step_entry true outer (VArray vars) ha);
        [exact Hoka|exact Ho|intros; exact Logic.I
        |change (work ha) with (work h); simpl; lia|simpl; lia].
  - exists ha, (Return VUndefined).
    split; [unfold allSettled_record; rewrite HV; by rewrite decide_False|].
    split; [exact Hoka|]. split; [exact Hga|].
    split; [change (work ha) with (work h); lia|].
    split; [exact Hua|reflexivity].
Qed.

Lemma step_all_then vars index promiseArray outer v h :
  store_ok h -> frame_ok (length (frames h)) vars ->
  loc_ok (length (promises h)) outer ->
  work h + 4 <= S N ->
  tot 4 (all_then rec vars index promiseArray outer v) h no_promise.
Proof.
  intros Hok [Hlt Hnf] Ho Hw.
  destruct (lookup_lt_is_Some_2 _ _ Hlt) as [V HV].
  set (ha := set_vars vars
               (mkVars (array_set (results V) index v) (resultCount V + 1)) h).
  assert (Hoka : store_ok ha) by by apply store_ok_set_vars.
  assert (Hua : untouched h ha) by by apply untouched_set_vars.
  assert (Hga : grew h ha) by (unfold grew, ha; simpl; rewrite length_insert; lia).
  destruct (decide (resultCount V + 1 = length promiseArray)) as [Hd|Hd].
  - apply tot_shift with 3 (call rec (FOnSuccess outer) (VArray vars);; ret VUndefined) ha;
      [|exact Hga|exact Hua|change (work ha) with (work h); lia|].
    + unfold all_then. rewrite HV. simpl. by rewrite decide_True.
    + apply (step_entry true outer (VArray vars) ha);
        [exact Hoka|exact Ho|intros; exact Logic.I
        |change (work ha) with (work h); simpl; lia|simpl; lia].
  - exists ha, (Return VUndefined).
    split; [unfold all_then; rewrite HV; simpl; by rewrite decide_False|].
    split; [exact Hoka|]. split; [exact Hga|].
    split; [change (work ha) with (work h); lia|].
    split; [exact Hua|reflexivity].
Qed.

Lemma step_any_catch vars index promiseArray outer e h :
  store_ok h -> frame_ok (length (frames h)) vars ->
  tot 1 (any_catch vars index promiseArray outer e) h no_promise.
Proof.
  intros Hok [Hlt Hnf].
  destruct (lookup_lt_is_Some_2 _ _ Hlt) as [V HV].
  eexists _, _. split; [unfold any_catch; rewrite HV; reflexivity|].
  split; [by apply store_ok_set_vars|].
  split; [unfold grew; simpl; rewrite length_insert; lia|].
  split; [rewrite work_set_vars; lia|].
  split; [by apply untouched_set_vars|exact Logic.I].
Qed.

Lemma step_apply f v h :
  store_ok h -> call_ok (length (promises h)) (length (frames h)) (CApply f v) ->
  work h + call_cost (CApply f v) <= S N ->
  tot (call_cost (CApply f v)) (apply rec f v) h (returned (CApply f v)).
Proof.
  intros Hok [Hf Hv] Hw. simpl in Hw |- *.
  assert (Hnp : forall Q : Heap -> Completion -> Prop,
            (forall h' r, Q h' r -> no_promise h' r) ->
            forall h' r, Q h' r -> returned (CApply f v) h' r).
  { intros Q HQ h' r Hr. apply no_promise_returned; auto. }
  destruct f as [this|this|[g|] n|[g|] n|cb|cb|vars index ps outer|outer
                |vars index ps outer|vars index ps outer|outer
                |vars index ps outer|id body];
    simpl in Hf, Hv, Hw |- *.
  - eapply tot_weaken; [by apply step_onSuccess|lia|by apply Hnp].
  - eapply tot_weaken; [by apply step_onFailed|lia|by apply Hnp].
  - destruct Hf as [Hn Hg].
    eapply tot_weaken;
      [apply (step_wrapped g n v h); [exact Hok|exact Hg|by destruct g|exact Hn|lia]
      |lia|by apply Hnp].
  - eapply tot_weaken;
      [apply (step_entry true n v h (settle_cost (instanceof_MyPromise v) + 2)); simpl; auto; try lia; tauto
      |lia|by apply Hnp].
  - destruct Hf as [Hn Hg].
    eapply tot_weaken;
      [apply (step_wrapped g n v h); [exact Hok|exact Hg|by destruct g|exact Hn|lia]
      |lia|by apply Hnp].
  - eapply tot_weaken;
      [apply (step_entry false n v h 4); simpl; auto; try lia; try tauto; discriminate
      |lia|by apply Hnp].
  - apply tot_bind with (returned (CApply cb VUndefined)).
    + apply (tot_rec (CApply cb VUndefined)); [exact Hok| |simpl; lia].
      split; [exact Hf|]. by destruct cb.
    + intros h1 w Hok1 [Hg1 _] _ _. apply tot_ret; [exact Hok1|lia|].
      simpl. split; [eapply value_ok_mono; eauto|]. split; [|exact Logic.I].
      intros Hi. exact Hi.
    + intros; exact Logic.I.
  - apply tot_bind with (returned (CApply cb VUndefined)).
    + apply (tot_rec (CApply cb VUndefined)); [exact Hok| |simpl; lia].
      split; [exact Hf|]. by destruct cb.
    + intros h1 w Hok1 _ _ _.
      apply tot_done with (Throw v); [reflexivity|exact Hok1|lia|exact Logic.I].
    + intros; exact Logic.I.
  - destruct Hf as [Hvars Ho].
    eapply tot_weaken; [by apply step_all_then|lia|by apply Hnp].
  - eapply tot_weaken;
      [apply (step_entry false outer v h 4); simpl; auto; try lia; discriminate
      |lia|by apply Hnp].
  - destruct Hf as [Hvars Ho].
    eapply tot_weaken; [by apply step_record|lia|by apply Hnp].
  - destruct Hf as [Hvars Ho].
    eapply tot_weaken; [by apply step_record|lia|by apply Hnp].
  - eapply tot_weaken;
      [apply (step_entry true outer v h (settle_cost (instanceof_MyPromise v) + 2)); simpl; auto; lia
      |lia|by apply Hnp].
  - destruct Hf as [Hvars Ho].
    eapply tot_weaken; [by apply step_any_catch|lia|by apply Hnp].
  - exists (log id v h), (body v). split; [reflexivity|].
    split; [by apply store_ok_log|]. split; [unfold grew; simpl; lia|].
    split; [rewrite work_log; lia|]. split; [split; auto|].
    destruct (body v) as [w|e] eqn:Hb; simpl; [|exact Logic.I].
    split; [by apply (Hf v)|]. auto.
Qed.

Lemma then_call_cost p thenCb catchCb :
  call_cost (then_ p thenCb catchCb) = then_cost thenCb catchCb.
Proof. unfold then_. simpl. unfold then_cost. lia. Qed.

Lemma step_then_catch promise onThen onCatch h :
  store_ok h -> loc_ok (length (promises h)) promise ->
  fn_ok (length (promises h)) (length (frames h)) onThen ->
  fn_ok (length (promises h)) (length (frames h)) onCatch ->
  work h + loop_cost onThen onCatch <= N ->
  tot (loop_cost onThen onCatch)
    (then_catch rec promise onThen onCatch) h (fun _ _ => True).
Proof.
  intros Hok Hp Ht Hc Hw. unfold then_catch, loop_cost in *.
  rewrite <- (then_call_cost promise (Some onThen) None).
  apply tot_bind with (returned (then_ promise (Some onThen) None)).
  - apply tot_rec; [exact Hok|simpl; auto|rewrite then_call_cost; lia].
  - intros h1 t Hok1 [Hg1 Hg2] Hw1 (Hv & _ & Hi).
    simpl in Hi. destruct t as [| | | |n| | | | |]; try discriminate.
    eapply tot_weaken;
      [apply (tot_rec (catch n (Some onCatch)))| |auto].
    + exact Hok1.
    + unfold catch. simpl. split; [exact Hv|]. split; [exact Logic.I|].
      eapply fn_ok_mono; eauto.
    + unfold catch. rewrite !then_call_cost in *. lia.
    + unfold catch. rewrite then_call_cost. lia.
  - auto.
Qed.

Lemma tot_forEach (body : loc -> nat -> M) kb ps : forall index h,
  store_ok h ->
  (forall p j h1, p ∈ ps -> store_ok h1 -> grew h h1 ->
     work h1 + kb <= work h + length ps * kb ->
     tot kb (body p j) h1 (fun _ _ => True)) ->
  tot (length ps * kb + 1) (forEach body ps index) h no_promise.
Proof.
  induction ps as [|p ps IH]; intros index h Hok Hb; simpl.
  - apply tot_ret; [exact Hok|lia|reflexivity].
  - replace (kb + length ps * kb + 1) with (kb + (length ps * kb + 1)) by lia.
    apply tot_bind with (fun _ _ => True).
    + apply Hb; [set_solver|exact Hok|apply grew_refl|simpl; lia].
    + intros h1 v Hok1 Hg1 Hw1 _. apply IH; [exact Hok1|].
      intros q j h2 Hq Hok2 Hg2 Hw2.
      apply Hb; [set_solver|exact Hok2|eauto using grew_trans|simpl; lia].
    + intros; exact Logic.I.
Qed.

Lemma step_user_resolver body fin this : forall h,
  store_ok h -> loc_ok (length (promises h)) this ->
  Forall (action_ok protected_p (length (promises h))) body ->
  work h + (length body * 40 + 1) <= N ->
  tot (length body * 40 + 1) (user_resolver rec body fin this) h no_promise.
Proof.
  induction body as [|a body IH]; intros h Hok Hn Hb Hw.
  - eexists _, _. split; [reflexivity|]. split; [exact Hok|].
    split; [apply grew_refl|]. split; [lia|]. split; [apply untouched_refl|].
    by destruct fin.
  - apply Forall_cons in Hb as [Ha Hb].
    change (length (a :: body)) with (S (length body)) in *.
    replace (S (length body) * 40 + 1) with (40 + (length body * 40 + 1)) in * by lia.
    assert (Hrest : forall h1, store_ok h1 -> grew h h1 ->
              work h1 + 1 <= work h + 40 ->
              tot (length body * 40 + 1) (user_resolver rec body fin this) h1 no_promise).
    { intros h1 Hok1 [Hg1 Hg2] Hw1. apply IH; auto.
      - eapply loc_ok_mono; eauto.
      - eapply Forall_impl; [exact Hb|]. intros x. destruct x; simpl; auto.
        eapply value_ok_mono; eauto.
      - lia. }
    destruct a as [v|e]; cbn [user_resolver].
    + apply tot_bind with (returned (CApply (FOnSuccess this) v)).
      * eapply tot_weaken;
          [apply (tot_rec (CApply (FOnSuccess this) v))
          |apply (settle_cost_le (instanceof_MyPromise v))|auto].
        -- exact Hok.
        -- split; [exact Hn|exact Ha].
        -- pose proof (settle_cost_le (instanceof_MyPromise v)).
           change (call_cost (CApply (FOnSuccess this) v))
             with (settle_cost (instanceof_MyPromise v)). lia.
      * intros h1 w Hok1 Hg1 Hw1 _. apply (Hrest h1); auto.
      * intros; exact Logic.I.
    + apply tot_bind with (returned (CApply (FOnFailed this) e)).
      * apply tot_weaken with 2 (returned (CApply (FOnFailed this) e)); [|lia|auto].
        apply (tot_rec (CApply (FOnFailed this) e)).
        -- exact Hok.
        -- split; [exact Hn|exact Logic.I].
        -- change (call_cost (CApply (FOnFailed this) e)) with 2. lia.
      * intros h1 w Hok1 Hg1 Hw1 _. apply (Hrest h1); auto; lia.
      * intros; exact Logic.I.
Qed.

Lemma step_register (onThen onCatch : nat -> Fn) ps kb : forall index h,
  store_ok h -> Forall (loc_ok (length (promises h))) ps ->
  (forall j, fn_ok (length (promises h)) (length (frames h)) (onThen j)) ->
  (forall j, fn_ok (length (promises h)) (length (frames h)) (onCatch j)) ->
  (forall j, loop_cost (onThen j) (onCatch j) = kb) ->
  work h + (length ps * kb + 1) <= N ->
  tot (length ps * kb + 1)
    (forEach (fun promise j => then_catch rec promise (onThen j) (onCatch j)) ps index)
    h no_promise.
Proof.
  intros index h Hok Hps Ht Hc Hk Hw. apply tot_forEach; [exact Hok|].
  intros p j h1 Hp Hok1 [Hg1 Hg2] Hw1. rewrite <- (Hk j).
  rewrite Forall_forall in Hps.
  apply step_then_catch; eauto using loc_ok_mono, fn_ok_mono.
  rewrite (Hk j). lia.
Qed.

Lemma step_then_resolver p thenCb catchCb n h :
  store_ok h -> loc_ok (length (promises h)) p -> loc_ok (length (promises h)) n ->
  opt_ok (length (promises h)) (length (frames h)) thenCb ->
  opt_ok (length (promises h)) (length (frames h)) catchCb ->
  work h + resolver_cost (RThen p thenCb catchCb) <= S N ->
  tot (resolver_cost (RThen p thenCb catchCb))
    (then_resolver rec p thenCb catchCb n) h no_promise.
Proof.
  intros Hok [Hlt Hnp] Hn Ht Hc Hw.
  destruct (lookup_lt_is_Some_2 _ _ Hlt) as [P HP].
  destruct (push_step p P thenCb catchCb n h Hok HP Hnp Hn Ht Hc)
    as (Hok' & Hg & Hu & Hwk).
  set (ha := set_promise p (pushed thenCb catchCb n P) h) in *.
  simpl in Hw |- *. unfold then_cost in Hw |- *.
  assert (Hrun : forall q, tot 1 (rec (CRunCallbacks p q)) ha no_promise).
  { intros q. apply tot_weaken with 1 (returned (CRunCallbacks p q)); [|lia|].
    - apply (tot_rec (CRunCallbacks p q)); [exact Hok'| |simpl; lia].
      unfold ha. simpl. rewrite length_insert. by split.
    - intros h' r. by apply returned_no_promise. }
  assert (Hsh : forall m' : M, then_resolver rec p thenCb catchCb n h = m' ha ->
            tot 1 m' ha no_promise ->
            tot (cost false (FThenCb thenCb 0) + cost false (FCatchCb catchCb 0) + 6 - 4)
              (then_resolver rec p thenCb catchCb n) h no_promise).
  { intros m' Hm Htot. eapply tot_shift; [exact Hm|exact Hg|exact Hu| |exact Htot]. lia. }
  assert (Hstay : tot 1 (fun h1 => Some (h1, Return VUndefined)) ha no_promise).
  { apply tot_done with (Return VUndefined); [reflexivity|exact Hok'|lia|reflexivity]. }
  destruct (state P) eqn:Hs.
  - apply (Hsh (rec (CRunCallbacks p QThen))); [|apply Hrun].
    unfold then_resolver, ha, pushed. rewrite HP, Hs. reflexivity.
  - apply (Hsh (rec (CRunCallbacks p QCatch))); [|apply Hrun].
    unfold then_resolver, ha, pushed. rewrite HP, Hs. reflexivity.
  - apply (Hsh (fun h1 => Some (h1, Return VUndefined))); [|exact Hstay].
    unfold then_resolver, ha, pushed. rewrite HP, Hs. reflexivity.
  - apply (Hsh (fun h1 => Some (h1, Return VUndefined))); [|exact Hstay].
    unfold then_resolver, ha, pushed. rewrite HP, Hs. reflexivity.
Qed.

Lemma fresh_frame_ok h : store_ok h -> frame_ok (S (length (frames h))) (length (frames h)).
Proof. intros (_ & Hf & _). split; [lia|]. intros H. apply Hf in H. lia. Qed.

Lemma fresh_loc_ok h : store_ok h -> loc_ok (S (length (promises h))) (length (promises h)).
Proof. intros (Hp & _). split; [lia|]. intros H. apply Hp in H. lia. Qed.

Lemma step_run_resolver r this h :
  store_ok h -> loc_ok (length (promises h)) this ->
  resolver_ok (length (promises h)) (length (frames h)) r ->
  work h + resolver_cost r <= S N ->
  tot (resolver_cost r) (run_resolver rec r this) h no_promise.
Proof.
  intros Hok Hthis Hr Hw.
  assert (Hga : grew h (alloc_vars h))
    by (unfold grew; simpl; rewrite length_app; simpl; lia).
  assert (Hnf : length (frames (alloc_vars h)) = S (length (frames h)))
    by (simpl; rewrite length_app; simpl; lia).
  destruct r as [p thenCb catchCb|v|e|ps|ps|ps|ps|body fin];
    cbn [resolver_ok] in Hr; cbn [resolver_cost run_resolver] in Hw |- *.
  - destruct Hr as (Hp & Ht & Hc). by apply step_then_resolver.
  - apply (step_entry true this v h); auto; cbn [call_cost cost]; lia.
  - apply (step_entry false this e h); auto; try discriminate;
      cbn [call_cost cost]; lia.
  - pose proof (fresh_frame_ok h Hok) as Hfr.
    apply tot_shift with (length ps * loop_cost (FAllThen 0 0 [] 0) (FAllCatch 0) + 1)
            (forEach (fun promise index =>
                        then_catch rec promise
                          (FAllThen (length (frames h)) index ps this) (FAllCatch this))
                     ps 0)
            (alloc_vars h);
      [reflexivity|exact Hga|by apply untouched_alloc_vars|rewrite work_alloc_vars; lia|].
    apply (step_register (fun index => FAllThen (length (frames h)) index ps this)
             (fun _ => FAllCatch this)).
    + by apply store_ok_alloc_vars.
    + exact Hr.
    + intros j. rewrite Hnf. split; [exact Hfr|exact Hthis].
    + intros j. exact Hthis.
    + reflexivity.
    + rewrite work_alloc_vars. lia.
  - pose proof (fresh_frame_ok h Hok) as Hfr.
    apply tot_shift with
            (length ps * loop_cost (FAllSettledThen 0 0 [] 0) (FAllSettledCatch 0 0 [] 0) + 1)
            (forEach (fun promise index h' =>
                        match frames h' !! length (frames h) with
                        | None => None
                        | Some V =>
                            then_catch rec promise
                              (FAllSettledThen (length (frames h)) index ps this)
                              (FAllSettledCatch (length (frames h)) index ps this)
                              (set_vars (length (frames h))
                                 (mkVars (results V) (resultCount V + 1)) h')
                        end)
                     ps 0)
            (alloc_vars h);
      [reflexivity|exact Hga|by apply untouched_alloc_vars|rewrite work_alloc_vars; lia|].
    apply tot_forEach; [by apply store_ok_alloc_vars|].
    intros p j h1 Hp Hok1 [Hg1 Hg2] Hw1.
    rewrite Hnf in Hg2. simpl in Hg1.
    assert (Hlt : length (frames h) < length (frames h1)) by lia.
    destruct (lookup_lt_is_Some_2 _ _ Hlt) as [V HV].
    destruct Hfr as [_ Hnfr].
    apply tot_shift with
      (loop_cost (FAllSettledThen (length (frames h)) j ps this)
         (FAllSettledCatch (length (frames h)) j ps this))
      (then_catch rec p (FAllSettledThen (length (frames h)) j ps this)
         (FAllSettledCatch (length (frames h)) j ps this))
      (set_vars (length (frames h)) (mkVars (results V) (resultCount V + 1)) h1);
      [by rewrite HV|unfold grew; simpl; rewrite length_insert; lia
      |by apply untouched_set_vars
      |rewrite work_set_vars;
       change (loop_cost (FAllSettledThen (length (frames h)) j ps this)
                 (FAllSettledCatch (length (frames h)) j ps this))
         with (loop_cost (FAllSettledThen 0 0 [] 0) (FAllSettledCatch 0 0 [] 0)); lia|].
    rewrite Forall_forall in Hr.
    apply step_then_catch.
    + by apply store_ok_set_vars.
    + simpl. eapply loc_ok_mono; [|by apply Hr]. lia.
    + simpl. rewrite length_insert. split; [by split|].
      eapply loc_ok_mono; [|exact Hthis]. lia.
    + simpl. rewrite length_insert. split; [by split|].
      eapply loc_ok_mono; [|exact Hthis]. lia.
    + rewrite work_set_vars. rewrite work_alloc_vars in Hw1.
      change (loop_cost (FAllSettledThen (length (frames h)) j ps this)
                (FAllSettledCatch (length (frames h)) j ps this))
        with (loop_cost (FAllSettledThen 0 0 [] 0) (FAllSettledCatch 0 0 [] 0)). lia.
  - eapply tot_weaken;
      [apply (step_register (fun _ => FOnSuccess this) (fun _ => FOnFailed this)
                ps (loop_cost (FOnSuccess 0) (FOnFailed 0)) 0 h); auto; lia
      |lia|auto].
  - pose proof (fresh_frame_ok h Hok) as Hfr.
    apply tot_shift with (length ps * loop_cost (FAnyThen 0) (FAnyCatch 0 0 [] 0) + 1)
            (forEach (fun promise index =>
                        then_catch rec promise (FAnyThen this)
                          (FAnyCatch (length (frames h)) index ps this))
                     ps 0)
            (alloc_vars h);
      [reflexivity|exact Hga|by apply untouched_alloc_vars|rewrite work_alloc_vars; lia|].
    apply (step_register (fun _ => FAnyThen this)
             (fun index => FAnyCatch (length (frames h)) index ps this)).
    + by apply store_ok_alloc_vars.
    + exact Hr.
    + intros j. exact Hthis.
    + intros j. rewrite Hnf. split; [exact Hfr|exact Hthis].
    + reflexivity.
    + rewrite work_alloc_vars. lia.
  - eapply tot_weaken; [apply step_user_resolver; auto; lia|lia|auto].
Qed.

Lemma step_constructor r h :
  store_ok h -> resolver_ok (length (promises h)) (length (frames h)) r ->
  work h + (resolver_cost r + 4) <= S N ->
  tot (resolver_cost r + 4) (constructor rec r) h (returned (CNew r)).
Proof.
  intros Hok Hr Hw.
  pose proof (fresh_loc_ok h Hok) as Hthis.
  set (this := length (promises h)) in *.
  apply tot_shift with (resolver_cost r + 2 + 1)
          (try_catch (rec (CResolver r this)) (fun e => call rec (FOnFailed this) e);;
           ret (VPromise this))
          (alloc_promise h);
    [reflexivity|unfold grew; rewrite length_alloc_promise; simpl; lia
    |by apply untouched_alloc_promise|rewrite work_alloc_promise; lia|].
  assert (Hoka : store_ok (alloc_promise h)) by by apply store_ok_alloc_promise.
  apply tot_bind with (fun _ _ => True).
  - apply tot_try_catch with (returned (CResolver r this)).
    + apply (tot_rec (CResolver r this)); [exact Hoka| |].
      * simpl. rewrite length_app. simpl. rewrite Nat.add_1_r.
        split; [exact Hthis|]. eapply resolver_ok_mono; [| |exact Hr]; lia.
      * rewrite work_alloc_promise. simpl. lia.
    + intros h1 e Hok1 [Hg1 Hg2] Hw1.
      eapply tot_weaken; [apply (tot_rec (CApply (FOnFailed this) e))| |auto].
      * exact Hok1.
      * split; [|exact Logic.I]. simpl.
        rewrite length_alloc_promise in Hg1. eapply loc_ok_mono; [|exact Hthis]. lia.
      * rewrite work_alloc_promise in Hw1. simpl in Hw1 |- *. lia.
      * simpl. lia.
    + auto.
  - intros h1 v Hok1 [Hg1 Hg2] Hw1 _. apply tot_ret; [exact Hok1|lia|].
    simpl. rewrite length_alloc_promise in Hg1.
    split; [eapply loc_ok_mono; [|exact Hthis]; lia|]. auto.
  - intros; exact Logic.I.
Qed.

Lemma step_total c h :
  store_ok h -> call_ok (length (promises h)) (length (frames h)) c ->
  work h + call_cost c <= S N ->
  exists h' r, step rec c h = Some (h', r) /\ ends protected_p protected_f c h h' r.
Proof.
  intros Hok Hc Hw.
  assert (Htot : tot (call_cost c) (step rec c) h (returned c)).
  { destruct c as [f v|this q|r this|r].
    - by apply step_apply.
    - eapply tot_weaken; [by apply step_runCallbacks|simpl; lia|].
      intros h' r. by apply no_promise_returned.
    - destruct Hc as [Hthis Hr].
      eapply tot_weaken; [by apply step_run_resolver|simpl; lia|].
      intros h' r0. by apply no_promise_returned.
    - by apply step_constructor. }
  destruct Htot as (h' & r & Hm & Hok' & Hg & Hwk & Hu & HQ).
  exists h', r. split; [exact Hm|]. split; [exact Hok'|]. split; [exact Hg|].
  split; [exact Hwk|]. split; [exact Hu|exact HQ].
Qed.

End Step.

Lemma call_cost_pos c : 1 <= call_cost c.
Proof.
  destruct c as [f v|this q|r this|r]; simpl; try lia.
  - apply cost_pos.
  - destruct r; simpl; unfold then_cost; lia.
Qed.

(** A call in a well-formed store ends within a budget of the work
    waiting in the store plus its own. *)
Lemma exec_ends N : forall c h,
  store_ok h -> call_ok (length (promises h)) (length (frames h)) c ->
  work h + call_cost c <= N ->
  exists h' r, exec N c h = Some (h', r) /\ ends protected_p protected_f c h h' r.
Proof.
  induction N as [|N IH]; intros c h Hok Hc Hw.
  - pose proof (call_cost_pos c). lia.
  - simpl. by apply (step_total (exec N) N IH).
Qed.

End Total.

(** With nothing protected: a call on promises and variables that exist
    ends, and leaves the store well formed. *)
Lemma call_ends c h :
  well_formed h ->
  call_ok nothing nothing (length (promises h)) (length (frames h)) c ->
  exists h' r, evals c h h' r /\ well_formed h' /\ grew h h'.
Proof.
  intros Hok Hc.
  destruct (exec_ends nothing nothing (work h + call_cost c) c h Hok Hc)
    as (h' & r & Hex & Hok' & Hg & _); [lia|].
  exists h', r. split; [by exists (work h + call_cost c)|]. by split.
Qed.

Lemma entry_call_ok (fulfil : bool) p v h :
  p < length (promises h) -> instanceof_MyPromise v = false ->
  call_ok nothing nothing (length (promises h)) (length (frames h))
    (CApply (if fulfil then FOnSuccess p else FOnFailed p) v).
Proof.
  intros Hp Hv.
  assert (Hl : loc_ok nothing (length (promises h)) p) by (split; [exact Hp|intros []]).
  destruct fulfil; simpl.
  - split; [exact Hl|]. by destruct v.
  - split; [exact Hl|exact Logic.I].
Qed.

(** ** The entry points *)

(** The guard at the head of both entry points. *)
Lemma entry_points_settled fuel h this P payload :
  promises h !! this = Some P ->
  pending P = false ->
  exec (S fuel) (CApply (FOnSuccess this) payload) h = Some (h, Return VUndefined) /\
  exec (S fuel) (CApply (FOnFailed this) payload) h = Some (h, Return VUndefined).
Proof.
  intros HP Hs. apply pending_false in Hs. simpl. unfold onSuccess, onFailed.
  rewrite HP. destruct (state P); try contradiction; auto.
Qed.

(** The reject entry point on a pending promise that has no rejection
    callback. *)
Lemma exec_onFailed_unhandled fuel h this P e :
  promises h !! this = Some P ->
  pending P = true ->
  catchCbs P = [] ->
  instanceof_MyPromise e = false ->
  exec (S fuel) (CApply (FOnFailed this) e) h
    = Some (set_promise this (mkPromise REJECTED e (thenCbs P) []) h,
            Throw (UncaughtPromiseError (VStr "Unhandle catch"))).
Proof.
  intros HP Hs Hc He. apply pending_true in Hs. simpl. unfold onFailed.
  rewrite HP, Hs, Hc. unfold settled. rewrite Hc.
  destruct e; try discriminate; reflexivity.
Qed.

(** The first call of an entry point on a pending promise with a payload
    that is not a promise settles it, and it stays so whatever the
    callbacks run by that call do. *)
Lemma first_call_settles fuel h this P v h' r :
  promises h !! this = Some P -> pending P = true ->
  instanceof_MyPromise v = false ->
  (exec fuel (CApply (FOnSuccess this) v) h = Some (h', r) ->
   exists P', promises h' !! this = Some P' /\ state P' = FULFILLED /\ value P' = v) /\
  (exec fuel (CApply (FOnFailed this) v) h = Some (h', r) ->
   exists P', promises h' !! this = Some P' /\ state P' = REJECTED /\ value P' = v).
Proof.
  intros HP Hs Hv. apply pending_true in Hs.
  assert (Hlt : this < length (promises h)) by eauto using lookup_lt_Some.
  destruct fuel as [|fuel]; [split; discriminate|]. simpl.
  unfold onSuccess, onFailed. rewrite HP, Hs. split.
  - intros H.
    assert (H' : exec fuel (CRunCallbacks this QThen)
                   (set_promise this (settled FULFILLED v P) h) = Some (h', r))
      by (destruct v; try discriminate; exact H).
    apply settled_forever in H'.
    apply (H' this (settled FULFILLED v P)); [|reflexivity].
    by apply lookup_set_promise_eq.
  - intros H.
    assert (H' : same_settlement (set_promise this (settled REJECTED v P) h) h').
    { destruct v; try discriminate;
        (destruct (catchCbs P);
         [injection H as <- _; apply same_settlement_refl
         |eapply settled_forever; exact H]). }
    apply (H' this (settled REJECTED v P)); [|reflexivity].
    by apply lookup_set_promise_eq.
Qed.

(** C1 as stated fails: a first call of the fulfil entry point whose
    payload is a promise leaves [F] pending, since it only registers [F]'s
    entry points on the payload; the second call of the pair, made while
    [F] is still pending, settles it. *)
Lemma settle_once_counterexample :
  exists h1,
    exec 20 (CApply (FOnSuccess 0) (VPromise 1)) two_pending
      = Some (h1, Return VUndefined) /\
    settlements h1 !! 0 = Some (PENDING, VUndefined) /\
    option_map (fun x => settlements (fst x) !! 0)
      (exec 20 (CApply (FOnSuccess 0) (VNum 5)) h1)
      = Some (Some (FULFILLED, VNum 5)).
Proof.
  eexists. split; [vm_compute; reflexivity|].
  split; vm_compute; reflexivity.
Qed.

(** C1, amended.  Once the promise has left the pending state, a call of
    either entry point, with any payload, returns at once: the whole store
    (state, value and both callback arrays of every promise, and the record
    of handler invocations) is the one before the call, and no nested call
    is made (a budget of one call suffices).  And when the promise is
    pending, in a well-formed store, a first call with a payload that is
    not a promise ends and settles it with that payload, whatever the
    callbacks it runs do, so that every second call is such a call without
    effect. *)
Theorem settle_once fuel h this P payload :
  promises h !! this = Some P ->
  (pending P = false ->
   exec (S fuel) (CApply (FOnSuccess this) payload) h = Some (h, Return VUndefined) /\
   exec (S fuel) (CApply (FOnFailed this) payload) h = Some (h, Return VUndefined)) /\
  (pending P = true -> instanceof_MyPromise payload = false -> well_formed h ->
   forall fulfil : bool,
     (exists h1 r, evals (settle_call fulfil this payload) h h1 r) /\
     forall fuel1 h1 r,
       exec fuel1 (settle_call fulfil this payload) h = Some (h1, r) ->
       settlements h1 !! this = Some (settled_state fulfil, payload) /\
       forall payload2,
         exec (S fuel) (CApply (FOnSuccess this) payload2) h1
           = Some (h1, Return VUndefined) /\
         exec (S fuel) (CApply (FOnFailed this) payload2) h1
           = Some (h1, Return VUndefined)).
Proof.
  intros HP. split.
  - intros Hs. by apply (entry_points_settled fuel h this P).
  - intros Hs Hv Hwf fulfil. split.
    + destruct (call_ends (settle_call fulfil this payload) h Hwf)
        as (h1 & r & Hev & _).
      { apply entry_call_ok; eauto using lookup_lt_Some. }
      eauto.
    + intros fuel1 h1 r Hfirst.
      assert (Hset : exists P1, promises h1 !! this = Some P1 /\
                       state P1 = settled_state fulfil /\ value P1 = payload).
      { destruct (first_call_settles fuel1 h this P payload h1 r HP Hs Hv) as [Hf Hr].
        destruct fulfil; auto. }
      destruct Hset as (P1 & HP1 & Hs1 & Hv1). split.
      * rewrite settlements_lookup, HP1. simpl. by rewrite Hs1, Hv1.
      * intros payload2.
        apply (entry_points_settled fuel h1 this P1); [exact HP1|].
        unfold pending. rewrite Hs1. by destruct fulfil.
Qed.

Lemma settle_once_witness :
  (exec 1 (CApply (FOnSuccess 0) (VNum 7)) one_fulfilled
     = Some (one_fulfilled, Return VUndefined) /\
   exec 1 (CApply (FOnFailed 0) (VNum 7)) one_fulfilled
     = Some (one_fulfilled, Return VUndefined)) /\
  (let h1 := set_promise 0 (mkPromise FULFILLED (VNum 7) [] []) one_pending in
   exec 2 (CApply (FOnSuccess 0) (VNum 7)) one_pending = Some (h1, Return VUndefined) /\
   settlements h1 !! 0 = Some (FULFILLED, VNum 7) /\
   exec 1 (CApply (FOnFailed 0) (VStr "late")) h1 = Some (h1, Return VUndefined)).
Proof.
  split.
  - apply (proj1 (settle_once 0 one_fulfilled 0 _ (VNum 7) eq_refl)). reflexivity.
  - assert (Hwf : well_formed one_pending).
    { split; [intros p []|]. split; [intros a []|].
      intros [|p] P HP; [|discriminate]. injection HP as <-.
      split; [reflexivity|]. intros _. split; constructor. }
    destruct (proj2 (settle_once 0 one_pending 0 _ (VNum 7) eq_refl)
                eq_refl eq_refl Hwf true) as [_ H].
    destruct (H 2 _ _ eq_refl) as [Hs Hno].
    split; [reflexivity|]. split; [exact Hs|]. apply (Hno (VStr "late")).
Defined.

(** C3.  The reject entry point of a pending promise, called with a
    promise as payload, throws a ReferenceError for the name [value] and
    changes nothing: the payload is neither stored nor adopted. *)
Theorem reject_with_promise_throws fuel h this P G :
  promises h !! this = Some P ->
  pending P = true ->
  exec (S fuel) (CApply (FOnFailed this) (VPromise G)) h
    = Some (h, Throw (VReferenceError "value")).
Proof.
  intros HP Hs. apply pending_true in Hs. simpl. unfold onFailed.
  by rewrite HP, Hs.
Qed.

Lemma reject_with_promise_throws_witness :
  exec 1 (CApply (FOnFailed 0) (VPromise 0)) one_pending
    = Some (one_pending, Throw (VReferenceError "value")).
Proof.
  apply (reject_with_promise_throws 0 one_pending 0 fresh_promise 0);
    reflexivity.
Defined.

(** C9 as stated fails: rejecting a pending promise that has no rejection
    callback with the number 1 throws an error whose message is not 1. *)
Lemma unhandled_rejection_counterexample :
  exec 1 (CApply (FOnFailed 0) (VNum 1)) one_pending
    = Some (mkHeap [mkPromise REJECTED (VNum 1) [] []] [] [],
            Throw (UncaughtPromiseError (VStr "Unhandle catch"))) /\
  UncaughtPromiseError (VStr "Unhandle catch") <> UncaughtPromiseError (VNum 1).
Proof. split; [reflexivity|discriminate]. Qed.

(** C9, amended.  Rejecting a pending promise that has no rejection
    callback with an error [e] that is not a promise stores [e] as the
    promise's value, sets it to REJECTED and throws an
    UncaughtPromiseError whose message is the fixed text
    ["Unhandle catch"]. *)
Theorem unhandled_rejection fuel h this P e :
  promises h !! this = Some P ->
  pending P = true ->
  catchCbs P = [] ->
  instanceof_MyPromise e = false ->
  exec (S fuel) (CApply (FOnFailed this) e) h
    = Some (set_promise this (mkPromise REJECTED e (thenCbs P) []) h,
            Throw (UncaughtPromiseError (VStr "Unhandle catch"))).
Proof.
  intros HP Hs Hc He. apply pending_true in Hs. simpl. unfold onFailed.
  rewrite HP, Hs, Hc. unfold settled. rewrite Hc.
  destruct e; try discriminate; reflexivity.
Qed.

Lemma unhandled_rejection_witness :
  exec 1 (CApply (FOnFailed 0) (VStr "boom")) one_pending
    = Some (set_promise 0 (mkPromise REJECTED (VStr "boom") [] []) one_pending,
            Throw (UncaughtPromiseError (VStr "Unhandle catch"))).
Proof.
  apply (unhandled_rejection 0 one_pending 0 fresh_promise (VStr "boom"));
    reflexivity.
Defined.

(** ** The constructor *)

(** C2 as stated fails: [new MyPromise(() => { throw 1 })] does not return;
    the constructor throws an UncaughtPromiseError. *)
Lemma constructor_counterexample :
  exec 3 (CNew (RUser [] (Throw (VNum 1)))) empty_heap
    = Some (mkHeap [mkPromise REJECTED (VNum 1) [] []] [] [],
            Throw (UncaughtPromiseError (VStr "Unhandle catch"))).
Proof. reflexivity. Qed.

(** C2, amended.  When the resolver throws [e], the constructor calls the
    new promise's reject entry point with [e] and ends as that call ends.
    If the resolver had settled the promise before it threw, the call does
    nothing and the constructor returns the promise.  If the promise is
    still pending, has no rejection callback, and [e] is not a promise, the
    promise becomes REJECTED with [e] and the UncaughtPromiseError thrown
    by the entry point leaves the constructor. *)
Theorem constructor_resolver_throws fuel h resolver e h1 :
  let this := length (promises h) in
  exec fuel (CResolver resolver this) (alloc_promise h) = Some (h1, Throw e) ->
  exec (S fuel) (CNew resolver) h
    = match exec fuel (CApply (FOnFailed this) e) h1 with
      | Some (h2, Return _) => Some (h2, Return (VPromise this))
      | Some (h2, Throw e') => Some (h2, Throw e')
      | None => None
      end /\
  (forall P, promises h1 !! this = Some P -> pending P = false ->
     exec (S fuel) (CNew resolver) h = Some (h1, Return (VPromise this))) /\
  (forall P, promises h1 !! this = Some P -> pending P = true ->
     catchCbs P = [] -> instanceof_MyPromise e = false ->
     exec (S fuel) (CNew resolver) h
       = Some (set_promise this (mkPromise REJECTED e (thenCbs P) []) h1,
               Throw (UncaughtPromiseError (VStr "Unhandle catch")))).
Proof.
  intros this H.
  assert (Hnew : exec (S fuel) (CNew resolver) h
    = match exec fuel (CApply (FOnFailed this) e) h1 with
      | Some (h2, Return _) => Some (h2, Return (VPromise this))
      | Some (h2, Throw e') => Some (h2, Throw e')
      | None => None
      end).
  { simpl. unfold constructor, bind, try_catch. fold this. rewrite H.
    unfold call. destruct (exec fuel _ h1) as [[h2 [v|e']]|]; reflexivity. }
  destruct fuel as [|fuel]; [discriminate|].
  split; [exact Hnew|]. split.
  - intros P HP Hs. rewrite Hnew.
    by rewrite (proj2 (entry_points_settled fuel h1 this P e HP Hs)).
  - intros P HP Hs Hc He. rewrite Hnew.
    by rewrite (exec_onFailed_unhandled fuel h1 this P e HP Hs Hc He).
Qed.

Lemma constructor_resolver_throws_witness :
  exec 3 (CNew (RUser [] (Throw (VStr "boom")))) empty_heap
    = Some (mkHeap [mkPromise REJECTED (VStr "boom") [] []] [] [],
            Throw (UncaughtPromiseError (VStr "Unhandle catch"))).
Proof.
  refine (proj2 (proj2 (constructor_resolver_throws 2 empty_heap
            (RUser [] (Throw (VStr "boom"))) (VStr "boom") one_pending _))
            fresh_promise _ _ _ _); reflexivity.
Defined.

(** ** Promises nobody can settle *)

(** Every callback registered in [h] satisfies [okf okp]. *)
Definition callbacks_ok (okp : loc -> Prop) (h : Heap) : Prop :=
  forall p P, promises h !! p = Some P ->
    Forall (okf okp) (thenCbs P) /\ Forall (okf okp) (catchCbs P).

(** [O] is pending and no registered callback holds one of its two entry
    points. *)
Definition isolated (O : loc) (h : Heap) : Prop :=
  (exists P, promises h !! O = Some P /\ pending P = true) /\
  callbacks_ok (fun p => p <> O) h.

Lemma callbacks_ok_update okp h p P P' :
  callbacks_ok okp h -> promises h !! p = Some P ->
  Forall (okf okp) (thenCbs P') -> Forall (okf okp) (catchCbs P') ->
  callbacks_ok okp (set_promise p P' h).
Proof.
  intros Hok HP Ht Hc q Q. simpl.
  rewrite list_lookup_insert_Some.
  intros [(_ & <- & _)|(_ & HQ)]; eauto.
Qed.

Lemma isolated_update O h p P P' :
  isolated O h -> promises h !! p = Some P ->
  (p = O -> pending P' = true) ->
  Forall (okf (fun p => p <> O)) (thenCbs P') ->
  Forall (okf (fun p => p <> O)) (catchCbs P') ->
  isolated O (set_promise p P' h).
Proof.
  intros [(PO & HO & Hpend) Hok] HP Hkeep Ht Hc.
  split; [|eapply callbacks_ok_update; eauto].
  destruct (decide (p = O)) as [->|Hne].
  - exists P'. split; auto.
    apply lookup_set_promise_eq. eauto using lookup_lt_Some.
  - exists PO. by rewrite lookup_set_promise_ne.
Qed.

(** A call that holds neither entry point of an isolated promise leaves
    it isolated, hence pending. *)
Lemma isolated_forever O fuel c h h' r :
  okc (fun p => p <> O) c -> isolated O h ->
  exec fuel c h = Some (h', r) -> isolated O h'.
Proof.
  intros Hc Hi H.
  apply (exec_pres (isolated O) (fun p => p <> O)) with fuel c h r; auto.
  - intros h1 p P s v Hi1 HP _ Hp _ _.
    destruct (proj2 Hi1 p P HP).
    eapply isolated_update; eauto; intros ->; contradiction.
  - intros h1 p P q cb rest Hi1 HP HQ.
    destruct (proj2 Hi1 p P HP) as [Ht Hcs].
    destruct Hi1 as [(PO & HO & Hpend) Hok].
    destruct q; simpl in HQ; rewrite HQ in *.
    + apply Forall_cons in Ht as [Hcb Ht]. split; [|exact Hcb].
      eapply isolated_update; eauto.
      * split; eauto.
      * intros ->. assert (PO = P) as -> by congruence. exact Hpend.
    + apply Forall_cons in Hcs as [Hcb Hcs]. split; [|exact Hcb].
      eapply isolated_update; eauto.
      * split; eauto.
      * intros ->. assert (PO = P) as -> by congruence. exact Hpend.
  - intros h1 p P tc cc n Hi1 HP Htc Hcc Hn.
    destruct (proj2 Hi1 p P HP) as [Ht Hcs].
    eapply isolated_update; eauto.
    + destruct Hi1 as [(PO & HO & Hpend) Hok].
      intros ->. assert (PO = P) as -> by congruence. exact Hpend.
    + simpl. apply Forall_cons. split; [split|]; auto.
    + simpl. apply Forall_cons. split; [split|]; auto.
  - intros h1 [(PO & HO & Hpend) Hok].
    assert (Hlt : O < length (promises h1)) by eauto using lookup_lt_Some.
    split; [split|lia].
    + exists PO. by rewrite lookup_alloc_old.
    + intros q Q. simpl. rewrite lookup_snoc_Some.
      intros [(_ & HQ)|(_ & <-)]; simpl; eauto.
Qed.

Lemma run_isolated O fuel cs : forall h h',
  Forall (okc (fun p => p <> O)) cs -> isolated O h ->
  run fuel cs h = Some h' -> isolated O h'.
Proof.
  induction cs as [|c cs IH]; simpl; intros h h' Hcs Hi H.
  - by injection H as <-.
  - apply Forall_cons in Hcs as [Hc Hcs].
    destruct (exec fuel c h) as [[h1 r]|] eqn:E; [|discriminate].
    apply (IH h1 h' Hcs); [|exact H].
    exact (isolated_forever O fuel c h h1 r Hc Hi E).
Qed.

Lemma isolated_fresh h :
  callbacks_ok (fun p => p <> length (promises h)) h ->
  isolated (length (promises h)) (alloc_promise h).
Proof.
  intros Hok. split.
  - exists fresh_promise. split; [apply lookup_alloc_new|reflexivity].
  - intros q Q. simpl. rewrite lookup_snoc_Some.
    intros [(_ & HQ)|(_ & <-)]; simpl; eauto.
Qed.

(** C10.  Called with the empty sequence, each of [all], [allSettled],
    [race] and [any] returns a new promise that is pending with no
    callbacks; and after any sequence of later calls that do not hold that
    promise's own entry points (attaching handlers to it included) it is
    still pending.  The store [h] is any store whose callbacks do not refer
    to a promise that is not allocated yet. *)
Theorem empty_input_never_settles h combinator :
  callbacks_ok (fun p => p <> length (promises h)) h ->
  In combinator [all; allSettled; race; any] ->
  let O := length (promises h) in
  exists h1,
    exec 2 (combinator []) h = Some (h1, Return (VPromise O)) /\
    promises h1 !! O = Some fresh_promise /\
    forall fuel cs h2,
      Forall (okc (fun p => p <> O)) cs ->
      run fuel cs h1 = Some h2 ->
      exists P, promises h2 !! O = Some P /\ pending P = true.
Proof.
  intros Hok Hin O.
  assert (Hiso : isolated O (alloc_promise h)) by by apply isolated_fresh.
  assert (Hiso' : isolated O (alloc_vars (alloc_promise h))).
  { destruct Hiso as [HO Hcb]. split; [exact HO|exact Hcb]. }
  assert (Hnew : promises (alloc_promise h) !! O = Some fresh_promise)
    by apply lookup_alloc_new.
  simpl in Hin.
  destruct Hin as [<-|[<-|[<-|[<-|[]]]]];
    [ exists (alloc_vars (alloc_promise h))
    | exists (alloc_vars (alloc_promise h))
    | exists (alloc_promise h)
    | exists (alloc_vars (alloc_promise h)) ];
    (split; [reflexivity|]); (split; [exact Hnew|]);
    intros fuel cs h2 Hcs Hrun;
    eapply run_isolated in Hrun; eauto; apply Hrun.
Qed.

Lemma empty_input_never_settles_witness :
  exists h1,
    exec 2 (all []) empty_heap = Some (h1, Return (VPromise 0)) /\
    promises h1 !! 0 = Some fresh_promise /\
    forall fuel cs h2,
      Forall (okc (fun p => p <> 0)) cs ->
      run fuel cs h1 = Some h2 ->
      exists P, promises h2 !! 0 = Some P /\ pending P = true.
Proof.
  apply (empty_input_never_settles empty_heap all).
  - intros p P H. simpl in H. discriminate H.
  - simpl. left. reflexivity.
Defined.

(** ** [any] and [allSettled] on inputs that settle later *)

(** The rejection callback of [any] never reaches its call of [reject]:
    it counts the rejection and throws a ReferenceError. *)
Lemma any_catch_throws fuel h vars index promiseArray outer e V :
  frames h !! vars = Some V ->
  exec (S fuel) (CApply (FAnyCatch vars index promiseArray outer) e) h
    = Some (set_vars vars (mkVars (results V) (resultCount V + 1)) h,
            Throw (VReferenceError "value")).
Proof. intros HV. simpl. unfold any_catch. by rewrite HV. Qed.

(** C8.  [any([F1, F2])] on two pending promises that are then both
    rejected: both inputs are REJECTED, both rejections were counted, and
    the promise returned by [any] (allocated third) is still PENDING; the
    promises made by [catch] hold the ReferenceError instead. *)
Theorem any_all_rejected_stays_pending :
  option_map (fun h => (settlements h, frames h))
    (run 20 [any [0; 1];
             CApply (FOnFailed 0) (VStr "e1");
             CApply (FOnFailed 1) (VStr "e2")] two_pending)
  = Some ([(REJECTED, VStr "e1"); (REJECTED, VStr "e2");
           (PENDING, VUndefined);
           (REJECTED, VStr "e1"); (REJECTED, VReferenceError "value");
           (REJECTED, VStr "e2"); (REJECTED, VReferenceError "value")],
          [mkVars [] 2]).
Proof. vm_compute. reflexivity. Qed.

(** The first half of the claim holds on the example of the
    specification: [any([F1, F2])] with F1 rejected and F2 fulfilled with
    42 is fulfilled with 42. *)
Lemma any_first_fulfilled_example :
  option_map (fun h => settlements h !! 2)
    (run 20 [reject (VStr "e1"); resolve (VNum 42); any [0; 1]] empty_heap)
  = Some (Some (FULFILLED, VNum 42)).
Proof. vm_compute. reflexivity. Qed.

(** C6.  [allSettled([F1, F2])] on two pending promises, after F1 alone is
    fulfilled with 5: the returned promise (allocated third) is already
    FULFILLED with the results array, which holds one entry, while F2 is
    still PENDING. *)
Theorem allSettled_fulfils_early :
  option_map (fun h => (take 3 (settlements h), frames h))
    (run 20 [allSettled [0; 1]; CApply (FOnSuccess 0) (VNum 5)] two_pending)
  = Some ([(FULFILLED, VNum 5); (PENDING, VUndefined); (FULFILLED, VArray 0)],
          [mkVars [Some (VStatusFulfilled (VNum 5))] 2]).
Proof. vm_compute. reflexivity. Qed.

(** On inputs that have all settled before the call the result is the one
    the claim describes. *)
Lemma allSettled_settled_inputs_example :
  option_map (fun h => (settlements h !! 2, frames h))
    (run 20 [resolve (VNum 5); reject (VStr "boom"); allSettled [0; 1]] empty_heap)
  = Some (Some (FULFILLED, VArray 0),
          [mkVars [Some (VStatusFulfilled (VNum 5));
                   Some (VStatusRejected (VStr "boom"))] 2]).
Proof. vm_compute. reflexivity. Qed.

(** ** Big-step rules

    The rules below are the clauses of the methods read as inference
    rules for [evals]; each is one unfolding of [exec]. *)

Ltac fuel_rewrite H := rewrite (exec_mono _ _ _ _ _ H) by lia.

Lemma evals_mono c h h' r fuel :
  evals c h h' r -> exists fuel', fuel <= fuel' /\ exec fuel' c h = Some (h', r).
Proof.
  intros [n H]. exists (n + fuel). split; [lia|].
  apply (exec_mono n); [exact H|lia].
Qed.

Lemma evals_settled this v h P :
  promises h !! this = Some P -> pending P = false ->
  evals (CApply (FOnSuccess this) v) h h (Return VUndefined) /\
  evals (CApply (FOnFailed this) v) h h (Return VUndefined).
Proof.
  intros HP Hs. destruct (entry_points_settled 0 h this P v HP Hs) as [H1 H2].
  split; exists 1; assumption.
Qed.

Lemma evals_onSuccess_value this v h P h' r :
  promises h !! this = Some P -> pending P = true ->
  instanceof_MyPromise v = false ->
  evals (CRunCallbacks this QThen) (set_promise this (settled FULFILLED v P) h) h' r ->
  evals (CApply (FOnSuccess this) v) h h' r.
Proof.
  intros HP Hs Hv [n H]. apply pending_true in Hs.
  exists (S n). simpl. unfold onSuccess. rewrite HP, Hs.
  destruct v; try discriminate; exact H.
Qed.

Lemma evals_onSuccess_promise this q h P h' r :
  promises h !! this = Some P -> pending P = true ->
  evals (then_ q (Some (FOnSuccess this)) (Some (FOnFailed this))) h h' r ->
  evals (CApply (FOnSuccess this) (VPromise q)) h h' (discard r).
Proof.
  intros HP Hs [n H]. apply pending_true in Hs.
  exists (S n). simpl. unfold onSuccess. rewrite HP, Hs.
  unfold bind. rewrite H. by destruct r.
Qed.

Lemma evals_onFailed_uncaught this e h P :
  promises h !! this = Some P -> pending P = true -> catchCbs P = [] ->
  instanceof_MyPromise e = false ->
  evals (CApply (FOnFailed this) e) h
    (set_promise this (mkPromise REJECTED e (thenCbs P) []) h)
    (Throw (UncaughtPromiseError (VStr "Unhandle catch"))).
Proof.
  intros HP Hs Hc He. exists 1. by apply exec_onFailed_unhandled.
Qed.

Lemma evals_onFailed_run this e h P cb rest h' r :
  promises h !! this = Some P -> pending P = true -> catchCbs P = cb :: rest ->
  instanceof_MyPromise e = false ->
  evals (CRunCallbacks this QCatch) (set_promise this (settled REJECTED e P) h) h' r ->
  evals (CApply (FOnFailed this) e) h h' r.
Proof.
  intros HP Hs Hc He [n H]. apply pending_true in Hs.
  exists (S n). simpl. unfold onFailed. rewrite HP, Hs, Hc.
  destruct e; try discriminate; exact H.
Qed.

Lemma evals_run_nil this q h P :
  promises h !! this = Some P -> queue q P = [] ->
  evals (CRunCallbacks this q) h h (Return VUndefined).
Proof.
  intros HP HQ. exists 1. simpl. unfold runCallbacks. by rewrite HP, HQ.
Qed.

Lemma evals_run_cons this q h P cb rest h1 w h' r :
  promises h !! this = Some P -> queue q P = cb :: rest ->
  evals (CApply cb (value P)) (set_promise this (with_queue q rest P) h) h1 (Return w) ->
  evals (CRunCallbacks this q) h1 h' r ->
  evals (CRunCallbacks this q) h h' r.
Proof.
  intros HP HQ [n1 H1] [n2 H2].
  exists (S (n1 + n2)). simpl. unfold runCallbacks. rewrite HP, HQ.
  unfold bind, call. fuel_rewrite H1. fuel_rewrite H2. reflexivity.
Qed.

Lemma evals_run_cons_throw this q h P cb rest h1 e :
  promises h !! this = Some P -> queue q P = cb :: rest ->
  evals (CApply cb (value P)) (set_promise this (with_queue q rest P) h) h1 (Throw e) ->
  evals (CRunCallbacks this q) h h1 (Throw e).
Proof.
  intros HP HQ [n1 H1].
  exists (S n1). simpl. unfold runCallbacks. rewrite HP, HQ.
  unfold bind, call. by rewrite H1.
Qed.

Lemma evals_thenCb_none n v h h' r :
  evals (CApply (FOnSuccess n) v) h h' r ->
  evals (CApply (FThenCb None n) v) h h' (discard r).
Proof.
  intros [k H]. exists (S k). simpl. unfold bind, call. rewrite H. by destruct r.
Qed.

Lemma evals_catchCb_none n v h h' r :
  evals (CApply (FOnFailed n) v) h h' r ->
  evals (CApply (FCatchCb None n) v) h h' (discard r).
Proof.
  intros [k H]. exists (S k). simpl. unfold bind, call. rewrite H. by destruct r.
Qed.

Lemma evals_wrapped_return wrap f n v h h1 w h2 u :
  wrapper wrap ->
  evals (CApply f v) h h1 (Return w) ->
  evals (CApply (FOnSuccess n) w) h1 h2 (Return u) ->
  evals (CApply (wrap (Some f) n) v) h h2 (Return VUndefined).
Proof.
  intros Hw [n1 H1] [n2 H2].
  exists (S (n1 + n2)). destruct Hw as [-> | ->]; simpl;
    unfold try_catch, bind, call; fuel_rewrite H1; fuel_rewrite H2; reflexivity.
Qed.

Lemma evals_wrapped_throw wrap f n v h h1 e h2 r :
  wrapper wrap ->
  evals (CApply f v) h h1 (Throw e) ->
  evals (CApply (FOnFailed n) e) h1 h2 r ->
  evals (CApply (wrap (Some f) n) v) h h2 (discard r).
Proof.
  intros Hw [n1 H1] [n2 H2].
  exists (S (n1 + n2)). destruct Hw as [-> | ->]; simpl;
    unfold try_catch, bind, call; fuel_rewrite H1; fuel_rewrite H2;
    by destruct r.
Qed.

Lemma evals_wrapped_resolve_throw wrap f n v h h1 w h2 e h3 r :
  wrapper wrap ->
  evals (CApply f v) h h1 (Return w) ->
  evals (CApply (FOnSuccess n) w) h1 h2 (Throw e) ->
  evals (CApply (FOnFailed n) e) h2 h3 r ->
  evals (CApply (wrap (Some f) n) v) h h3 (discard r).
Proof.
  intros Hw [n1 H1] [n2 H2] [n3 H3].
  exists (S (n1 + n2 + n3)). destruct Hw as [-> | ->]; simpl;
    unfold try_catch, bind, call;
    fuel_rewrite H1; fuel_rewrite H2; fuel_rewrite H3; by destruct r.
Qed.

(** [then] on a pending promise, with the budget it needs. *)
Lemma exec_then_on_pending fuel p thenCb catchCb h P :
  promises h !! p = Some P -> pending P = true ->
  exec (S (S fuel)) (then_ p thenCb catchCb) h
    = Some (set_promise p (pushed thenCb catchCb (length (promises h)) P)
              (alloc_promise h),
            Return (VPromise (length (promises h)))).
Proof.
  intros HP Hs. assert (Hlt := lookup_lt_Some _ _ _ HP).
  apply pending_true in Hs.
  change (exec (S (S fuel)) (then_ p thenCb catchCb) h)
    with (constructor (exec (S fuel)) (RThen p thenCb catchCb) h).
  unfold constructor, bind, try_catch.
  change (exec (S fuel) (CResolver (RThen p thenCb catchCb) (length (promises h)))
            (alloc_promise h))
    with (then_resolver (exec fuel) p thenCb catchCb (length (promises h))
            (alloc_promise h)).
  unfold then_resolver, pushed.
  rewrite lookup_alloc_old by exact Hlt. rewrite HP, Hs. reflexivity.
Qed.

Lemma evals_user id body v h :
  evals (CApply (FUser id body) v) h (log id v h) (body v).
Proof. by exists 1. Qed.

Lemma evals_new_return r h h1 w :
  evals (CResolver r (length (promises h))) (alloc_promise h) h1 (Return w) ->
  evals (CNew r) h h1 (Return (VPromise (length (promises h)))).
Proof.
  intros [n H]. exists (S n). simpl. unfold constructor, bind, try_catch.
  by rewrite H.
Qed.

Lemma evals_new_throw r h h1 e h2 r2 :
  evals (CResolver r (length (promises h))) (alloc_promise h) h1 (Throw e) ->
  evals (CApply (FOnFailed (length (promises h))) e) h1 h2 r2 ->
  evals (CNew r) h h2
    (match r2 with
     | Return _ => Return (VPromise (length (promises h)))
     | Throw e' => Throw e'
     end).
Proof.
  intros [n1 H1] [n2 H2]. exists (S (n1 + n2)). simpl.
  unfold constructor, bind, try_catch, call.
  fuel_rewrite H1. fuel_rewrite H2. by destruct r2.
Qed.

Lemma evals_then_resolver_pending p thenCb catchCb n h P :
  promises h !! p = Some P -> pending P = true ->
  evals (CResolver (RThen p thenCb catchCb) n) h
    (set_promise p (pushed thenCb catchCb n P) h) (Return VUndefined).
Proof.
  intros HP Hs. apply pending_true in Hs. exists 1. simpl.
  unfold then_resolver, pushed. by rewrite HP, Hs.
Qed.

Lemma evals_then_resolver_fulfilled p thenCb catchCb n h P h' r :
  promises h !! p = Some P -> state P = FULFILLED ->
  evals (CRunCallbacks p QThen) (set_promise p (pushed thenCb catchCb n P) h) h' r ->
  evals (CResolver (RThen p thenCb catchCb) n) h h' r.
Proof.
  intros HP Hs [k H]. exists (S k). simpl.
  unfold then_resolver, pushed in *. rewrite HP, Hs. rewrite Hs in H. exact H.
Qed.

Lemma evals_then_resolver_rejected p thenCb catchCb n h P h' r :
  promises h !! p = Some P -> state P = REJECTED ->
  evals (CRunCallbacks p QCatch) (set_promise p (pushed thenCb catchCb n P) h) h' r ->
  evals (CResolver (RThen p thenCb catchCb) n) h h' r.
Proof.
  intros HP Hs [k H]. exists (S k). simpl.
  unfold then_resolver, pushed in *. rewrite HP, Hs. rewrite Hs in H. exact H.
Qed.

(** ** Reading nested updates *)

Lemma promises_alloc_promise h :
  promises (alloc_promise h) = promises h ++ [fresh_promise].
Proof. reflexivity. Qed.

Lemma promises_log id v h : promises (log id v h) = promises h.
Proof. reflexivity. Qed.

Lemma promises_set_vars a V h : promises (set_vars a V h) = promises h.
Proof. reflexivity. Qed.

Lemma promises_alloc_vars h : promises (alloc_vars h) = promises h.
Proof. reflexivity. Qed.

Ltac len_solve :=
  repeat first
    [ rewrite promises_set_promise
    | rewrite promises_alloc_promise
    | rewrite promises_log
    | rewrite promises_set_vars
    | rewrite promises_alloc_vars
    | rewrite length_insert
    | rewrite length_app ];
  simpl length; lia.

(** Normalises [promises h !! p] for [h] a stack of updates. *)
Ltac hsimpl :=
  repeat first
    [ rewrite promises_set_promise
    | rewrite promises_alloc_promise
    | rewrite promises_log
    | rewrite promises_set_vars
    | rewrite promises_alloc_vars
    | rewrite length_insert
    | rewrite length_app
    | rewrite list_lookup_insert_eq by len_solve
    | rewrite list_lookup_insert_ne by len_solve
    | rewrite lookup_app_l by len_solve
    | rewrite list_lookup_middle by len_solve ].

Ltac hlookup := hsimpl; first [reflexivity | eassumption].

(** [then] on a pending promise registers the two closures and returns
    the new promise, which is the next one allocated. *)
Lemma then_on_pending p thenCb catchCb h P L :
  promises h !! p = Some P -> pending P = true ->
  length (promises h) = L ->
  evals (then_ p thenCb catchCb) h
    (set_promise p (pushed thenCb catchCb L P) (alloc_promise h))
    (Return (VPromise L)).
Proof.
  intros HP Hs <-. assert (Hlt := lookup_lt_Some _ _ _ HP).
  eapply evals_new_return.
  eapply evals_then_resolver_pending; [hlookup|exact Hs].
Qed.

Lemma set_promise_twice p X Y h :
  set_promise p X (set_promise p Y h) = set_promise p X h.
Proof. unfold set_promise. simpl. by rewrite list_insert_insert_eq. Qed.

(** Fulfilling a pending promise that has no fulfilment callback. *)
Lemma fulfil_quiet p v h P :
  promises h !! p = Some P -> pending P = true -> thenCbs P = [] ->
  instanceof_MyPromise v = false ->
  evals (CApply (FOnSuccess p) v) h
    (set_promise p (mkPromise FULFILLED v [] (catchCbs P)) h) (Return VUndefined).
Proof.
  intros HP Hs Ht Hv. assert (Hlt := lookup_lt_Some _ _ _ HP).
  eapply evals_onSuccess_value; eauto.
  unfold settled. rewrite Ht.
  eapply evals_run_nil; [hlookup|reflexivity].
Qed.

(** Fulfilling a pending promise whose only fulfilment callback is [cb]:
    the call ends as [cb] ends, provided [cb] registers nothing more on
    the promise. *)
Lemma fulfil_one p v h P cb h2 r :
  promises h !! p = Some P -> pending P = true -> thenCbs P = [cb] ->
  instanceof_MyPromise v = false ->
  evals (CApply cb v) (set_promise p (mkPromise FULFILLED v [] (catchCbs P)) h) h2 r ->
  (exists P2, promises h2 !! p = Some P2 /\ thenCbs P2 = []) ->
  evals (CApply (FOnSuccess p) v) h h2 (discard r).
Proof.
  intros HP Hs Ht Hv Hcb (P2 & HP2 & Ht2).
  assert (Hlt := lookup_lt_Some _ _ _ HP).
  eapply evals_onSuccess_value; eauto.
  destruct r as [w|e]; simpl.
  - eapply evals_run_cons; [hlookup|simpl; exact Ht| |].
    + rewrite set_promise_twice. exact Hcb.
    + eapply evals_run_nil; eauto.
  - eapply evals_run_cons_throw; [hlookup|simpl; exact Ht|].
    rewrite set_promise_twice. exact Hcb.
Qed.

(** Rejecting a pending promise whose only rejection callback is [cb]. *)
Lemma reject_one p e h P cb h2 r :
  promises h !! p = Some P -> pending P = true -> catchCbs P = [cb] ->
  instanceof_MyPromise e = false ->
  evals (CApply cb e) (set_promise p (mkPromise REJECTED e (thenCbs P) []) h) h2 r ->
  (exists P2, promises h2 !! p = Some P2 /\ catchCbs P2 = []) ->
  evals (CApply (FOnFailed p) e) h h2 (discard r).
Proof.
  intros HP Hs Hc He Hcb (P2 & HP2 & Hc2).
  assert (Hlt := lookup_lt_Some _ _ _ HP).
  eapply evals_onFailed_run; eauto.
  destruct r as [w|x]; simpl.
  - eapply evals_run_cons; [hlookup|simpl; exact Hc| |].
    + rewrite set_promise_twice. exact Hcb.
    + eapply evals_run_nil; eauto.
  - eapply evals_run_cons_throw; [hlookup|simpl; exact Hc|].
    rewrite set_promise_twice. exact Hcb.
Qed.

(** [then] on a promise that is already settled and has no callback left
    in the array for its state: the closure just pushed runs at once.  If
    it throws, the new promise has been settled by it, and the
    constructor's call of the reject entry point does nothing. *)
Lemma then_on_settled q p thenCb catchCb h P L h2 r :
  promises h !! p = Some P ->
  state P = match q with QThen => FULFILLED | QCatch => REJECTED end ->
  queue q P = [] ->
  length (promises h) = L ->
  evals (CApply (match q with
                 | QThen => FThenCb thenCb L
                 | QCatch => FCatchCb catchCb L
                 end) (value P))
    (set_promise p (with_queue q [] (pushed thenCb catchCb L P)) (alloc_promise h))
    h2 r ->
  match r with
  | Return _ => exists P2, promises h2 !! p = Some P2 /\ queue q P2 = []
  | Throw _ => exists PL, promises h2 !! L = Some PL /\ pending PL = false
  end ->
  evals (then_ p thenCb catchCb) h h2 (Return (VPromise L)).
Proof.
  intros HP Hs HQ <- Hcb Hafter.
  set (L := length (promises h)) in *.
  assert (Hlt := lookup_lt_Some _ _ _ HP).
  assert (Hrun : evals (CRunCallbacks p q)
                   (set_promise p (pushed thenCb catchCb L P) (alloc_promise h))
                   h2 (discard r)).
  { assert (Hset : set_promise p (with_queue q [] (pushed thenCb catchCb L P))
                     (set_promise p (pushed thenCb catchCb L P) (alloc_promise h))
                   = set_promise p (with_queue q [] (pushed thenCb catchCb L P))
                       (alloc_promise h)).
    { apply set_promise_twice. }
    destruct r as [w|e]; simpl.
    - destruct Hafter as (P2 & HP2 & HQ2).
      eapply evals_run_cons with (cb := match q with
                                        | QThen => FThenCb thenCb L
                                        | QCatch => FCatchCb catchCb L
                                        end) (rest := []);
        [hlookup|destruct q; simpl in *; by rewrite HQ| |].
      + rewrite Hset. exact Hcb.
      + eapply evals_run_nil; eauto.
    - eapply evals_run_cons_throw with (cb := match q with
                                        | QThen => FThenCb thenCb L
                                        | QCatch => FCatchCb catchCb L
                                        end) (rest := []);
        [hlookup|destruct q; simpl in *; by rewrite HQ|].
      rewrite Hset. exact Hcb. }
  assert (Hres : evals (CResolver (RThen p thenCb catchCb) L) (alloc_promise h)
                   h2 (discard r)).
  { destruct q.
    - eapply evals_then_resolver_fulfilled; [hlookup|exact Hs|exact Hrun].
    - eapply evals_then_resolver_rejected; [hlookup|exact Hs|exact Hrun]. }
  destruct r as [w|e]; simpl in Hres.
  - eapply evals_new_return. exact Hres.
  - destruct Hafter as (PL & HPL & HsL).
    eapply (evals_new_throw _ _ _ _ _ (Return VUndefined)); [exact Hres|].
    eapply evals_settled; eauto.
Qed.

(** ** Chains of [then] *)

Lemma chain_mono links : forall n m cur h x,
  chain n links cur h = Some x -> n <= m -> chain m links cur h = Some x.
Proof.
  induction links as [|[tc cc] rest IH]; simpl; intros n m cur h x H Hle; auto.
  destruct cur; auto. revert H. apply le_bind.
  - intros h1 x1 H1. eapply exec_mono; eauto.
  - intros t h1 x1 H1. eapply IH; eauto.
Qed.

Lemma chains_nil cur h : chains [] cur h h (Return cur).
Proof. by exists 0. Qed.

Lemma chains_cons thenCb catchCb rest p h h1 t h' r :
  evals (then_ p thenCb catchCb) h h1 (Return t) ->
  chains rest t h1 h' r ->
  chains ((thenCb, catchCb) :: rest) (VPromise p) h h' r.
Proof.
  intros [n1 H1] [n2 H2]. exists (n1 + n2). simpl. unfold bind.
  fuel_rewrite H1. eapply chain_mono; eauto. lia.
Qed.


(** [then] without a rejection handler on a promise already rejected with
    [e]: the new promise is rejected with [e]; the UncaughtPromiseError of
    its reject entry point is caught by its constructor. *)
Lemma then_forwards_rejection p thenCb h e ts L :
  promises h !! p = Some (mkPromise REJECTED e ts []) ->
  instanceof_MyPromise e = false ->
  length (promises h) = L ->
  evals (then_ p thenCb None) h
    (set_promise L (mkPromise REJECTED e [] [])
       (set_promise p (mkPromise REJECTED e (FThenCb thenCb L :: ts) [])
          (alloc_promise h)))
    (Return (VPromise L)).
Proof.
  intros HP He HL. assert (Hlt := lookup_lt_Some _ _ _ HP).
  eapply (then_on_settled QCatch) with
    (r := Throw (UncaughtPromiseError (VStr "Unhandle catch")));
    [exact HP|reflexivity|reflexivity|exact HL| |].
  - apply (evals_catchCb_none _ _ _ _ (Throw _)).
    apply (evals_onFailed_uncaught L e _ fresh_promise);
      [subst L; hlookup|reflexivity|reflexivity|exact He].
  - eexists. split; [subst L; hlookup|reflexivity].
Qed.

(** [then] with a handler that throws [e] on a promise already fulfilled
    with [v]: the handler is invoked with [v] and the new promise is
    rejected with [e]. *)
Lemma then_handler_throws p id body catchCb h v cs e L :
  promises h !! p = Some (mkPromise FULFILLED v [] cs) ->
  body v = Throw e ->
  instanceof_MyPromise e = false ->
  length (promises h) = L ->
  evals (then_ p (Some (FUser id body)) catchCb) h
    (set_promise L (mkPromise REJECTED e [] [])
       (log id v
          (set_promise p (mkPromise FULFILLED v [] (FCatchCb catchCb L :: cs))
             (alloc_promise h))))
    (Return (VPromise L)).
Proof.
  intros HP Hb He HL. assert (Hlt := lookup_lt_Some _ _ _ HP).
  eapply (then_on_settled QThen) with
    (r := Throw (UncaughtPromiseError (VStr "Unhandle catch")));
    [exact HP|reflexivity|reflexivity|exact HL| |].
  - eapply (evals_wrapped_throw FThenCb) with
      (e := e) (r := Throw (UncaughtPromiseError (VStr "Unhandle catch")));
      [by left| |].
    + rewrite <- Hb. apply evals_user.
    + apply (evals_onFailed_uncaught L e _ fresh_promise);
        [subst L; hlookup|reflexivity|reflexivity|exact He].
  - eexists. split; [subst L; hlookup|reflexivity].
Qed.

(** [catch] with a handler on a promise already rejected with [e]: the
    handler is invoked with [e] and the new promise takes the handler's
    completion. *)
Lemma catch_handler_runs p id body thenCb h e ts L :
  promises h !! p = Some (mkPromise REJECTED e ts []) ->
  plain (body e) = true ->
  length (promises h) = L ->
  evals (then_ p thenCb (Some (FUser id body))) h
    (set_promise L
       (mkPromise (fst (settlement_of (body e))) (snd (settlement_of (body e))) [] [])
       (log id e
          (set_promise p (mkPromise REJECTED e (FThenCb thenCb L :: ts) [])
             (alloc_promise h))))
    (Return (VPromise L)).
Proof.
  intros HP Hb HL. assert (Hlt := lookup_lt_Some _ _ _ HP).
  destruct (body e) as [w|x] eqn:E; simpl in Hb; apply negb_true_iff in Hb.
  - eapply (then_on_settled QCatch) with (r := Return VUndefined);
      [exact HP|reflexivity|reflexivity|exact HL| |].
    + eapply (evals_wrapped_return FCatchCb); [by right| |].
      * rewrite <- E. apply evals_user.
      * apply (fulfil_quiet L w _ fresh_promise);
          [subst L; hlookup|reflexivity|reflexivity|exact Hb].
    + eexists. split; [subst L; hlookup|reflexivity].
  - eapply (then_on_settled QCatch) with
      (r := Throw (UncaughtPromiseError (VStr "Unhandle catch")));
      [exact HP|reflexivity|reflexivity|exact HL| |].
    + eapply (evals_wrapped_throw FCatchCb) with
        (e := x) (r := Throw (UncaughtPromiseError (VStr "Unhandle catch")));
        [by right| |].
      * rewrite <- E. apply evals_user.
      * apply (evals_onFailed_uncaught L x _ fresh_promise);
          [subst L; hlookup|reflexivity|reflexivity|exact Hb].
    + eexists. split; [subst L; hlookup|reflexivity].
Qed.

(** A closure registered by [then] around a handler, run on a new promise
    that is still pending without callbacks: the handler is invoked and
    the promise takes its completion; a rejection is unhandled, so the
    closure throws. *)
Lemma wrapped_user_settles wrap id body n arg h :
  wrapper wrap ->
  promises h !! n = Some fresh_promise ->
  plain (body arg) = true ->
  evals (CApply (wrap (Some (FUser id body)) n) arg) h
    (set_promise n
       (mkPromise (fst (settlement_of (body arg))) (snd (settlement_of (body arg))) [] [])
       (log id arg h))
    (match body arg with
     | Return _ => Return VUndefined
     | Throw _ => Throw (UncaughtPromiseError (VStr "Unhandle catch"))
     end).
Proof.
  intros Hw Hn Hb. assert (Hlt := lookup_lt_Some _ _ _ Hn).
  destruct (body arg) as [w|x] eqn:E; simpl in Hb; apply negb_true_iff in Hb.
  - eapply evals_wrapped_return; [exact Hw| |].
    + rewrite <- E. apply evals_user.
    + apply (fulfil_quiet n w _ fresh_promise);
        [hlookup|reflexivity|reflexivity|exact Hb].
  - eapply evals_wrapped_throw with
      (e := x) (r := Throw (UncaughtPromiseError (VStr "Unhandle catch")));
      [exact Hw| |].
    + rewrite <- E. apply evals_user.
    + apply (evals_onFailed_uncaught n x _ fresh_promise);
        [hlookup|reflexivity|reflexivity|exact Hb].
Qed.

Section ThrowInChain.

Variables (h0 : Heap) (F : loc) (PF : MyPromise) (v e : Value).
Variables (idf idg idh : nat) (bf bg bh : Value -> Completion).

Hypothesis HF : promises h0 !! F = Some PF.
Hypothesis HFpending : pending PF = true.
Hypothesis HFthen : thenCbs PF = [].
Hypothesis Hv : instanceof_MyPromise v = false.
Hypothesis Hthrows : bf v = Throw e.
Hypothesis He : instanceof_MyPromise e = false.
Hypothesis Hplain : plain (bh e) = true.

Let L := length (promises h0).
Let f := FUser idf bf.
Let g := FUser idg bg.
Let hd := FUser idh bh.

Lemma throw_in_chain_settled_first :
  exists hA h',
    evals (CApply (FOnSuccess F) v) h0 hA (Return VUndefined) /\
    chains [(Some f, None); (Some g, None); (None, Some hd)] (VPromise F) hA h'
      (Return (VPromise (S (S L)))) /\
    trace h' = trace h0 ++ [(idf, v); (idh, e)] /\
    settlements h' !! F = Some (FULFILLED, v) /\
    settlements h' !! L = Some (REJECTED, e) /\
    settlements h' !! S L = Some (REJECTED, e) /\
    settlements h' !! S (S L) = Some (settlement_of (bh e)).
Proof.
  assert (Hlt := lookup_lt_Some _ _ _ HF).
  eexists. eexists. split; [|split].
  - eapply fulfil_quiet; eauto.
  - eapply chains_cons.
    { eapply then_handler_throws with (L := L); [hlookup|exact Hthrows|exact He|len_solve]. }
    eapply chains_cons.
    { eapply then_forwards_rejection with (L := S L); [hlookup|exact He|subst L; len_solve]. }
    eapply chains_cons.
    { eapply catch_handler_runs with (L := S (S L)); [hlookup|exact Hplain|subst L; len_solve]. }
    apply chains_nil.
  - split.
    { cbn [trace set_promise alloc_promise log]. by rewrite <- app_assoc. }
    repeat split; erewrite settlements_lookup_Some by (subst L; hlookup);
      try reflexivity.
    by destruct (settlement_of (bh e)).
Qed.

Lemma throw_in_chain_settled_later :
  exists hB h' r,
    chains [(Some f, None); (Some g, None); (None, Some hd)] (VPromise F) h0 hB
      (Return (VPromise (S (S L)))) /\
    evals (CApply (FOnSuccess F) v) hB h' r /\
    trace h' = trace h0 ++ [(idf, v); (idh, e)] /\
    settlements h' !! F = Some (FULFILLED, v) /\
    settlements h' !! L = Some (REJECTED, e) /\
    settlements h' !! S L = Some (REJECTED, e) /\
    settlements h' !! S (S L) = Some (settlement_of (bh e)).
Proof.
  assert (Hlt := lookup_lt_Some _ _ _ HF).
  eexists. eexists. eexists. split; [|split].
  - eapply chains_cons.
    { eapply then_on_pending with (L := L); [exact HF|exact HFpending|reflexivity]. }
    eapply chains_cons.
    { eapply then_on_pending with (L := S L) (P := fresh_promise);
        [subst L; hlookup|reflexivity|subst L; len_solve]. }
    eapply chains_cons.
    { eapply then_on_pending with (L := S (S L)) (P := fresh_promise);
        [subst L; hlookup|reflexivity|subst L; len_solve]. }
    apply chains_nil.
  - eapply fulfil_one with (cb := FThenCb (Some f) L) (P := pushed (Some f) None L PF);
      [subst L; hlookup|exact HFpending|simpl; by rewrite HFthen|exact Hv| |].
    + eapply evals_wrapped_throw with (e := e); [by left| |].
      * rewrite <- Hthrows. apply evals_user.
      * eapply reject_one with (cb := FCatchCb None (S L))
          (P := pushed (Some g) None (S L) fresh_promise);
          [subst L; hlookup|reflexivity|reflexivity|exact He| |].
        -- eapply evals_catchCb_none.
           eapply reject_one with (cb := FCatchCb (Some hd) (S (S L)))
             (P := pushed None (Some hd) (S (S L)) fresh_promise);
             [subst L; hlookup|reflexivity|reflexivity|exact He| |].
           ++ eapply (wrapped_user_settles FCatchCb);
                [by right|subst L; hlookup|exact Hplain].
           ++ eexists. split; [subst L; hlookup|reflexivity].
        -- eexists. split; [subst L; hlookup|reflexivity].
    + eexists. split; [subst L; hlookup|reflexivity].
  - split.
    { cbn [trace set_promise alloc_promise log]. by rewrite <- app_assoc. }
    repeat split; erewrite settlements_lookup_Some by (subst L; hlookup);
      try reflexivity.
    by destruct (settlement_of (bh e)).
Qed.

Hypothesis HFcatch : catchCbs PF = [].

(** A [then] that has only a fulfilment handler, on a promise rejected
    with [e] before or after the call: the new promise is rejected with
    [e] and the handler is not invoked. *)
Lemma then_forwards_rejection_either_order :
  (exists hA rA h',
     evals (CApply (FOnFailed F) e) h0 hA rA /\
     evals (then_ F (Some g) None) hA h' (Return (VPromise L)) /\
     trace h' = trace h0 /\
     settlements h' !! F = Some (REJECTED, e) /\
     settlements h' !! L = Some (REJECTED, e)) /\
  (exists hB h' r,
     evals (then_ F (Some g) None) h0 hB (Return (VPromise L)) /\
     evals (CApply (FOnFailed F) e) hB h' r /\
     trace h' = trace h0 /\
     settlements h' !! F = Some (REJECTED, e) /\
     settlements h' !! L = Some (REJECTED, e)).
Proof.
  assert (Hlt := lookup_lt_Some _ _ _ HF).
  split.
  - eexists. eexists. eexists. split; [|split].
    + eapply evals_onFailed_uncaught; eauto.
    + eapply then_forwards_rejection with (L := L);
        [hlookup|exact He|subst L; len_solve].
    + split; [reflexivity|].
      split; erewrite settlements_lookup_Some by (subst L; hlookup); reflexivity.
  - eexists. eexists. eexists. split; [|split].
    + eapply then_on_pending with (L := L); [exact HF|exact HFpending|reflexivity].
    + eapply reject_one with (cb := FCatchCb None L) (P := pushed (Some g) None L PF);
        [subst L; hlookup|exact HFpending|simpl; by rewrite HFcatch|exact He| |].
      * eapply evals_catchCb_none.
        eapply (evals_onFailed_uncaught L e _ fresh_promise);
          [subst L; hlookup|reflexivity|reflexivity|exact He].
      * eexists. split; [subst L; hlookup|reflexivity].
    + split; [reflexivity|].
      split; erewrite settlements_lookup_Some by (subst L; hlookup); reflexivity.
Qed.

End ThrowInChain.


(** X25.  Let [F] be a pending promise with no callbacks, fulfilled with
    [v] either before or after the chain [F.then(f).then(g).catch(hd)] is
    built, and let [f] throw [e] on [v] ([v], [e] and the completion of
    [hd] are not promises).  Then the chain is built without an exception,
    the only handlers invoked are [f] (with [v]) and then [hd] (with [e]),
    so [g] is never invoked; the promises returned by [then(f)] and
    [then(g)] are both rejected with [e], and the promise returned by
    [catch(hd)] takes the completion of [hd].  Likewise, when [F] is
    rejected with [e] before or after [F.then(g)], the promise [then]
    returns is rejected with [e] and [g] is not invoked. *)
Theorem throw_skips_then_reaches_catch h0 F PF v e idf idg idh bf bg bh :
  promises h0 !! F = Some PF ->
  pending PF = true ->
  thenCbs PF = [] ->
  catchCbs PF = [] ->
  instanceof_MyPromise v = false ->
  bf v = Throw e ->
  instanceof_MyPromise e = false ->
  plain (bh e) = true ->
  throw_reaches_catch h0 F v e idf idg idh bf bg bh.
Proof.
  intros HF Hp Ht Hc Hv Hb He Hpl.
  split; [|split; [|split]].
  - apply (throw_in_chain_settled_first h0 F PF v e idf idg idh bf bg bh); assumption.
  - apply (throw_in_chain_settled_later h0 F PF v e idf idg idh bf bg bh); assumption.
  - apply (then_forwards_rejection_either_order h0 F PF e idg bg); assumption.
  - apply (then_forwards_rejection_either_order h0 F PF e idg bg); assumption.
Qed.

Lemma throw_skips_then_reaches_catch_witness :
  throw_reaches_catch one_pending 0 (VNum 5) (VStr "boom") 1 2 3
    (fun _ => Throw (VStr "boom")) (fun _ => Return (VNum 7)) (fun x => Return x).
Proof.
  apply (throw_skips_then_reaches_catch one_pending 0 fresh_promise);
    reflexivity.
Defined.

(** ** Adopting another promise's settlement *)

Lemma adopted_frame h h' : forall links G,
  (forall p, p ∈ locs G links -> promises h' !! p = promises h !! p) ->
  adopted h G links -> adopted h' G links.
Proof.
  induction links as [|[N F] rest IH]; simpl; intros G Hsame.
  - intros [u Hu]. exists u. rewrite Hsame; [done|]. set_solver.
  - intros ([u Hu] & [w Hw] & Hrest). split; [|split].
    + exists u. rewrite Hsame; [done|]. set_solver.
    + exists w. rewrite Hsame; [done|]. set_solver.
    + apply IH; [|done]. intros p Hp. apply Hsame. set_solver.
Qed.

Lemma locs_head G links : G ∈ locs G links.
Proof. destruct links as [|[N F] rest]; simpl; set_solver. Qed.




Lemma run_mono cs : forall n m h h',
  run n cs h = Some h' -> n <= m -> run m cs h = Some h'.
Proof.
  induction cs as [|c cs IH]; simpl; intros n m h h' H Hle; auto.
  destruct (exec n c h) as [[h1 r]|] eqn:E; [|discriminate].
  rewrite (exec_mono _ _ _ _ _ E Hle). eauto.
Qed.

Lemma runs_nil h : runs [] h h.
Proof. by exists 0. Qed.

Lemma runs_cons c cs h h1 r h' :
  evals c h h1 r -> runs cs h1 h' -> runs (c :: cs) h h'.
Proof.
  intros [n1 H1] [n2 H2]. exists (n1 + n2). simpl.
  fuel_rewrite H1. eapply run_mono; eauto. lia.
Qed.

Lemma adopted_pending h G links :
  adopted h G links -> exists P, promises h !! G = Some P /\ pending P = true.
Proof.
  destruct links as [|[N F] rest]; simpl.
  - intros [u Hu]. eauto.
  - intros ([u Hu] & _). eauto.
Qed.

Lemma last_default (rest : list loc) : forall n d d',
  List.last (n :: rest) d = List.last (n :: rest) d'.
Proof.
  induction rest as [|m rest IH]; intros n d d'; [reflexivity|].
  change (List.last (m :: rest) d = List.last (m :: rest) d'). apply IH.
Qed.

Lemma last_cons (rest : list loc) G outer :
  List.last (G :: rest) outer = List.last rest G.
Proof.
  destruct rest as [|n rest]; [reflexivity|].
  change (List.last (n :: rest) outer = List.last (n :: rest) G).
  apply last_default.
Qed.

Lemma build_adopted : forall inner outer h links,
  adopted h outer links ->
  NoDup (locs outer links ++ inner) ->
  (forall p, p ∈ locs outer links ++ inner -> p < length (promises h)) ->
  (forall p, p ∈ inner -> quiet h p) ->
  exists h1 links',
    runs (adopt_calls outer inner) h h1 /\
    adopted h1 (List.last inner outer) links' /\
    NoDup (locs (List.last inner outer) links') /\
    (forall p, p ∈ adopters outer links ++ inner ->
               p ∈ adopters (List.last inner outer) links').
Proof.
  induction inner as [|G rest IH]; intros outer h links Had Hnd Hlt Hq.
  - exists h, links. rewrite app_nil_r in *. simpl.
    split; [apply runs_nil|]. split; [done|]. split; [done|]. auto.
  - destruct (adopted_pending _ _ _ Had) as (PO & HPO & HpO).
    destruct (Hq G) as [u HG]; [set_solver|].
    remember (length (promises h)) as L eqn:EL.
    remember (set_promise G
                (pushed (Some (FOnSuccess outer)) (Some (FOnFailed outer)) L
                   (mkPromise PENDING u [] []))
                (alloc_promise h)) as h' eqn:Eh'.
    assert (HGlt : G < L) by (apply Hlt; set_solver).
    assert (HGn : G ∉ locs outer links).
    { apply NoDup_app in Hnd as (_ & Hd & _). intros Hin.
      apply (Hd G Hin). set_solver. }
    assert (HLn : L ∉ locs outer links).
    { intros Hin. assert (L < L); [|lia]. apply Hlt. set_solver. }
    assert (Had' : adopted h' G ((L, outer) :: links)).
    { simpl. split; [|split].
      - exists u. rewrite Eh', EL. hlookup.
      - exists VUndefined. rewrite Eh', EL. hlookup.
      - eapply adopted_frame; [|exact Had]. intros p Hp. rewrite Eh'.
        assert (p < L) by (apply Hlt; set_solver).
        rewrite lookup_set_promise_ne by (intros ->; contradiction).
        rewrite lookup_alloc_old by lia. done. }
    destruct (IH G h' ((L, outer) :: links) Had') as (h1 & links' & Hruns & Hl & Hnd' & Hsub).
    { simpl. apply NoDup_cons. split.
      - rewrite not_elem_of_cons, elem_of_app. split; [lia|].
        intros [Hin|Hin]; [contradiction|].
        apply NoDup_app in Hnd as (_ & _ & Hd).
        apply NoDup_cons in Hd as [Hd _]. contradiction.
      - apply NoDup_cons. split.
        + rewrite elem_of_app. intros [Hin|Hin]; [contradiction|].
          assert (L < L); [|lia]. apply Hlt. set_solver.
        + apply NoDup_app in Hnd as (Hd1 & Hd2 & Hd3).
          apply NoDup_cons in Hd3 as [_ Hd3].
          apply NoDup_app. split; [done|]. split; [|done].
          intros x Hx Hx'. apply (Hd2 x Hx). set_solver. }
    { intros p Hp. rewrite Eh', length_set_promise, length_alloc_promise.
      rewrite <- EL. simpl in Hp. rewrite !elem_of_cons, elem_of_app in Hp.
      destruct Hp as [->|[->|[Hp|Hp]]]; [lia|lia| |].
      - assert (p < L); [apply Hlt; set_solver|lia].
      - assert (p < L); [apply Hlt; set_solver|lia]. }
    { intros p Hp. destruct (Hq p) as [w Hw]; [set_solver|].
      exists w. rewrite Eh'.
      assert (p < L) by (apply Hlt; set_solver).
      rewrite lookup_set_promise_ne, lookup_alloc_old; auto; [lia|].
      intros ->. apply NoDup_app in Hnd as (_ & _ & Hd).
      apply NoDup_cons in Hd as [Hd _]. contradiction. }
    exists h1, links'. rewrite last_cons. split; [|split; [|split]]; auto.
    + simpl. eapply runs_cons; [|exact Hruns].
      apply (evals_onSuccess_promise outer G h PO _ (Return (VPromise L)));
        [exact HPO|exact HpO|].
      rewrite Eh'. eapply then_on_pending; [exact HG|reflexivity|by rewrite EL].
    + intros p Hp. apply Hsub. simpl. set_solver.
Qed.

(** Fulfilling a quiet promise [F] with a promise [G] that has already
    settled: [F] takes the state and value of [G] within the call. *)
Lemma adopt_settled h F G s w ts cs :
  quiet h F ->
  promises h !! G = Some (mkPromise s w ts cs) ->
  (s = FULFILLED /\ ts = []) \/ (s = REJECTED /\ cs = []) ->
  instanceof_MyPromise w = false ->
  exists h',
    evals (CApply (FOnSuccess F) (VPromise G)) h h' (Return VUndefined) /\
    settlements h' !! F = Some (s, w) /\
    settlements h' !! G = Some (s, w).
Proof.
  intros [u HF] HG Hs Hw.
  assert (HltF := lookup_lt_Some _ _ _ HF).
  assert (HltG := lookup_lt_Some _ _ _ HG).
  assert (HFG : F <> G).
  { intros ->. rewrite HG in HF. injection HF as -> _ _ _.
    destruct Hs as [[? _]|[? _]]; discriminate. }
  remember (length (promises h)) as L eqn:EL.
  destruct Hs as [[-> ->]|[-> ->]].
  - eexists. split; [|split].
    + apply (evals_onSuccess_promise F G h _ _ (Return (VPromise L)) HF eq_refl).
      eapply (then_on_settled QThen) with (r := Return VUndefined);
        [exact HG|reflexivity|reflexivity|by rewrite EL| |].
      * eapply (evals_wrapped_return FThenCb); [by left| |].
        -- apply (fulfil_quiet F w _ (mkPromise PENDING u [] []));
             [hlookup|reflexivity|reflexivity|exact Hw].
        -- apply (fulfil_quiet L VUndefined _ fresh_promise);
             [subst L; hlookup|reflexivity..].
      * eexists. split; [subst L; hlookup|reflexivity].
    + erewrite settlements_lookup_Some by (subst L; hlookup). reflexivity.
    + erewrite settlements_lookup_Some by (subst L; hlookup). reflexivity.
  - eexists. split; [|split].
    + apply (evals_onSuccess_promise F G h _ _ (Return (VPromise L)) HF eq_refl).
      eapply (then_on_settled QCatch) with (r := Throw unhandled);
        [exact HG|reflexivity|reflexivity|by rewrite EL| |].
      * eapply (evals_wrapped_throw FCatchCb) with (e := unhandled) (r := Throw unhandled);
          [by right| |].
        -- apply (evals_onFailed_uncaught F w _ (mkPromise PENDING u [] []));
             [hlookup|reflexivity|reflexivity|exact Hw].
        -- apply (evals_onFailed_uncaught L unhandled _ fresh_promise);
             [subst L; hlookup|reflexivity..].
      * eexists. split; [subst L; hlookup|reflexivity].
    + erewrite settlements_lookup_Some by (subst L; hlookup). reflexivity.
    + erewrite settlements_lookup_Some by (subst L; hlookup). reflexivity.
Qed.

(** ** What a call leaves settled *)

Lemma same_settlement_trans h1 h2 h3 :
  same_settlement h1 h2 -> same_settlement h2 h3 -> same_settlement h1 h3.
Proof.
  intros H12 H23 p P HP Hp.
  destruct (H12 p P HP Hp) as (P2 & HP2 & Hs2 & Hv2).
  destruct (H23 p P2 HP2) as (P3 & HP3 & Hs3 & Hv3).
  - unfold pending in *. by rewrite Hs2.
  - exists P3. split; [exact HP3|]. split; congruence.
Qed.


(** The rest of a computation that continues with calls keeps what is
    settled. *)
Lemma bind_keeps (m : M) (k : Value -> M) h h' r :
  (forall h1 r1, m h = Some (h1, r1) -> same_settlement h h1) ->
  (forall v h1 h2 r2, k v h1 = Some (h2, r2) -> same_settlement h1 h2) ->
  bind m k h = Some (h', r) -> same_settlement h h'.
Proof.
  intros Hm Hk. unfold bind.
  destruct (m h) as [[h1 [v|e]]|] eqn:E; [| |discriminate].
  - intros H. eapply same_settlement_trans; eauto.
  - intros [= <- _]. eauto.
Qed.

Lemma try_catch_keeps (m : M) (k : Value -> M) h h' r :
  (forall h1 r1, m h = Some (h1, r1) -> same_settlement h h1) ->
  (forall v h1 h2 r2, k v h1 = Some (h2, r2) -> same_settlement h1 h2) ->
  try_catch m k h = Some (h', r) -> same_settlement h h'.
Proof.
  intros Hm Hk. unfold try_catch.
  destruct (m h) as [[h1 [v|e]]|] eqn:E; [| |discriminate].
  - intros [= <- _]. eauto.
  - intros H. eapply same_settlement_trans; eauto.
Qed.




(** ** A nest of adoptions *)

Lemma nested_pending h F inner : nested h F inner -> is_pending h F.
Proof. destruct inner; simpl; tauto. Qed.

















(** ** [all] *)

Lemma frames_set_promise p P h : frames (set_promise p P h) = frames h.
Proof. reflexivity. Qed.

Lemma frames_alloc_promise h : frames (alloc_promise h) = frames h.
Proof. reflexivity. Qed.

Lemma evals_all_then_more vars index promiseArray outer v h V :
  frames h !! vars = Some V ->
  resultCount V + 1 <> length promiseArray ->
  evals (CApply (FAllThen vars index promiseArray outer) v) h
    (set_vars vars (mkVars (array_set (results V) index v) (resultCount V + 1)) h)
    (Return VUndefined).
Proof.
  intros HV Hn. exists 1. simpl. unfold all_then. rewrite HV. simpl.
  by rewrite decide_False.
Qed.

Lemma evals_all_then_last vars index promiseArray outer v h V h' r :
  frames h !! vars = Some V ->
  resultCount V + 1 = length promiseArray ->
  evals (CApply (FOnSuccess outer) (VArray vars))
    (set_vars vars (mkVars (array_set (results V) index v) (resultCount V + 1)) h)
    h' r ->
  evals (CApply (FAllThen vars index promiseArray outer) v) h h' (discard r).
Proof.
  intros HV Hn [k H]. exists (S k). simpl. unfold all_then. rewrite HV. simpl.
  rewrite decide_True by done. unfold bind, call. rewrite H. by destruct r.
Qed.


Lemma then_catch_quiet fuel promise onThen onCatch u h :
  promises h !! promise = Some (mkPromise PENDING u [] []) ->
  then_catch (exec (S (S fuel))) promise onThen onCatch h
    = Some (then_catch_heap promise onThen onCatch u h,
            Return (VPromise (S (length (promises h))))).
Proof.
  intros HP. assert (Hlt := lookup_lt_Some _ _ _ HP).
  unfold then_catch, bind.
  rewrite (exec_then_on_pending fuel promise _ _ h _ HP eq_refl).
  unfold catch.
  rewrite (exec_then_on_pending fuel (length (promises h)) None (Some onCatch)
             _ fresh_promise); [|hlookup|reflexivity].
  unfold then_catch_heap, pushed. simpl.
  rewrite length_insert, length_app. simpl.
  replace (length (promises h) + 1) with (S (length (promises h))) by lia.
  reflexivity.
Qed.

Lemma array_set_lookup_eq a i v : array_set a i v !! i = Some (Some v).
Proof.
  unfold array_set. case_decide.
  - by apply list_lookup_insert_eq.
  - rewrite lookup_app_r by lia.
    rewrite lookup_app_r by (rewrite length_replicate; lia).
    rewrite length_replicate.
    replace (i - length a - (i - length a)) with 0 by lia. reflexivity.
Qed.

Lemma array_set_lookup_ne a i j v x :
  i <> j -> a !! j = Some x -> array_set a i v !! j = Some x.
Proof.
  intros Hne Hj. unfold array_set. case_decide.
  - by rewrite list_lookup_insert_ne.
  - rewrite lookup_app_l; [done|]. eauto using lookup_lt_Some.
Qed.

Lemma array_set_length a i v n :
  length a <= n -> i < n -> length (array_set a i v) <= n.
Proof.
  intros Ha Hi. unfold array_set. case_decide.
  - by rewrite length_insert.
  - rewrite !length_app, length_replicate. simpl. lia.
Qed.

Section AllCombinator.

Variables (h0 : Heap) (ps : list loc).
Hypothesis Hnd : NoDup ps.
Hypothesis Hquiet : Forall (quiet h0) ps.

Let O := length (promises h0).
Let fr := length (frames h0).



Lemma input_allocated i p : ps !! i = Some p -> p < O.
Proof.
  intros Hi. rewrite Forall_forall in Hquiet.
  destruct (Hquiet p) as [u Hu]; [by eapply list_elem_of_lookup_2|].
  eauto using lookup_lt_Some.
Qed.

Lemma input_distinct i j p q :
  ps !! i = Some p -> ps !! j = Some q -> i <> j -> p <> q.
Proof. intros Hi Hj Hne ->. apply Hne. eapply NoDup_lookup; eauto. Qed.








Lemma results_after (arr : list (option Value)) done i p v :
  ps !! i = Some p -> p ∉ done.*1 ->
  length arr <= length ps ->
  (forall j q w, ps !! j = Some q -> (q, w) ∈ done -> arr !! j = Some (Some w)) ->
  length (array_set arr i v) <= length ps /\
  forall j q w, ps !! j = Some q -> (q, w) ∈ (p, v) :: done ->
                array_set arr i v !! j = Some (Some w).
Proof.
  intros Hi Hp Hlen Harr. split.
  - apply array_set_length; eauto using lookup_lt_Some.
  - intros j q w Hj Hin. apply elem_of_cons in Hin as [[= -> ->]|Hin].
    + assert (j = i) as -> by (eapply NoDup_lookup; eauto).
      apply array_set_lookup_eq.
    + apply array_set_lookup_ne; [|eauto].
      intros ->. assert (q = p) as -> by congruence.
      apply Hp. apply list_elem_of_fmap. by exists (p, w).
Qed.

Lemma frames_set_vars a V h : frames (set_vars a V h) = <[a := V]> (frames h).
Proof. reflexivity. Qed.








End AllCombinator.




(** The example of the specification: of three pending inputs the second
    is rejected with ["boom"] before the others settle. *)
Lemma all_rejects_example :
  option_map (fun h => settlements h !! 3)
    (run 20 [all [0; 1; 2]; CApply (FOnFailed 1) (VStr "boom");
             CApply (FOnSuccess 0) (VNum 1); CApply (FOnSuccess 2) (VNum 3)]
       three_pending)
  = Some (Some (REJECTED, VStr "boom")).
Proof. vm_compute. reflexivity. Qed.

(** ** The static constructors *)

Lemma evals_resolver_resolve v n h h' r :
  evals (CApply (FOnSuccess n) v) h h' r ->
  evals (CResolver (RResolve v) n) h h' (discard r).
Proof.
  intros [k H]. exists (S k). simpl. unfold bind, call. rewrite H. by destruct r.
Qed.

Lemma evals_resolver_reject e n h h' r :
  evals (CApply (FOnFailed n) e) h h' r ->
  evals (CResolver (RReject e) n) h h' (discard r).
Proof.
  intros [k H]. exists (S k). simpl. unfold bind, call. rewrite H. by destruct r.
Qed.

(** X1.  [MyPromise.resolve(v)] with a value that is not a promise returns a
    new promise fulfilled with [v]; nothing else in the store changes. *)
Theorem static_resolve_fulfils h v :
  instanceof_MyPromise v = false ->
  evals (resolve v) h
    (set_promise (length (promises h)) (mkPromise FULFILLED v [] []) (alloc_promise h))
    (Return (VPromise (length (promises h)))).
Proof.
  intros Hv. eapply evals_new_return.
  apply (evals_resolver_resolve _ _ _ _ (Return VUndefined)).
  apply (fulfil_quiet _ v _ fresh_promise); [hlookup|reflexivity|reflexivity|exact Hv].
Qed.

Lemma static_resolve_fulfils_witness :
  evals (resolve (VNum 5)) empty_heap
    (mkHeap [mkPromise FULFILLED (VNum 5) [] []] [] []) (Return (VPromise 0)).
Proof. apply (static_resolve_fulfils empty_heap (VNum 5)). reflexivity. Defined.

(** X2.  [MyPromise.resolve(G)] with a promise [G] that has already settled
    returns a new promise with the state and value of [G]; for a rejected
    [G] too the call returns. *)
Theorem static_resolve_adopts_settled h G s w ts cs :
  promises h !! G = Some (mkPromise s w ts cs) ->
  (s = FULFILLED /\ ts = []) \/ (s = REJECTED /\ cs = []) ->
  instanceof_MyPromise w = false ->
  exists h',
    evals (resolve (VPromise G)) h h' (Return (VPromise (length (promises h)))) /\
    settlements h' !! length (promises h) = Some (s, w) /\
    settlements h' !! G = Some (s, w).
Proof.
  intros HG Hs Hw. assert (Hlt := lookup_lt_Some _ _ _ HG).
  destruct (adopt_settled (alloc_promise h) (length (promises h)) G s w ts cs)
    as (h' & Hev & HF & HG'); auto.
  - exists VUndefined. hlookup.
  - hlookup.
  - exists h'. split; [|auto].
    eapply evals_new_return.
    apply (evals_resolver_resolve _ _ _ _ (Return VUndefined)). exact Hev.
Qed.

Lemma static_resolve_adopts_settled_witness :
  exists h',
    evals (resolve (VPromise 0)) one_fulfilled h' (Return (VPromise 1)) /\
    settlements h' !! 1 = Some (FULFILLED, VNum 5) /\
    settlements h' !! 0 = Some (FULFILLED, VNum 5).
Proof.
  apply (static_resolve_adopts_settled one_fulfilled 0 FULFILLED (VNum 5) [] []).
  - reflexivity.
  - left. split; reflexivity.
  - reflexivity.
Defined.

(** X3.  [MyPromise.reject(e)] with an error that is not a promise returns a
    new promise rejected with [e].  The UncaughtPromiseError thrown by the
    reject entry point is caught by the constructor, whose own call of the
    entry point finds the promise settled. *)
Theorem static_reject_returns h e :
  instanceof_MyPromise e = false ->
  evals (reject e) h
    (set_promise (length (promises h)) (mkPromise REJECTED e [] []) (alloc_promise h))
    (Return (VPromise (length (promises h)))).
Proof.
  intros He.
  eapply (evals_new_throw _ _ _ _ _ (Return VUndefined)).
  - apply (evals_resolver_reject _ _ _ _ (Throw unhandled)).
    apply (evals_onFailed_uncaught _ e _ fresh_promise);
      [hlookup|reflexivity|reflexivity|exact He].
  - eapply evals_settled; [hlookup|reflexivity].
Qed.

Lemma static_reject_returns_witness :
  evals (reject (VStr "boom")) empty_heap
    (mkHeap [mkPromise REJECTED (VStr "boom") [] []] [] []) (Return (VPromise 0)).
Proof. apply (static_reject_returns empty_heap (VStr "boom")). reflexivity. Defined.

(** X4.  [MyPromise.reject(G)] with a promise as error does not return: the
    entry point throws a ReferenceError, the constructor rejects the new
    promise with that error, and the UncaughtPromiseError of this second
    call leaves the constructor. *)
Theorem static_reject_promise_throws h G :
  evals (reject (VPromise G)) h
    (set_promise (length (promises h))
       (mkPromise REJECTED (VReferenceError "value") [] []) (alloc_promise h))
    (Throw unhandled).
Proof.
  eapply (evals_new_throw _ _ (alloc_promise h) (VReferenceError "value") _ (Throw unhandled)).
  - apply (evals_resolver_reject _ _ _ _ (Throw (VReferenceError "value"))).
    exists 1. cbn [exec step apply]. unfold onFailed.
    by rewrite lookup_alloc_new.
  - apply (evals_onFailed_uncaught _ _ _ fresh_promise);
      [hlookup|reflexivity|reflexivity|reflexivity].
Qed.

(** ** A resolver that settles its promise *)

(** On a promise that has settled, the rest of a resolver body does
    nothing: the store is unchanged and the body ends as its last
    statement says. *)
Lemma user_resolver_settled fuel this P : forall body fin h,
  promises h !! this = Some P -> pending P = false ->
  exec (S (S fuel)) (CResolver (RUser body fin) this) h = Some (h, discard fin).
Proof.
  intros body fin h HP Hs.
  change (user_resolver (exec (S fuel)) body fin this h = Some (h, discard fin)).
  induction body as [|[v|e] body IH]; cbn [user_resolver].
  - by destruct fin.
  - unfold bind, call.
    rewrite (proj1 (entry_points_settled fuel h this P v HP Hs)). exact IH.
  - unfold bind, call.
    rewrite (proj2 (entry_points_settled fuel h this P e HP Hs)). exact IH.
Qed.

Lemma evals_resolver_settled body fin this h P :
  promises h !! this = Some P -> pending P = false ->
  evals (CResolver (RUser body fin) this) h h (discard fin).
Proof. intros HP Hs. exists 2. by apply (user_resolver_settled 0 this P). Qed.

Lemma evals_resolver_resolve_first v rest fin this h h1 w h2 r :
  evals (CApply (FOnSuccess this) v) h h1 (Return w) ->
  evals (CResolver (RUser rest fin) this) h1 h2 r ->
  evals (CResolver (RUser (ActResolve v :: rest) fin) this) h h2 r.
Proof.
  intros [n1 H1] [n2 H2]. exists (S (n1 + n2)).
  apply (exec_mono _ (S (n1 + n2))) in H2; [|lia].
  change (user_resolver (exec (n1 + n2)) rest fin this h1 = Some (h2, r)) in H2.
  change ((call (exec (n1 + n2)) (FOnSuccess this) v;;
           user_resolver (exec (n1 + n2)) rest fin this) h = Some (h2, r)).
  unfold bind, call. fuel_rewrite H1. exact H2.
Qed.

Lemma evals_resolver_reject_first e rest fin this h h1 x :
  evals (CApply (FOnFailed this) e) h h1 (Throw x) ->
  evals (CResolver (RUser (ActReject e :: rest) fin) this) h h1 (Throw x).
Proof.
  intros [n1 H1]. exists (S n1).
  change ((call (exec n1) (FOnFailed this) e;;
           user_resolver (exec n1) rest fin this) h = Some (h1, Throw x)).
  unfold bind, call. by rewrite H1.
Qed.

(** X5.  [new MyPromise(resolver)] with a resolver whose first statement calls
    [resolve(v)] or [reject(v)]: the constructor returns the new promise,
    settled by that call.  Whatever the resolver does afterwards, calling
    the two functions again or throwing, changes nothing; and the
    UncaughtPromiseError thrown by [reject(v)] itself is caught by the
    constructor, unlike an exception thrown by the resolver before it has
    settled the promise. *)
Theorem constructor_first_settlement_wins h (fulfil : bool) v rest fin :
  instanceof_MyPromise v = false ->
  evals (CNew (RUser (first_action fulfil v :: rest) fin)) h
    (set_promise (length (promises h)) (mkPromise (settled_state fulfil) v [] [])
       (alloc_promise h))
    (Return (VPromise (length (promises h)))).
Proof.
  intros Hv.
  set (L := length (promises h)).
  set (h1 := set_promise L (mkPromise (settled_state fulfil) v [] []) (alloc_promise h)).
  assert (Hnew : promises (alloc_promise h) !! L = Some fresh_promise)
    by apply lookup_alloc_new.
  assert (Hset : promises h1 !! L = Some (mkPromise (settled_state fulfil) v [] [])).
  { apply lookup_set_promise_eq. rewrite length_alloc_promise. unfold L. lia. }
  assert (Hdone : pending (mkPromise (settled_state fulfil) v [] []) = false)
    by (by destruct fulfil).
  assert (Hnoop : forall e, evals (CApply (FOnFailed L) e) h1 h1 (Return VUndefined)).
  { intros e. by apply (evals_settled L e h1 _ Hset). }
  destruct fulfil; simpl first_action.
  - assert (Hres : evals (CResolver (RUser (ActResolve v :: rest) fin) L)
                     (alloc_promise h) h1 (discard fin)).
    { eapply evals_resolver_resolve_first.
      - apply (fulfil_quiet L v _ fresh_promise Hnew); auto.
      - by apply (evals_resolver_settled rest fin L h1 _ Hset). }
    destruct fin as [w|e]; simpl in Hres.
    + by apply evals_new_return in Hres.
    + apply (evals_new_throw _ _ _ _ _ (Return VUndefined) Hres (Hnoop e)).
  - assert (Hres : evals (CResolver (RUser (ActReject v :: rest) fin) L)
                     (alloc_promise h) h1 (Throw unhandled)).
    { apply evals_resolver_reject_first.
      apply (evals_onFailed_uncaught L v _ fresh_promise Hnew); auto. }
    apply (evals_new_throw _ _ _ _ _ (Return VUndefined) Hres (Hnoop unhandled)).
Qed.

Lemma constructor_first_settlement_wins_witness :
  evals (CNew (RUser [ActReject (VStr "boom"); ActResolve (VNum 1)]
                 (Throw (VStr "late")))) empty_heap
    (mkHeap [mkPromise REJECTED (VStr "boom") [] []] [] [])
    (Return (VPromise 0)).
Proof.
  apply (constructor_first_settlement_wins empty_heap false (VStr "boom")
           [ActResolve (VNum 1)] (Throw (VStr "late"))).
  reflexivity.
Defined.

(** ** One handler on one promise *)

Lemma settlement_of_eta r :
  (fst (settlement_of r), snd (settlement_of r)) = settlement_of r.
Proof. by destruct (settlement_of r). Qed.

Section ThenOnQuiet.

Variables (h0 : Heap) (F : loc) (u v : Value).
Variables (f : Fn) (g : Heap -> Heap) (t : list (nat * Value)) (r : Completion).

Hypothesis HF : promises h0 !! F = Some (mkPromise PENDING u [] []).
Hypothesis Hv : instanceof_MyPromise v = false.
Hypothesis Hf : forall h, evals (CApply f v) h (g h) r.
Hypothesis Hg_promises : forall h, promises (g h) = promises h.
Hypothesis Hg_trace : forall h, trace (g h) = trace h ++ t.
Hypothesis Hr : plain r = true.

Let L := length (promises h0).

(** The closure around [f], run on the new promise while it is pending
    without callbacks. *)
Lemma wrapped_settles wrap h :
  wrapper wrap ->
  promises h !! L = Some fresh_promise ->
  evals (CApply (wrap (Some f) L) v) h
    (set_promise L
       (mkPromise (fst (settlement_of r)) (snd (settlement_of r)) [] []) (g h))
    (match r with
     | Return _ => Return VUndefined
     | Throw _ => Throw unhandled
     end).
Proof.
  intros Hw HL. assert (Hlt := lookup_lt_Some _ _ _ HL).
  pose proof (Hf h) as Hfh.
  destruct r as [w|x]; simpl in Hr; apply negb_true_iff in Hr.
  - eapply evals_wrapped_return; [exact Hw|exact Hfh|].
    apply (fulfil_quiet L w _ fresh_promise);
      [by rewrite Hg_promises|reflexivity|reflexivity|exact Hr].
  - eapply evals_wrapped_throw with (e := x) (r := Throw unhandled);
      [exact Hw|exact Hfh|].
    apply (evals_onFailed_uncaught L x _ fresh_promise);
      [by rewrite Hg_promises|reflexivity|reflexivity|exact Hr].
Qed.

Lemma then_runs_handler (fulfil : bool) thenCb catchCb :
  (if fulfil then thenCb else catchCb) = Some f ->
  either_order h0 F fulfil v (then_ F thenCb catchCb)
    (handler_outcome h0 F fulfil v t r).
Proof.
  intros Hsel. assert (Hlt := lookup_lt_Some _ _ _ HF). fold L in Hlt.
  assert (Hdone : forall h,
            promises h !! L = Some fresh_promise ->
            exists PL, promises (set_promise L
               (mkPromise (fst (settlement_of r)) (snd (settlement_of r)) [] []) (g h))
                 !! L = Some PL /\ pending PL = false).
  { intros h HL. assert (HltL := lookup_lt_Some _ _ _ HL).
    eexists. split.
    - rewrite promises_set_promise, Hg_promises.
      by apply list_lookup_insert_eq.
    - by destruct r. }
  split.
  - destruct fulfil; subst.
    + eexists. eexists. eexists. split; [|split].
      * apply (fulfil_quiet F v h0 _ HF eq_refl eq_refl Hv).
      * eapply (then_on_settled QThen) with (L := L);
          [hlookup|reflexivity|reflexivity|len_solve| |].
        -- apply (wrapped_settles FThenCb); [by left|].
           subst L. hlookup.
        -- destruct r.
           ++ eexists. split; [rewrite promises_set_promise, Hg_promises; subst L; hlookup|reflexivity].
           ++ apply Hdone. subst L. hlookup.
      * split; [|split].
        -- cbn [trace set_promise]. rewrite Hg_trace. reflexivity.
        -- erewrite settlements_lookup_Some
             by (rewrite promises_set_promise, Hg_promises; subst L; hlookup).
           reflexivity.
        -- erewrite settlements_lookup_Some
             by (rewrite promises_set_promise, Hg_promises; subst L; hlookup).
           apply f_equal, settlement_of_eta.
    + eexists. eexists. eexists. split; [|split].
      * apply (evals_onFailed_uncaught F v h0 _ HF eq_refl eq_refl Hv).
      * eapply (then_on_settled QCatch) with (L := L);
          [hlookup|reflexivity|reflexivity|len_solve| |].
        -- apply (wrapped_settles FCatchCb); [by right|].
           subst L. hlookup.
        -- destruct r.
           ++ eexists. split; [rewrite promises_set_promise, Hg_promises; subst L; hlookup|reflexivity].
           ++ apply Hdone. subst L. hlookup.
      * split; [|split].
        -- cbn [trace set_promise]. rewrite Hg_trace. reflexivity.
        -- erewrite settlements_lookup_Some
             by (rewrite promises_set_promise, Hg_promises; subst L; hlookup).
           reflexivity.
        -- erewrite settlements_lookup_Some
             by (rewrite promises_set_promise, Hg_promises; subst L; hlookup).
           apply f_equal, settlement_of_eta.
  - destruct fulfil; subst.
    + eexists. eexists. eexists. split; [|split].
      * apply (then_on_pending F _ _ h0 _ L HF eq_refl eq_refl).
      * eapply fulfil_one with (cb := FThenCb (Some f) L);
          [subst L; hlookup|reflexivity|reflexivity|exact Hv| |].
        -- apply (wrapped_settles FThenCb); [by left|]. subst L. hlookup.
        -- eexists. split;
             [rewrite promises_set_promise, Hg_promises; subst L; hlookup|reflexivity].
      * split; [|split].
        -- cbn [trace set_promise]. rewrite Hg_trace. reflexivity.
        -- erewrite settlements_lookup_Some
             by (rewrite promises_set_promise, Hg_promises; subst L; hlookup).
           reflexivity.
        -- erewrite settlements_lookup_Some
             by (rewrite promises_set_promise, Hg_promises; subst L; hlookup).
           apply f_equal, settlement_of_eta.
    + eexists. eexists. eexists. split; [|split].
      * apply (then_on_pending F _ _ h0 _ L HF eq_refl eq_refl).
      * eapply reject_one with (cb := FCatchCb (Some f) L);
          [subst L; hlookup|reflexivity|reflexivity|exact Hv| |].
        -- apply (wrapped_settles FCatchCb); [by right|]. subst L. hlookup.
        -- eexists. split;
             [rewrite promises_set_promise, Hg_promises; subst L; hlookup|reflexivity].
      * split; [|split].
        -- cbn [trace set_promise]. rewrite Hg_trace. reflexivity.
        -- erewrite settlements_lookup_Some
             by (rewrite promises_set_promise, Hg_promises; subst L; hlookup).
           reflexivity.
        -- erewrite settlements_lookup_Some
             by (rewrite promises_set_promise, Hg_promises; subst L; hlookup).
           apply f_equal, settlement_of_eta.
Qed.

End ThenOnQuiet.

(** X6.  [F.then(thenCb, catchCb)] on a pending promise [F] without callbacks
    that is fulfilled or rejected with [v], before or after the call, where
    [v] and the value the handler for that state returns or throws on [v]
    are not promises.  Of the two handlers only the one for the state [F]
    settles in is invoked, once, with [v]; the promise [then] returned is
    fulfilled with the value the handler returns, also when the handler is
    the rejection handler, and rejected with the value it throws. *)
Theorem then_invokes_one_handler h0 F u v (fulfil : bool) thenCb catchCb id body :
  promises h0 !! F = Some (mkPromise PENDING u [] []) ->
  instanceof_MyPromise v = false ->
  (if fulfil then thenCb else catchCb) = Some (FUser id body) ->
  plain (body v) = true ->
  either_order h0 F fulfil v (then_ F thenCb catchCb)
    (handler_outcome h0 F fulfil v [(id, v)] (body v)).
Proof.
  intros HF Hv Hsel Hplain.
  apply (then_runs_handler h0 F u v (FUser id body) (log id v)); auto.
  intros h. apply evals_user.
Qed.

Lemma then_invokes_one_handler_witness :
  either_order one_pending 0 false (VStr "boom")
    (then_ 0 (Some (FUser 1 (fun x => Return x)))
             (Some (FUser 2 (fun _ => Return (VNum 0)))))
    (handler_outcome one_pending 0 false (VStr "boom")
       [(2, VStr "boom")] (Return (VNum 0))).
Proof.
  apply (then_invokes_one_handler one_pending 0 VUndefined (VStr "boom") false
           (Some (FUser 1 (fun x => Return x)))
           (Some (FUser 2 (fun _ => Return (VNum 0)))) 2 (fun _ => Return (VNum 0)));
    reflexivity.
Defined.









(** ** Chains of any length *)

Lemma settlement_of_outcome r :
  settlement_of r = outcome_settlement (completion_outcome r).
Proof. by destruct r. Qed.

(** One [then] call on a promise that has settled as [o] and has no
    callback left in the array for its state. *)
Lemma then_link_settled h p P (o : Outcome) (l : Link) n :
  promises h !! p = Some P ->
  state P = settled_state (fst o) -> value P = snd o ->
  queue (if fst o then QThen else QCatch) P = [] ->
  instanceof_MyPromise (snd o) = false ->
  instanceof_MyPromise (snd (link_result o l)) = false ->
  length (promises h) = n ->
  exists h1,
    evals (then_ p (user <$> fst l) (user <$> snd l)) h h1 (Return (VPromise n)) /\
    promises h1 !! n
      = Some (mkPromise (settled_state (fst (link_result o l)))
                (snd (link_result o l)) [] []) /\
    length (promises h1) = S n /\
    trace h1 = trace h ++ link_trace o l /\
    forall q, q < n -> settlements h1 !! q = settlements h !! q.
Proof.
  intros HP Hst Hval HQ Ho Hres Hn.
  assert (Hlt := lookup_lt_Some _ _ _ HP). rewrite Hn in Hlt.
  destruct o as [b v]. destruct l as [tc cc]. simpl in *.
  unfold link_result, link_trace, handler_for in *. simpl in *.
  set (q := if b then QThen else QCatch) in *.
  set (ha := set_promise p (with_queue q [] (pushed (user <$> tc) (user <$> cc) n P))
               (alloc_promise h)).
  assert (Hframe : forall h1, (forall x, x <> n -> promises h1 !! x = promises ha !! x) ->
            forall x, x < n -> settlements h1 !! x = settlements h !! x).
  { intros h1 Hsame x Hx. rewrite !settlements_lookup, Hsame by lia.
    unfold ha. destruct (decide (x = p)) as [->|Hne].
    - rewrite lookup_set_promise_eq by (rewrite length_alloc_promise; lia).
      rewrite HP. by destruct q.
    - rewrite lookup_set_promise_ne by done.
      rewrite lookup_alloc_old by lia. reflexivity. }
  assert (Hfresh : promises ha !! n = Some fresh_promise).
  { unfold ha. subst n. hlookup. }
  assert (Hlena : length (promises ha) = S n).
  { unfold ha. subst n. len_solve. }
  assert (HPv : value P = v) by exact Hval.
  destruct (if b then tc else cc) as [f|] eqn:Hsel.
  - (* a handler for the state *)
    assert (Hplain : plain (snd f v) = true).
    { destruct (snd f v); simpl in *; by rewrite Hres. }
    pose proof (wrapped_user_settles (if b then FThenCb else FCatchCb)
                  (fst f) (snd f) n v ha) as Hw.
    exists (set_promise n
              (mkPromise (fst (settlement_of (snd f v))) (snd (settlement_of (snd f v))) [] [])
              (log (fst f) v ha)).
    split; [|split; [|split; [|split]]].
    + eapply (then_on_settled q) with (L := n);
        [exact HP|by destruct b|by destruct b|exact Hn| |].
      * rewrite HPv. fold ha.
        replace (match q with
                 | QThen => FThenCb (user <$> tc) n
                 | QCatch => FCatchCb (user <$> cc) n
                 end)
          with ((if b then FThenCb else FCatchCb) (Some (FUser (fst f) (snd f))) n)
          by (destruct b; simpl in *; by rewrite Hsel).
        apply Hw; [destruct b; [by left|by right]|exact Hfresh|exact Hplain].
      * fold ha. destruct (snd f v).
        -- eexists. split; [hsimpl; unfold ha; hlookup|].
           by destruct q.
        -- eexists. split; [apply lookup_set_promise_eq; rewrite ?promises_log, Hlena; lia|reflexivity].
    + rewrite lookup_set_promise_eq by (rewrite ?promises_log, Hlena; lia).
      by destruct (snd f v).
    + simpl. rewrite length_insert. exact Hlena.
    + reflexivity.
    + apply Hframe. intros x Hx. by rewrite lookup_set_promise_ne.
  - (* no handler: the settlement is passed on *)
    exists (set_promise n (mkPromise (settled_state b) v [] []) ha).
    split; [|split; [|split; [|split]]].
    + eapply (then_on_settled q) with (L := n)
        (r := if b then Return VUndefined else Throw unhandled);
        [exact HP|by destruct b|by destruct b|exact Hn| |].
      * rewrite HPv. fold ha. destruct b; simpl in Hsel; first [subst tc|subst cc]; simpl.
        -- apply (evals_thenCb_none _ _ _ _ (Return VUndefined)).
           apply (fulfil_quiet _ v ha fresh_promise Hfresh);
             [reflexivity|reflexivity|exact Ho].
        -- apply (evals_catchCb_none _ _ _ _ (Throw unhandled)).
           apply (evals_onFailed_uncaught _ v ha fresh_promise Hfresh);
             [reflexivity|reflexivity|exact Ho].
      * fold ha. destruct b.
        -- eexists. split; [hsimpl; unfold ha; hlookup|reflexivity].
        -- eexists. split; [apply lookup_set_promise_eq; rewrite Hlena; lia|reflexivity].
    + apply lookup_set_promise_eq. rewrite Hlena. lia.
    + simpl. rewrite length_insert. exact Hlena.
    + simpl. by rewrite app_nil_r.
    + apply Hframe. intros x Hx. by rewrite lookup_set_promise_ne.
Qed.

Lemma chain_plain_cons o l rest :
  chain_plain o (l :: rest) = true ->
  instanceof_MyPromise (snd (link_result o l)) = false /\
  chain_plain (link_result o l) rest = true.
Proof.
  simpl. intros H. apply andb_true_iff in H as [H1 H2].
  apply negb_true_iff in H1. auto.
Qed.

(** A chain built on a promise that has already settled: every [then]
    call runs its closure at once. *)
Lemma chain_on_settled : forall links h p P (o : Outcome) n,
  promises h !! p = Some P ->
  state P = settled_state (fst o) -> value P = snd o ->
  queue (if fst o then QThen else QCatch) P = [] ->
  instanceof_MyPromise (snd o) = false ->
  chain_plain o links = true ->
  length (promises h) = n ->
  exists h',
    chains (fn_link <$> links) (VPromise p) h h'
      (Return (VPromise (chain_end p n (length links)))) /\
    trace h' = trace h ++ chain_trace o links /\
    (forall q, q < n -> settlements h' !! q = settlements h !! q) /\
    forall i oi, chain_results o links !! i = Some oi ->
      settlements h' !! (n + i) = Some (outcome_settlement oi).
Proof.
  induction links as [|l links IH]; intros h p P o n HP Hst Hval HQ Ho Hpl Hn.
  - exists h. split; [apply chains_nil|]. split; [by rewrite app_nil_r|].
    split; [done|]. intros i oi Hi. discriminate.
  - apply chain_plain_cons in Hpl as [Hres Hpl].
    destruct (then_link_settled h p P o l n HP Hst Hval HQ Ho Hres Hn)
      as (h1 & Hthen & Hnew & Hlen1 & Htr1 & Hfr1).
    destruct (IH h1 n _ (link_result o l) (S n) Hnew eq_refl eq_refl)
      as (h' & Hch & Htr & Hfr & Hres'); auto.
    { by destruct (fst (link_result o l)). }
    exists h'. split; [|split; [|split]].
    + simpl. destruct l as [tc cc].
      eapply chains_cons; [exact Hthen|].
      replace (n + length links) with (chain_end n (S n) (length links)); [exact Hch|].
      destruct (length links); simpl; lia.
    + rewrite Htr, Htr1. simpl. by rewrite <- app_assoc.
    + intros q Hq. rewrite Hfr by lia. by apply Hfr1.
    + intros [|i] oi Hi; simpl in Hi.
      * injection Hi as <-. rewrite Nat.add_0_r, Hfr by lia.
        by rewrite (settlements_lookup_Some _ _ _ Hnew).
      * replace (n + S i) with (S n + i) by lia. by apply Hres'.
Qed.

Lemma linked_frame : forall links h h' p n,
  (forall q, p <= q -> promises h' !! q = promises h !! q) ->
  p < n -> linked h p n links -> linked h' p n links.
Proof.
  induction links as [|l links IH]; simpl; intros h h' p n Hsame Hpn.
  - intros [u Hu]. exists u. by rewrite Hsame.
  - intros ([u Hu] & Hrest). split.
    + exists u. by rewrite Hsame.
    + apply (IH h h' n (S n)); [|lia|exact Hrest].
      intros q Hq. apply Hsame. lia.
Qed.

(** A chain built on a pending promise without callbacks. *)
Lemma chain_on_pending : forall links h p n,
  quiet h p -> p < n -> length (promises h) = n ->
  exists h',
    chains (fn_link <$> links) (VPromise p) h h'
      (Return (VPromise (chain_end p n (length links)))) /\
    linked h' p n links /\
    trace h' = trace h /\
    length (promises h') = n + length links /\
    forall q, q < n -> q <> p -> promises h' !! q = promises h !! q.
Proof.
  induction links as [|l links IH]; intros h p n [u Hu] Hpn Hn.
  - exists h. split; [apply chains_nil|]. split; [by exists u|].
    split; [done|]. split; [simpl; lia|done].
  - destruct l as [tc cc].
    pose (h1 := set_promise p (pushed (user <$> tc) (user <$> cc) n
                                 (mkPromise PENDING u [] [])) (alloc_promise h)).
    assert (Hthen : evals (then_ p (user <$> tc) (user <$> cc)) h h1 (Return (VPromise n))).
    { apply (then_on_pending p _ _ h _ n Hu eq_refl Hn). }
    destruct (IH h1 n (S n)) as (h' & Hch & Hlk & Htr & Hlen & Hfr).
    { exists VUndefined. unfold h1. subst n. hlookup. }
    { lia. }
    { unfold h1. subst n. len_solve. }
    exists h'. split; [|split; [|split; [|split]]].
    + simpl. eapply chains_cons; [exact Hthen|].
      replace (n + length links) with (chain_end n (S n) (length links)); [exact Hch|].
      destruct (length links); simpl; lia.
    + simpl. split; [|exact Hlk].
      exists u. rewrite Hfr by lia. unfold h1. subst n. hlookup.
    + rewrite Htr. reflexivity.
    + rewrite Hlen. simpl. lia.
    + intros q Hq Hqp. rewrite Hfr by lia. unfold h1. subst n. hsimpl. reflexivity.
Qed.

Lemma wrapper_wrap_of b : wrapper (wrap_of b).
Proof. destruct b; [by left|by right]. Qed.

(** Settling a pending promise whose only callback for the state is
    [cb]. *)
Lemma settle_one (b : bool) p v h P cb h2 r :
  promises h !! p = Some P -> pending P = true ->
  queue (queue_of b) P = [cb] ->
  instanceof_MyPromise v = false ->
  evals (CApply cb v)
    (set_promise p (with_queue (queue_of b) [] (settled (settled_state b) v P)) h)
    h2 r ->
  (exists P2, promises h2 !! p = Some P2 /\ queue (queue_of b) P2 = []) ->
  evals (settle_call b p v) h h2 (discard r).
Proof.
  intros HP Hs HQ Hv Hcb Hafter. destruct b; simpl in *.
  - eapply fulfil_one; eauto.
  - eapply reject_one; eauto.
Qed.

(** Settling a pending promise without callbacks. *)
Lemma settle_quiet (b : bool) p v h u :
  promises h !! p = Some (mkPromise PENDING u [] []) ->
  instanceof_MyPromise v = false ->
  evals (settle_call b p v) h
    (set_promise p (mkPromise (settled_state b) v [] []) h)
    (if b then Return VUndefined else Throw unhandled).
Proof.
  intros HP Hv. destruct b; simpl.
  - apply (fulfil_quiet p v h _ HP); auto.
  - apply (evals_onFailed_uncaught p v h _ HP); auto.
Qed.

Lemma evals_wrapped_none (b : bool) n v h h' r :
  evals (settle_call b n v) h h' r ->
  evals (CApply (wrap_of b None n) v) h h' (discard r).
Proof.
  destruct b; simpl; [apply evals_thenCb_none|apply evals_catchCb_none].
Qed.

Lemma discard_signal r :
  r = Return VUndefined \/ r = Throw unhandled -> discard r = r.
Proof. by intros [-> | ->]. Qed.

(** Settling the first promise of a chain built while it was pending:
    the settlement runs down the chain within the call. *)
Lemma settle_linked : forall links h p n (o : Outcome),
  linked h p n links -> p < n ->
  instanceof_MyPromise (snd o) = false ->
  chain_plain o links = true ->
  exists h' r,
    evals (settle_call (fst o) p (snd o)) h h' r /\
    (r = Return VUndefined \/ r = Throw unhandled) /\
    (exists P', promises h' !! p = Some P' /\
                state P' = settled_state (fst o) /\ value P' = snd o /\
                queue (queue_of (fst o)) P' = []) /\
    trace h' = trace h ++ chain_trace o links /\
    (forall q, q < n -> q <> p -> promises h' !! q = promises h !! q) /\
    forall i oi, chain_results o links !! i = Some oi ->
      settlements h' !! (n + i) = Some (outcome_settlement oi).
Proof.
  induction links as [|l links IH]; intros h p n [b v] Hlk Hpn Hv Hpl; simpl in Hv.
  - destruct Hlk as [u Hu]. assert (Hlt := lookup_lt_Some _ _ _ Hu).
    exists (set_promise p (mkPromise (settled_state b) v [] []) h),
           (if b then Return VUndefined else Throw unhandled).
    split; [by apply (settle_quiet b p v h u)|].
    split; [destruct b; auto|]. split; [|split; [|split]].
    + eexists. split; [by apply lookup_set_promise_eq|]. by destruct b.
    + simpl. by rewrite app_nil_r.
    + intros q _ Hq. by rewrite lookup_set_promise_ne.
    + intros i oi Hi. discriminate.
  - destruct Hlk as ([u Hu] & Hlk). assert (Hlt := lookup_lt_Some _ _ _ Hu).
    apply chain_plain_cons in Hpl as [Hres Hpl].
    destruct l as [tc cc].
    set (P := mkPromise PENDING u [FThenCb (user <$> tc) n] [FCatchCb (user <$> cc) n]) in *.
    set (o := (b, v)) in *.
    set (ha := set_promise p (with_queue (queue_of b) [] (settled (settled_state b) v P)) h).
    assert (HQ : queue (queue_of b) P = [wrap_of b (user <$> handler_for o (tc, cc)) n]).
    { by destruct b. }
    assert (Hpa : promises ha !! p
                  = Some (with_queue (queue_of b) [] (settled (settled_state b) v P))).
    { by apply lookup_set_promise_eq. }
    assert (Hdone : forall h', promises h' !! p = promises ha !! p ->
              exists P', promises h' !! p = Some P' /\
                         state P' = settled_state b /\ value P' = v /\
                         queue (queue_of b) P' = []).
    { intros h' E. eexists. split; [by rewrite E, Hpa|]. by destruct b. }
    assert (Hlka : forall hx, promises hx = promises ha -> linked hx n (S n) links).
    { intros hx E. apply (linked_frame links h hx n (S n)); [|lia|exact Hlk].
      intros q Hq. rewrite E. unfold ha. apply lookup_set_promise_ne. lia. }
    assert (Hframe : forall hx h', promises hx = promises ha ->
              (forall q, q < S n -> q <> n -> promises h' !! q = promises hx !! q) ->
              forall q, q < n -> q <> p -> promises h' !! q = promises h !! q).
    { intros hx h' E Hfr q Hq Hqp. rewrite Hfr, E by lia.
      unfold ha. by apply lookup_set_promise_ne. }
    assert (Hself : forall hx h', promises hx = promises ha ->
              (forall q, q < S n -> q <> n -> promises h' !! q = promises hx !! q) ->
              promises h' !! p = promises ha !! p).
    { intros hx h' E Hfr. rewrite Hfr, E by lia. reflexivity. }
    unfold link_result, link_trace in *. fold o in Hres, Hpl.
    destruct (handler_for o (tc, cc)) as [f|] eqn:Hsel; simpl in HQ.
    + (* a handler for the state *)
      pose (hl := log (fst f) v ha).
      assert (Hf : evals (CApply (user f) v) ha hl (snd f v)) by apply evals_user.
      destruct (IH hl n (S n) (completion_outcome (snd f v)))
        as (h' & r' & Hev & Hr' & (Pn & HPn & HsPn & HvPn & _) & Htr & Hfr & Hrs);
        [by apply Hlka|lia|exact Hres|exact Hpl|].
      assert (Hwrap : evals (CApply (wrap_of b (Some (user f)) n) v) ha h'
                        (match snd f v with
                         | Return _ => Return VUndefined
                         | Throw _ => r'
                         end)).
      { destruct (snd f v) as [w|e] eqn:Hfv; simpl in Hev.
        - destruct Hr' as [-> | ->].
          + eapply evals_wrapped_return; [apply wrapper_wrap_of|exact Hf|exact Hev].
          + apply (evals_wrapped_resolve_throw (wrap_of b) (user f) n v ha hl w h'
                     unhandled h' (Return VUndefined));
              [apply wrapper_wrap_of|exact Hf|exact Hev|].
            apply (evals_settled n unhandled h' Pn HPn).
            unfold pending. rewrite HsPn. reflexivity.
        - rewrite <- (discard_signal r' Hr').
          eapply evals_wrapped_throw; [apply wrapper_wrap_of|exact Hf|exact Hev]. }
      eexists h', _. split; [|split; [|split; [|split; [|split]]]].
      * eapply (settle_one b p v h P); [exact Hu|reflexivity|exact HQ|exact Hv|exact Hwrap|].
        destruct (Hdone h' (Hself hl h' eq_refl Hfr)) as (P' & HP' & _ & _ & HQ').
        eauto.
      * destruct (snd f v); simpl; auto. destruct Hr' as [-> | ->]; auto.
      * apply Hdone. apply (Hself hl h' eq_refl Hfr).
      * rewrite Htr. simpl. unfold link_trace, link_result. rewrite Hsel.
        simpl. by rewrite <- app_assoc.
      * apply (Hframe hl h' eq_refl Hfr).
      * intros i oi Hi. simpl in Hi. unfold link_result in Hi. rewrite Hsel in Hi.
        destruct i as [|i]; simpl in Hi.
        -- injection Hi as <-. rewrite Nat.add_0_r.
           rewrite (settlements_lookup_Some _ _ _ HPn).
           unfold outcome_settlement. by rewrite HsPn, HvPn.
        -- replace (n + S i) with (S n + i) by lia. by apply Hrs.
    + (* no handler: the settlement is passed on *)
      destruct (IH ha n (S n) o)
        as (h' & r' & Hev & Hr' & (Pn & HPn & HsPn & HvPn & _) & Htr & Hfr & Hrs);
        [by apply Hlka|lia|exact Hv|exact Hpl|].
      exists h', r'. split; [|split; [exact Hr'|split; [|split; [|split]]]].
      * rewrite <- (discard_signal r' Hr') at 1.
        rewrite <- (discard_signal r' Hr') at 1.
        eapply (settle_one b p v h P); [exact Hu|reflexivity|exact HQ|exact Hv| |].
        -- apply evals_wrapped_none. exact Hev.
        -- destruct (Hdone h' (Hself ha h' eq_refl Hfr)) as (P' & HP' & _ & _ & HQ').
           eauto.
      * apply Hdone. apply (Hself ha h' eq_refl Hfr).
      * rewrite Htr. simpl. unfold link_trace, link_result. rewrite Hsel.
        reflexivity.
      * apply (Hframe ha h' eq_refl Hfr).
      * intros i oi Hi. simpl in Hi. unfold link_result in Hi. rewrite Hsel in Hi.
        destruct i as [|i]; simpl in Hi.
        -- injection Hi as <-. rewrite Nat.add_0_r.
           rewrite (settlements_lookup_Some _ _ _ HPn).
           unfold outcome_settlement. by rewrite HsPn, HvPn.
        -- replace (n + S i) with (S n + i) by lia. by apply Hrs.
Qed.

(** X10.  A chain [F.then(a1, b1).then(a2, b2)...] of any length, on a pending
    promise [F] without callbacks that is settled before or after the
    chain is built, with handlers whose values are not promises.  The
    settlement travels down the chain link by link: a link with a handler
    for the state of the promise before it invokes that handler and settles
    its own promise by the handler's completion (fulfilled with the value
    returned, rejected with the value thrown); a link without such a
    handler passes the settlement on unchanged.  No other handler is
    invoked, and the invocations happen in chain order. *)
Theorem chain_settles_link_by_link h0 F u (o : Outcome) links :
  promises h0 !! F = Some (mkPromise PENDING u [] []) ->
  instanceof_MyPromise (snd o) = false ->
  chain_plain o links = true ->
  chain_runs h0 F o links.
Proof.
  intros HF Ho Hpl. assert (Hlt := lookup_lt_Some _ _ _ HF).
  destruct o as [b v]. simpl in Ho. split.
  - pose (h1 := set_promise F (mkPromise (settled_state b) v [] []) h0).
    destruct (chain_on_settled links h1 F (mkPromise (settled_state b) v [] [])
                (b, v) (length (promises h0)))
      as (h2 & Hch & Htr & Hfr & Hrs); auto.
    { by apply lookup_set_promise_eq. }
    { by destruct b. }
    { apply length_set_promise. }
    exists h1, (if b then Return VUndefined else Throw unhandled), h2.
    split; [by apply (settle_quiet b F v h0 u)|]. split; [exact Hch|].
    split; [exact Htr|]. split; [|exact Hrs].
    rewrite Hfr by exact Hlt.
    unfold h1. erewrite settlements_lookup_Some by (by apply lookup_set_promise_eq).
    reflexivity.
  - destruct (chain_on_pending links h0 F (length (promises h0)))
      as (h1 & Hch & Hlk & Htr1 & _ & _); [by exists u|exact Hlt|reflexivity|].
    destruct (settle_linked links h1 F (length (promises h0)) (b, v) Hlk Hlt Ho Hpl)
      as (h2 & r & Hev & _ & (P' & HP' & Hs' & Hv' & _) & Htr & _ & Hrs).
    exists h1, h2, r. split; [exact Hch|]. split; [exact Hev|].
    split; [by rewrite Htr, Htr1|]. split; [|exact Hrs].
    rewrite (settlements_lookup_Some _ _ _ HP').
    unfold outcome_settlement. by rewrite Hs', Hv'.
Qed.

Lemma chain_settles_link_by_link_witness :
  chain_runs one_pending 0 (true, VNum 5)
    [(Some (1, fun _ => Throw (VStr "boom")), None);
     (Some (2, fun _ => Return (VNum 7)), None);
     (None, Some (3, fun x => Return x));
     (Some (4, fun x => Return x), None)].
Proof.
  apply (chain_settles_link_by_link one_pending 0 VUndefined); reflexivity.
Defined.

(** ** A handler that returns a promise *)






(** ** Several handlers on one promise *)

Lemma then_cbs_snoc fs : forall n f,
  then_cbs n (fs ++ [f]) = then_cbs n fs ++ [FThenCb (Some (user f)) (n + length fs)].
Proof.
  induction fs as [|g fs IH]; intros n f; simpl.
  - by rewrite Nat.add_0_r.
  - rewrite IH. replace (n + S (length fs)) with (S n + length fs) by lia.
    reflexivity.
Qed.

Lemma attach_run F : forall fs h P,
  promises h !! F = Some P -> pending P = true ->
  runs (attach_calls F fs) h
    (mkHeap
       (<[F := mkPromise (state P) (value P)
                 (reverse (then_cbs (length (promises h)) fs) ++ thenCbs P)
                 (reverse (catch_cbs (length (promises h)) (length fs)) ++ catchCbs P)]>
          (promises h) ++ replicate (length fs) fresh_promise)
       (frames h) (trace h)).
Proof.
  induction fs as [|f fs IH]; intros h P HP Hs.
  - simpl. rewrite app_nil_r.
    replace (mkPromise (state P) (value P) (thenCbs P) (catchCbs P)) with P
      by by destruct P.
    rewrite list_insert_id by exact HP.
    destruct h. apply runs_nil.
  - assert (Hlt := lookup_lt_Some _ _ _ HP).
    eapply runs_cons.
    { apply (then_on_pending F (Some (user f)) None h P _ HP Hs eq_refl). }
    pose proof (IH (set_promise F (pushed (Some (user f)) None (length (promises h)) P)
                      (alloc_promise h))
                   (pushed (Some (user f)) None (length (promises h)) P)) as H.
    match type of H with
    | _ -> _ -> runs _ _ ?X =>
        match goal with
        | |- runs _ _ ?Y => replace Y with X; [apply H; [hlookup|exact Hs]|]
        end
    end.
    cbn [frames trace set_promise alloc_promise]. f_equal.
    rewrite promises_set_promise, promises_alloc_promise.
    rewrite list_insert_insert_eq, length_insert, length_app.
    cbn [length pushed state value thenCbs catchCbs then_cbs catch_cbs replicate].
    rewrite Nat.add_1_r, !reverse_cons, <- !app_assoc.
    rewrite insert_app_l by exact Hlt.
    rewrite <- app_assoc. reflexivity.
Qed.

Lemma returns_plain_inv v f :
  returns_plain v f = true ->
  exists w, snd f v = Return w /\ instanceof_MyPromise w = false.
Proof.
  unfold returns_plain. destruct (snd f v) as [w|x]; [|discriminate].
  intros H. apply negb_true_iff in H. eauto.
Qed.

(** The loop of [#runCallbacks] over the closures of handlers that all
    return: they run from the last one pushed to the first, each new
    promise takes its handler's value, and the loop goes on with the
    callbacks below them. *)
Lemma drain_segment F v cs n : forall fs h rest,
  F < n ->
  promises h !! F = Some (mkPromise FULFILLED v (reverse (then_cbs n fs) ++ rest) cs) ->
  (forall i, i < length fs -> promises h !! (n + i) = Some fresh_promise) ->
  Forall (fun f => returns_plain v f = true) fs ->
  exists hd,
    promises hd !! F = Some (mkPromise FULFILLED v rest cs) /\
    trace hd = trace h ++ reverse (invocations fs v) /\
    frames hd = frames h /\
    length (promises hd) = length (promises h) /\
    (forall i f, fs !! i = Some f ->
       settlements hd !! (n + i) = Some (settlement_of (snd f v))) /\
    (forall p, p <> F -> p < n \/ n + length fs <= p ->
       promises hd !! p = promises h !! p) /\
    forall h' r, evals (CRunCallbacks F QThen) hd h' r ->
                 evals (CRunCallbacks F QThen) h h' r.
Proof.
  induction fs as [|f fs IH] using rev_ind; intros h rest HFn HF Hfresh Hret.
  - exists h. simpl in HF. rewrite app_nil_r.
    repeat split; auto. intros i f Hi. discriminate.
  - apply Forall_app in Hret as [Hret Hf]. rewrite Forall_singleton in Hf.
    destruct (returns_plain_inv _ _ Hf) as (w & Hw & Hwp).
    rewrite then_cbs_snoc, reverse_snoc in HF. simpl in HF.
    set (m := n + length fs) in *.
    assert (HltF := lookup_lt_Some _ _ _ HF).
    assert (Hm : promises h !! m = Some fresh_promise).
    { apply Hfresh. rewrite length_app. simpl. lia. }
    assert (Hltm := lookup_lt_Some _ _ _ Hm).
    pose (ha := set_promise F
                  (mkPromise FULFILLED v (reverse (then_cbs n fs) ++ rest) cs) h).
    pose (hb := set_promise m (mkPromise FULFILLED w [] []) (log (fst f) v ha)).
    assert (Hcb : evals (CApply (FThenCb (Some (user f)) m) v) ha hb (Return VUndefined)).
    { pose proof (wrapped_user_settles FThenCb (fst f) (snd f) m v ha) as H.
      rewrite Hw in H. simpl in H. apply H; [by left|unfold ha; hlookup|].
      simpl. by rewrite Hwp. }
    destruct (IH hb rest HFn) as (hd & HdF & Hdt & Hdf & Hdl & Hds & Hdo & Hdr).
    + unfold hb, ha. hlookup.
    + intros i Hi. unfold hb, ha. hsimpl. apply Hfresh.
      rewrite length_app. simpl. lia.
    + exact Hret.
    + unfold m in Hdo. exists hd.
      split; [exact HdF|]. split; [|split; [|split; [|split; [|split]]]].
      * rewrite Hdt. unfold invocations. rewrite map_app. cbn [map].
        rewrite reverse_snoc. cbn [trace hb ha set_promise log].
        by rewrite <- app_assoc.
      * rewrite Hdf. reflexivity.
      * rewrite Hdl. unfold hb, ha. len_solve.
      * intros i g Hi. apply lookup_snoc_Some in Hi as [[Hlt Hi]|[Hlen <-]].
        -- by apply Hds.
        -- subst i. rewrite settlements_lookup, Hdo; [|lia|right; reflexivity].
           fold m.
           unfold hb. rewrite lookup_set_promise_eq by (unfold ha; len_solve).
           by rewrite Hw.
      * intros p HpF Hp. rewrite length_app in Hp. simpl in Hp.
        rewrite Hdo by lia. unfold hb, ha. hsimpl. reflexivity.
      * intros h' r Hrun.
        eapply evals_run_cons; [exact HF|reflexivity|exact Hcb|].
        apply Hdr. exact Hrun.
Qed.

Lemma then_cbs_app fs gs : forall n,
  then_cbs n (fs ++ gs) = then_cbs n fs ++ then_cbs (n + length fs) gs.
Proof.
  induction fs as [|f fs IH]; intros n; simpl.
  - by rewrite Nat.add_0_r.
  - rewrite IH. replace (n + S (length fs)) with (S n + length fs) by lia.
    reflexivity.
Qed.

(** The store after [F.then(f1); F.then(f2); ...] on a pending promise
    without callbacks. *)
Lemma attach_quiet h0 F u fs :
  promises h0 !! F = Some (mkPromise PENDING u [] []) ->
  exists h1,
    runs (attach_calls F fs) h0 h1 /\
    promises h1 !! F
      = Some (mkPromise PENDING u
                (reverse (then_cbs (length (promises h0)) fs))
                (reverse (catch_cbs (length (promises h0)) (length fs)))) /\
    length (promises h1) = length (promises h0) + length fs /\
    trace h1 = trace h0 /\
    forall i, i < length fs ->
      promises h1 !! (length (promises h0) + i) = Some fresh_promise.
Proof.
  intros HF. assert (Hlt := lookup_lt_Some _ _ _ HF).
  eexists. split; [apply (attach_run F fs h0 _ HF eq_refl)|].
  cbn [promises trace state value thenCbs catchCbs]. rewrite !app_nil_r.
  split; [|split; [|split]].
  - rewrite lookup_app_l by (rewrite length_insert; exact Hlt).
    by apply list_lookup_insert_eq.
  - by rewrite length_app, length_insert, length_replicate.
  - reflexivity.
  - intros i Hi. rewrite lookup_app_r by (rewrite length_insert; lia).
    rewrite length_insert. apply lookup_replicate. split; [reflexivity|lia].
Qed.

(** X12.  Handlers attached by separate [then] calls to the same pending
    promise without other callbacks, each of which returns a value that is
    not a promise, run in the reverse of the order in which they were
    attached when the promise is fulfilled with [v] (not a promise):
    [#runCallbacks] takes the callbacks from the end of the array.  Each
    promise [then] returned is fulfilled with the value its handler
    returns. *)
Theorem callbacks_run_last_in_first_out h0 F u v fs :
  promises h0 !! F = Some (mkPromise PENDING u [] []) ->
  instanceof_MyPromise v = false ->
  Forall (fun f => returns_plain v f = true) fs ->
  exists h1 h2,
    runs (attach_calls F fs) h0 h1 /\
    evals (CApply (FOnSuccess F) v) h1 h2 (Return VUndefined) /\
    trace h2 = trace h0 ++ reverse (invocations fs v) /\
    forall i f, fs !! i = Some f ->
      settlements h2 !! (length (promises h0) + i)
        = Some (settlement_of (snd f v)).
Proof.
  intros HF Hv Hret. assert (Hlt := lookup_lt_Some _ _ _ HF).
  destruct (attach_quiet h0 F u fs HF) as (h1 & Hruns & HF1 & Hlen1 & Htr1 & Hfresh).
  assert (Hlt1 := lookup_lt_Some _ _ _ HF1).
  destruct (drain_segment F v
              (reverse (catch_cbs (length (promises h0)) (length fs)))
              (length (promises h0)) fs
              (set_promise F
                 (mkPromise FULFILLED v (reverse (then_cbs (length (promises h0)) fs))
                    (reverse (catch_cbs (length (promises h0)) (length fs)))) h1) [])
    as (hd & HdF & Hdt & _ & _ & Hds & _ & Hdr); auto.
  - rewrite app_nil_r. hlookup.
  - intros i Hi. hsimpl. by apply Hfresh.
  - exists h1, hd. split; [exact Hruns|]. split; [|split].
    + eapply evals_onSuccess_value; [exact HF1|reflexivity|exact Hv|].
      apply Hdr. eapply evals_run_nil; [exact HdF|reflexivity].
    + rewrite Hdt. cbn [trace set_promise]. by rewrite Htr1.
    + exact Hds.
Qed.

Lemma callbacks_run_last_in_first_out_witness :
  exists h1 h2,
    runs (attach_calls 0 [(1, fun x => Return x); (2, fun _ => Return (VNum 0))])
      one_pending h1 /\
    evals (CApply (FOnSuccess 0) (VNum 5)) h1 h2 (Return VUndefined) /\
    trace h2 = [(2, VNum 5); (1, VNum 5)] /\
    forall i f, [(1, fun x => Return x); (2, fun _ => Return (VNum 0))] !! i = Some f ->
      settlements h2 !! (1 + i) = Some (settlement_of (snd f (VNum 5))).
Proof.
  apply (callbacks_run_last_in_first_out one_pending 0 VUndefined (VNum 5)
           [(1, fun x => Return x); (2, fun _ => Return (VNum 0))]).
  - reflexivity.
  - reflexivity.
  - repeat (apply Forall_cons; split; [reflexivity|]). apply Forall_nil_2.
Defined.

(** X13.  A handler that throws ends the loop of [#runCallbacks].  Let the
    handlers [early], then [thrower], then [late] be attached by separate
    [then] calls to the pending promise [F] without other callbacks; on
    [v] the thrower throws [x], the others return, and [v], [x] and the
    values returned are not promises.  When [F] is fulfilled with [v], the
    handlers of [late] and the thrower are invoked, and since the
    thrower's promise has no rejection callback the UncaughtPromiseError
    leaves the loop and the call that fulfilled [F].  The handlers of
    [early] were not invoked; their closures stay in the array, and the
    next [then] on [F], with a handler [k] that returns a value that is not
    a promise, runs the array again and invokes them after [k]. *)
Theorem throwing_callback_postpones_earlier h0 F u v early thrower late x k :
  promises h0 !! F = Some (mkPromise PENDING u [] []) ->
  instanceof_MyPromise v = false ->
  Forall (fun f => returns_plain v f = true) early ->
  Forall (fun f => returns_plain v f = true) late ->
  snd thrower v = Throw x ->
  instanceof_MyPromise x = false ->
  returns_plain v k = true ->
  let fs := early ++ thrower :: late in
  exists h1 h2 h3,
    runs (attach_calls F fs) h0 h1 /\
    evals (CApply (FOnSuccess F) v) h1 h2 (Throw unhandled) /\
    trace h2 = trace h0 ++ reverse (invocations late v) ++ [(fst thrower, v)] /\
    settlements h2 !! F = Some (FULFILLED, v) /\
    evals (then_ F (Some (user k)) None) h2 h3
      (Return (VPromise (length (promises h0) + length fs))) /\
    trace h3 = trace h2 ++ (fst k, v) :: reverse (invocations early v).
Proof.
  intros HF Hv Hearly Hlate Hthrow Hx Hk fs.
  assert (Hlt := lookup_lt_Some _ _ _ HF).
  set (L := length (promises h0)) in *.
  destruct (attach_quiet h0 F u fs HF) as (h1 & Hruns & HF1 & Hlen1 & Htr1 & Hfresh).
  fold L in HF1, Hlen1, Hfresh.
  assert (Hlt1 := lookup_lt_Some _ _ _ HF1).
  set (cs := reverse (catch_cbs L (length fs))) in *.
  set (m := L + length early).
  assert (Hstack : reverse (then_cbs L fs)
                   = reverse (then_cbs (S m) late)
                     ++ FThenCb (Some (user thrower)) m :: reverse (then_cbs L early)).
  { unfold fs. rewrite then_cbs_app. simpl. fold m.
    rewrite reverse_app, reverse_cons, <- app_assoc. reflexivity. }
  assert (Hlenfs : length fs = length early + S (length late)).
  { unfold fs. rewrite length_app. reflexivity. }
  (* the callbacks of [late] *)
  destruct (drain_segment F v cs (S m) late
              (set_promise F (mkPromise FULFILLED v (reverse (then_cbs L fs)) cs) h1)
              (FThenCb (Some (user thrower)) m :: reverse (then_cbs L early)))
    as (hd & HdF & Hdt & _ & Hdl & _ & Hdo & Hdr); auto.
  { unfold m. lia. }
  { rewrite <- Hstack. hlookup. }
  { intros i Hi. hsimpl. replace (S m + i) with (L + (S (length early) + i))
      by (unfold m; lia). try rewrite list_lookup_insert_ne by lia.
    apply Hfresh. lia. }
  assert (HltFd := lookup_lt_Some _ _ _ HdF).
  (* the callback of [thrower] *)
  pose (ha := set_promise F (mkPromise FULFILLED v (reverse (then_cbs L early)) cs) hd).
  pose (h2 := set_promise m (mkPromise REJECTED x [] []) (log (fst thrower) v ha)).
  assert (Hm : promises hd !! m = Some fresh_promise).
  { rewrite Hdo by (unfold m; lia). hsimpl.
    try rewrite list_lookup_insert_ne by (unfold m; lia).
    apply Hfresh. lia. }
  assert (Hltm := lookup_lt_Some _ _ _ Hm).
  assert (Hcb : evals (CApply (FThenCb (Some (user thrower)) m) v) ha h2 (Throw unhandled)).
  { pose proof (wrapped_user_settles FThenCb (fst thrower) (snd thrower) m v ha) as H.
    rewrite Hthrow in H. simpl in H. apply H; [by left|unfold ha; hsimpl|].
    - try rewrite list_lookup_insert_ne by (unfold m; lia). exact Hm.
    - simpl. by rewrite Hx. }
  assert (HF2 : promises h2 !! F
                = Some (mkPromise FULFILLED v (reverse (then_cbs L early)) cs)).
  { unfold h2, ha. hlookup. }
  assert (HltF2 := lookup_lt_Some _ _ _ HF2).
  assert (Hlen2 : length (promises h2) = L + length fs).
  { unfold h2, ha. hsimpl. rewrite Hdl. hsimpl. exact Hlen1. }
  (* the next [then] *)
  set (K := L + length fs) in *.
  pose (hb := set_promise F (mkPromise FULFILLED v (reverse (then_cbs L early))
                               (FCatchCb None K :: cs)) (alloc_promise h2)).
  destruct (returns_plain_inv _ _ Hk) as (w & Hw & Hwp).
  pose (hc := set_promise K (mkPromise FULFILLED w [] []) (log (fst k) v hb)).
  assert (Hcbk : evals (CApply (FThenCb (Some (user k)) K) v) hb hc (Return VUndefined)).
  { pose proof (wrapped_user_settles FThenCb (fst k) (snd k) K v hb) as H.
    rewrite Hw in H. simpl in H. apply H; [by left| |].
    - unfold hb. hsimpl. try rewrite list_lookup_insert_ne by (unfold K; lia).
      rewrite <- Hlen2. by apply list_lookup_middle.
    - simpl. by rewrite Hwp. }
  destruct (drain_segment F v (FCatchCb None K :: cs) L early hc [])
    as (he & HeF & Het & _ & _ & _ & _ & Her); auto.
  { rewrite app_nil_r. unfold hc, hb. hsimpl.
    try rewrite list_lookup_insert_ne by (unfold K; lia).
    apply list_lookup_insert_eq. rewrite length_app. lia. }
  { intros i Hi. unfold hc, hb. hsimpl.
    try rewrite list_lookup_insert_ne by (unfold K; lia).
    try rewrite list_lookup_insert_ne by lia.
    rewrite lookup_app_l by lia.
    unfold h2, ha. hsimpl.
    try rewrite list_lookup_insert_ne by (unfold m; lia).
    try rewrite list_lookup_insert_ne by lia.
    rewrite Hdo by lia. hsimpl. try rewrite list_lookup_insert_ne by lia.
    apply Hfresh. lia. }
  exists h1, h2, he. split; [exact Hruns|].
  split; [|split; [|split; [|split]]].
  - eapply evals_onSuccess_value; [exact HF1|reflexivity|exact Hv|].
    apply Hdr. eapply evals_run_cons_throw; [exact HdF|reflexivity|exact Hcb].
  - unfold h2, ha. cbn [trace set_promise log]. rewrite Hdt.
    cbn [trace set_promise]. rewrite Htr1, <- app_assoc. reflexivity.
  - by rewrite (settlements_lookup_Some _ _ _ HF2).
  - rewrite <- Hlen2. eapply evals_new_return.
    eapply evals_then_resolver_fulfilled
      with (P := mkPromise FULFILLED v (reverse (then_cbs L early)) cs);
      [|reflexivity|].
    + rewrite lookup_alloc_old by lia. exact HF2.
    + unfold pushed. cbn [state value thenCbs catchCbs]. rewrite Hlen2. fold K.
      eapply evals_run_cons
        with (P := mkPromise FULFILLED v
                     (FThenCb (Some (user k)) K :: reverse (then_cbs L early))
                     (FCatchCb None K :: cs));
        [|reflexivity| |].
      * apply lookup_set_promise_eq. rewrite length_alloc_promise. lia.
      * cbn [with_queue state value thenCbs catchCbs]. rewrite set_promise_twice.
        exact Hcbk.
      * apply Her. eapply evals_run_nil; [exact HeF|reflexivity].
  - rewrite Het. unfold hc, hb. cbn [trace set_promise log alloc_promise].
    by rewrite <- app_assoc.
Qed.

Lemma throwing_callback_postpones_earlier_witness :
  exists h1 h2 h3,
    runs (attach_calls 0 [(1, fun x => Return x); (2, fun _ => Throw (VStr "t"))])
      one_pending h1 /\
    evals (CApply (FOnSuccess 0) (VNum 5)) h1 h2 (Throw unhandled) /\
    trace h2 = [(2, VNum 5)] /\
    settlements h2 !! 0 = Some (FULFILLED, VNum 5) /\
    evals (then_ 0 (Some (user (3, fun x => Return x))) None) h2 h3
      (Return (VPromise 3)) /\
    trace h3 = trace h2 ++ [(3, VNum 5); (1, VNum 5)].
Proof.
  apply (throwing_callback_postpones_earlier one_pending 0 VUndefined (VNum 5)
           [(1, fun x => Return x)] (2, fun _ => Throw (VStr "t")) []
           (VStr "t") (3, fun x => Return x)).
  - reflexivity.
  - reflexivity.
  - apply Forall_cons. split; [reflexivity|apply Forall_nil_2].
  - apply Forall_nil_2.
  - reflexivity.
  - reflexivity.
  - reflexivity.
Defined.

(** ** The loop of a combinator *)

Lemma runs_trans cs1 cs2 h h1 h2 :
  runs cs1 h h1 -> runs cs2 h1 h2 -> runs (cs1 ++ cs2) h h2.
Proof.
  intros [n1 H1] [n2 H2]. exists (n1 + n2).
  apply (run_mono _ n1 (n1 + n2)) in H1; [|lia].
  apply (run_mono _ n2 (n1 + n2)) in H2; [|lia].
  revert h H1. induction cs1 as [|c cs1 IH]; simpl; intros h H1.
  - injection H1 as ->. exact H2.
  - destruct (exec (n1 + n2) c h) as [[h' r]|]; [|discriminate]. auto.
Qed.

(** A promise that has settled stays as it is through any later calls. *)
Lemma settlement_kept h O s v fuel cs h' :
  settlements h !! O = Some (s, v) -> s <> PENDING ->
  run fuel cs h = Some h' -> settlements h' !! O = Some (s, v).
Proof.
  intros HO Hs Hrun. rewrite settlements_lookup in HO.
  destruct (promises h !! O) as [P|] eqn:HP; [|discriminate].
  injection HO as Hst Hval.
  destruct (run_settled_forever _ _ _ _ Hrun O P HP) as (P' & HP' & Hs' & Hv').
  { apply pending_false. congruence. }
  rewrite settlements_lookup, HP'. simpl. congruence.
Qed.

Section Registration.

Variables (h0 : Heap) (ps : list loc).
Variables (onThen onCatch : nat -> Fn).
Hypothesis Hnd : NoDup ps.
Hypothesis Hquiet : Forall (quiet h0) ps.

Let O := length (promises h0).

(** Input number [i], the promise [p], carries the callbacks registered by
    the loop body [promise.then(onThen).catch(onCatch)]; [then] returned
    the promise at [S O + 2 * i] and [catch] the next one. *)
Definition attached (h : Heap) (i : nat) (p : loc) : Prop :=
  (exists u, promises h !! p
     = Some (mkPromise PENDING u
               [FThenCb (Some (onThen i)) (S O + 2 * i)]
               [FCatchCb None (S O + 2 * i)])) /\
  promises h !! (S O + 2 * i)
    = Some (mkPromise PENDING VUndefined
              [FThenCb None (S (S O) + 2 * i)]
              [FCatchCb (Some (onCatch i)) (S (S O) + 2 * i)]) /\
  promises h !! (S (S O) + 2 * i) = Some fresh_promise.

Lemma attached_frame h h' i p :
  attached h i p ->
  promises h' !! p = promises h !! p ->
  promises h' !! (S O + 2 * i) = promises h !! (S O + 2 * i) ->
  promises h' !! (S (S O) + 2 * i) = promises h !! (S (S O) + 2 * i) ->
  attached h' i p.
Proof.
  intros ([u Hp] & H1 & H2) E0 E1 E2. unfold attached.
  rewrite E0, E1, E2. eauto.
Qed.

(** The store after [k] turns of the loop. *)
Definition looped (h : Heap) (k : nat) : Prop :=
  length (promises h) = S O + 2 * k /\
  promises h !! O = Some fresh_promise /\
  (forall i p, ps !! i = Some p -> i < k -> attached h i p) /\
  (forall i p, ps !! i = Some p -> k <= i -> quiet h p).

Lemma looped_same h h' k :
  promises h' = promises h -> looped h k -> looped h' k.
Proof.
  intros E (Hlen & HO & Hreg & Hq). unfold looped, attached, quiet in *.
  rewrite E. auto.
Qed.

Lemma looped_start h :
  promises h = promises (alloc_promise h0) -> looped h 0.
Proof.
  intros E. unfold looped, quiet. rewrite E.
  split; [|split; [|split]].
  - rewrite length_alloc_promise. fold O. lia.
  - apply lookup_alloc_new.
  - intros i p _ Hi. lia.
  - intros i p Hi _. rewrite Forall_forall in Hquiet.
    destruct (Hquiet p) as [u Hu]; [by eapply list_elem_of_lookup_2|].
    exists u. rewrite lookup_alloc_old; eauto using lookup_lt_Some.
Qed.

Lemma looped_step h k p u :
  looped h k -> ps !! k = Some p ->
  promises h !! p = Some (mkPromise PENDING u [] []) ->
  looped (then_catch_heap p (onThen k) (onCatch k) u h) (S k).
Proof.
  intros (Hlen & HO & Hreg & Hq) Hk Hp.
  assert (HpO := input_allocated _ _ Hquiet _ _ Hk). fold O in HpO.
  unfold then_catch_heap. rewrite Hlen.
  split; [|split; [|split]].
  - len_solve.
  - hsimpl. exact HO.
  - intros i q Hi Hlt.
    assert (HqO := input_allocated _ _ Hquiet _ _ Hi). fold O in HqO.
    destruct (decide (i = k)) as [->|Hne].
    + assert (q = p) as -> by congruence.
      split; [|split].
      * exists u. hlookup.
      * hlookup.
      * replace (S (S O) + 2 * k) with (S (S O + 2 * k)) by lia. hlookup.
    + assert (Hpq := input_distinct _ Hnd _ _ _ _ Hi Hk Hne).
      eapply attached_frame; [apply (Hreg i q Hi); lia|hsimpl; reflexivity..].
  - intros i q Hi Hle.
    assert (HqO := input_allocated _ _ Hquiet _ _ Hi). fold O in HqO.
    assert (Hpq : q <> p) by (eapply (input_distinct _ Hnd); eauto; lia).
    destruct (Hq i q Hi) as [w Hw]; [lia|].
    exists w. hsimpl. exact Hw.
Qed.

Lemma frames_then_catch_heap p f g u h :
  frames (then_catch_heap p f g u h) = frames h.
Proof. reflexivity. Qed.

Lemma trace_then_catch_heap p f g u h :
  trace (then_catch_heap p f g u h) = trace h.
Proof. reflexivity. Qed.

Lemma looped_run fuel : forall rest k h,
  drop k ps = rest -> k <= length ps -> looped h k ->
  exists h',
    forEach (fun promise index =>
               then_catch (exec (S (S fuel))) promise (onThen index) (onCatch index))
            rest k h = Some (h', Return VUndefined) /\
    looped h' (length ps) /\ frames h' = frames h /\ trace h' = trace h.
Proof.
  induction rest as [|p rest IH]; intros k h Hdrop Hk Hloop.
  - exists h. split; [reflexivity|]. split; [|done].
    assert (length ps <= k).
    { apply (f_equal length) in Hdrop. rewrite length_drop in Hdrop.
      simpl in Hdrop. lia. }
    by replace (length ps) with k by lia.
  - assert (Hpk : ps !! k = Some p).
    { rewrite <- (Nat.add_0_r k), <- lookup_drop, Hdrop. reflexivity. }
    pose proof Hloop as (Hlen & HO & Hreg & Hq).
    destruct (Hq k p Hpk) as [u Hu]; [lia|].
    destruct (IH (S k) (then_catch_heap p (onThen k) (onCatch k) u h))
      as (h' & Hrun & Hloop' & Hfr & Htr).
    + rewrite (drop_S ps p k Hpk) in Hdrop. congruence.
    + apply lookup_lt_Some in Hpk. lia.
    + apply looped_step; [exact Hloop|exact Hpk|exact Hu].
    + exists h'. split; [|split; [exact Hloop'|split; [exact Hfr|exact Htr]]].
      simpl. unfold bind at 1.
      rewrite (then_catch_quiet fuel p _ _ u h Hu). exact Hrun.
Qed.

End Registration.

(** ** [race] *)

Section Race.

Variables (h0 : Heap) (ps : list loc).
Hypothesis Hnd : NoDup ps.
Hypothesis Hquiet : Forall (quiet h0) ps.

Let O := length (promises h0).
Let race_loop := looped h0 ps (fun _ => FOnSuccess O) (fun _ => FOnFailed O).

Lemma race_call :
  exists h1,
    evals (race ps) h0 h1 (Return (VPromise O)) /\ race_loop h1 (length ps).
Proof.
  destruct (looped_run h0 ps (fun _ => FOnSuccess O) (fun _ => FOnFailed O)
              Hnd Hquiet 0 ps 0 (alloc_promise h0))
    as (h1 & Hrun & Hloop & _); [reflexivity|lia|by apply looped_start|].
  exists h1. split; [|exact Hloop].
  exists 4.
  change (exec 4 (race ps) h0) with (constructor (exec 3) (RRace ps) h0).
  unfold constructor, bind, try_catch.
  change (exec 3 (CResolver (RRace ps) (length (promises h0))) (alloc_promise h0))
    with (race_resolver (exec 2) ps (length (promises h0)) (alloc_promise h0)).
  unfold race_resolver. fold O. rewrite Hrun. reflexivity.
Qed.

Lemma race_fulfil h i p v :
  race_loop h (length ps) -> ps !! i = Some p ->
  instanceof_MyPromise v = false ->
  exists h',
    evals (CApply (FOnSuccess p) v) h h' (Return VUndefined) /\
    settlements h' !! O = Some (FULFILLED, v).
Proof.
  intros (Hlen & HO & Hreg & _) Hi Hv.
  destruct (Hreg i p Hi) as ([u Hu] & HN1 & HN2); [eauto using lookup_lt_Some|].
  assert (HpO := input_allocated _ _ Hquiet _ _ Hi). fold O in HpO.
  assert (Hlt1 := lookup_lt_Some _ _ _ HN1).
  assert (Hlt2 := lookup_lt_Some _ _ _ HN2).
  assert (HltO := lookup_lt_Some _ _ _ HO).
  pose (ha := set_promise p
                (mkPromise FULFILLED v [] [FCatchCb None (S O + 2 * i)]) h).
  pose (ho := set_promise O (mkPromise FULFILLED v [] []) ha).
  pose (hc := set_promise (S O + 2 * i)
                (mkPromise FULFILLED VUndefined []
                   [FCatchCb (Some (FOnFailed O)) (S (S O) + 2 * i)]) ho).
  pose (hd := set_promise (S (S O) + 2 * i)
                (mkPromise FULFILLED VUndefined [] []) hc).
  exists hd. split.
  - eapply (fulfil_one p v h _ _ hd (Return VUndefined));
      [exact Hu|reflexivity|reflexivity|exact Hv| |].
    + eapply (evals_wrapped_return FThenCb) with (h1 := ho); [by left| |].
      * apply (fulfil_quiet O v ha fresh_promise);
          [unfold ha; hlookup|reflexivity|reflexivity|exact Hv].
      * eapply (fulfil_one (S O + 2 * i) VUndefined ho _ _ hd (Return VUndefined));
          [unfold ho, ha; hlookup|reflexivity|reflexivity|reflexivity| |].
        -- apply (evals_thenCb_none _ _ _ _ (Return VUndefined)).
           apply (fulfil_quiet (S (S O) + 2 * i) VUndefined hc fresh_promise);
             [unfold hc, ho, ha; hlookup|reflexivity..].
        -- eexists. split; [unfold hd, hc, ho, ha; hlookup|reflexivity].
    + eexists. split; [unfold hd, hc, ho, ha; hlookup|reflexivity].
  - erewrite settlements_lookup_Some by (unfold hd, hc, ho, ha; hlookup).
    reflexivity.
Qed.

Lemma race_reject h i p e :
  race_loop h (length ps) -> ps !! i = Some p ->
  instanceof_MyPromise e = false ->
  exists h',
    evals (CApply (FOnFailed p) e) h h' (Throw unhandled) /\
    settlements h' !! O = Some (REJECTED, e).
Proof.
  intros (Hlen & HO & Hreg & _) Hi He.
  destruct (Hreg i p Hi) as ([u Hu] & HN1 & HN2); [eauto using lookup_lt_Some|].
  assert (HpO := input_allocated _ _ Hquiet _ _ Hi). fold O in HpO.
  assert (Hlt1 := lookup_lt_Some _ _ _ HN1).
  assert (Hlt2 := lookup_lt_Some _ _ _ HN2).
  assert (HltO := lookup_lt_Some _ _ _ HO).
  pose (ha := set_promise p
                (mkPromise REJECTED e
                   [FThenCb (Some (FOnSuccess O)) (S O + 2 * i)] []) h).
  pose (hb := set_promise (S O + 2 * i)
                (mkPromise REJECTED e [FThenCb None (S (S O) + 2 * i)] []) ha).
  pose (ho := set_promise O (mkPromise REJECTED e [] []) hb).
  pose (hd := set_promise (S (S O) + 2 * i)
                (mkPromise REJECTED unhandled [] []) ho).
  exists hd. split.
  - eapply (reject_one p e h _ _ hd (Throw unhandled));
      [exact Hu|reflexivity|reflexivity|exact He| |].
    + apply (evals_catchCb_none _ _ _ _ (Throw unhandled)).
      eapply (reject_one (S O + 2 * i) e ha _ _ hd (Throw unhandled));
        [unfold ha; hlookup|reflexivity|reflexivity|exact He| |].
      * eapply (evals_wrapped_throw FCatchCb) with
          (h1 := ho) (e := unhandled) (r := Throw unhandled); [by right| |].
        -- apply (evals_onFailed_uncaught O e hb fresh_promise);
             [unfold hb, ha; hlookup|reflexivity|reflexivity|exact He].
        -- apply (evals_onFailed_uncaught (S (S O) + 2 * i) unhandled ho fresh_promise);
             [unfold ho, hb, ha; hlookup|reflexivity..].
      * eexists. split; [unfold hd, ho, hb, ha; hlookup|reflexivity].
    + eexists. split; [unfold hd, ho, hb, ha; hlookup|reflexivity].
  - erewrite settlements_lookup_Some
      by (unfold hd, ho, hb, ha; hlookup). reflexivity.
Qed.

End Race.

(** X14.  [race] on distinct pending inputs without callbacks settles as the
    first input that settles, whichever it is and either way; inputs that
    settle later change nothing. *)
Theorem race_first_settlement_wins h0 ps pj fulfil v :
  NoDup ps ->
  Forall (quiet h0) ps ->
  pj ∈ ps ->
  instanceof_MyPromise v = false ->
  race_outcome h0 ps pj fulfil v.
Proof.
  intros Hnd Hq Hpj Hv.
  destruct (race_call h0 ps Hnd Hq) as (h1 & Hcall & Hloop).
  apply list_elem_of_lookup in Hpj as [j Hj].
  assert (HO1 : settlements h1 !! length (promises h0) = Some (PENDING, VUndefined)).
  { destruct Hloop as (_ & HO & _). by rewrite (settlements_lookup_Some _ _ _ HO). }
  destruct fulfil.
  - destruct (race_fulfil h0 ps Hq h1 j pj v Hloop Hj Hv) as (h2 & Hev & HO).
    exists h1, h2, (Return VUndefined).
    repeat split; auto. intros fuel cs h3 Hrun.
    by apply (settlement_kept h2 _ _ _ fuel cs h3 HO).
  - destruct (race_reject h0 ps Hq h1 j pj v Hloop Hj Hv) as (h2 & Hev & HO).
    exists h1, h2, (Throw unhandled).
    repeat split; auto. intros fuel cs h3 Hrun.
    by apply (settlement_kept h2 _ _ _ fuel cs h3 HO).
Qed.

Lemma race_first_settlement_wins_witness :
  race_outcome three_pending [0; 1; 2] 1 false (VStr "boom").
Proof.
  apply race_first_settlement_wins.
  - repeat (apply NoDup_cons; split; [set_solver|]). apply NoDup_nil_2.
  - repeat (apply Forall_cons; split; [by exists VUndefined|]). apply Forall_nil_2.
  - set_solver.
  - reflexivity.
Defined.

(** ** [any] *)

Lemma evals_any_then outer v h h' r :
  evals (CApply (FOnSuccess outer) v) h h' r ->
  evals (CApply (FAnyThen outer) v) h h' (discard r).
Proof.
  intros [k H]. exists (S k). simpl. unfold bind, call. rewrite H. by destruct r.
Qed.

Section Any.

Variables (h0 : Heap) (ps : list loc).
Hypothesis Hnd : NoDup ps.
Hypothesis Hquiet : Forall (quiet h0) ps.

Let O := length (promises h0).
Let fr := length (frames h0).
Let any_attached := attached h0 (fun _ => FAnyThen O) (fun i => FAnyCatch fr i ps O).

(** The store while inputs are being rejected: [done] lists the inputs
    rejected so far. *)
Definition any_state (h : Heap) (done : list loc) : Prop :=
  frames h !! fr = Some (mkVars [] (length done)) /\
  promises h !! O = Some fresh_promise /\
  (forall i p, ps !! i = Some p -> p ∉ done -> any_attached h i p).

Lemma any_call :
  exists h1,
    evals (any ps) h0 h1 (Return (VPromise O)) /\ any_state h1 [].
Proof.
  destruct (looped_run h0 ps (fun _ => FAnyThen O) (fun i => FAnyCatch fr i ps O)
              Hnd Hquiet 0 ps 0 (alloc_vars (alloc_promise h0)))
    as (h1 & Hrun & Hloop & Hfr & _); [reflexivity|lia|by apply looped_start|].
  exists h1. split.
  - exists 4.
    change (exec 4 (any ps) h0) with (constructor (exec 3) (RAny ps) h0).
    unfold constructor, bind, try_catch.
    change (exec 3 (CResolver (RAny ps) (length (promises h0))) (alloc_promise h0))
      with (any_resolver (exec 2) ps (length (promises h0)) (alloc_promise h0)).
    unfold any_resolver. fold O. rewrite frames_alloc_promise. fold fr.
    rewrite Hrun. reflexivity.
  - destruct Hloop as (_ & HO & Hreg & _). split; [|split].
    + rewrite Hfr. simpl. by apply list_lookup_middle.
    + exact HO.
    + intros i p Hi _. apply Hreg; [exact Hi|]. eauto using lookup_lt_Some.
Qed.

(** Rejecting an input: the rejection is counted, the callback throws,
    and the promise returned by [any] is not touched. *)
Lemma any_reject_step h done i p e :
  any_state h done -> ps !! i = Some p -> p ∉ done ->
  instanceof_MyPromise e = false ->
  exists h',
    evals (CApply (FOnFailed p) e) h h' (Throw unhandled) /\
    any_state h' (p :: done).
Proof.
  intros (Hfr & HO & Hreg) Hi Hp He.
  destruct (Hreg i p Hi Hp) as ([u Hu] & HN1 & HN2).
  assert (HpO := input_allocated _ _ Hquiet _ _ Hi). fold O in HpO.
  assert (Hlt1 := lookup_lt_Some _ _ _ HN1).
  assert (Hlt2 := lookup_lt_Some _ _ _ HN2).
  assert (HltO := lookup_lt_Some _ _ _ HO).
  assert (Hltf := lookup_lt_Some _ _ _ Hfr).
  pose (ha := set_promise p
                (mkPromise REJECTED e
                   [FThenCb (Some (FAnyThen O)) (S O + 2 * i)] []) h).
  pose (hb := set_promise (S O + 2 * i)
                (mkPromise REJECTED e [FThenCb None (S (S O) + 2 * i)] []) ha).
  pose (hv := set_vars fr (mkVars [] (length done + 1)) hb).
  pose (hd := set_promise (S (S O) + 2 * i)
                (mkPromise REJECTED (VReferenceError "value") [] []) hv).
  exists hd. split.
  - eapply (reject_one p e h _ _ hd (Throw unhandled));
      [exact Hu|reflexivity|reflexivity|exact He| |].
    + apply (evals_catchCb_none _ _ _ _ (Throw unhandled)).
      eapply (reject_one (S O + 2 * i) e ha _ _ hd (Throw unhandled));
        [unfold ha; hlookup|reflexivity|reflexivity|exact He| |].
      * eapply (evals_wrapped_throw FCatchCb) with
          (h1 := hv) (e := VReferenceError "value") (r := Throw unhandled);
          [by right| |].
        -- exists 1.
           apply (any_catch_throws 0 hb fr i ps O e (mkVars [] (length done))).
           exact Hfr.
        -- apply (evals_onFailed_uncaught (S (S O) + 2 * i) _ hv fresh_promise);
             [unfold hv, hb, ha; hlookup|reflexivity..].
      * eexists. split; [unfold hd, hv, hb, ha; hlookup|reflexivity].
    + eexists. split; [unfold hd, hv, hb, ha; hlookup|reflexivity].
  - split; [|split].
    + unfold hd, hv, hb, ha. simpl.
      rewrite list_lookup_insert_eq by exact Hltf. by rewrite Nat.add_1_r.
    + unfold hd, hv, hb, ha. hsimpl. exact HO.
    + intros j q Hj Hq. apply not_elem_of_cons in Hq as [Hqp Hq].
      assert (Hji : j <> i) by (intros ->; congruence).
      assert (HqO := input_allocated _ _ Hquiet _ _ Hj). fold O in HqO.
      eapply attached_frame; [apply (Hreg j q Hj Hq)|..];
        unfold hd, hv, hb, ha; hsimpl; reflexivity.
Qed.

(** Fulfilling an input while the promise returned by [any] is pending
    fulfils that promise with the same value. *)
Lemma any_fulfil_step h done i p v :
  any_state h done -> ps !! i = Some p -> p ∉ done ->
  instanceof_MyPromise v = false ->
  exists h',
    evals (CApply (FOnSuccess p) v) h h' (Return VUndefined) /\
    settlements h' !! O = Some (FULFILLED, v).
Proof.
  intros (Hfr & HO & Hreg) Hi Hp Hv.
  destruct (Hreg i p Hi Hp) as ([u Hu] & HN1 & HN2).
  assert (HpO := input_allocated _ _ Hquiet _ _ Hi). fold O in HpO.
  assert (Hlt1 := lookup_lt_Some _ _ _ HN1).
  assert (Hlt2 := lookup_lt_Some _ _ _ HN2).
  assert (HltO := lookup_lt_Some _ _ _ HO).
  pose (ha := set_promise p
                (mkPromise FULFILLED v [] [FCatchCb None (S O + 2 * i)]) h).
  pose (ho := set_promise O (mkPromise FULFILLED v [] []) ha).
  pose (hc := set_promise (S O + 2 * i)
                (mkPromise FULFILLED VUndefined []
                   [FCatchCb (Some (FAnyCatch fr i ps O)) (S (S O) + 2 * i)]) ho).
  pose (hd := set_promise (S (S O) + 2 * i)
                (mkPromise FULFILLED VUndefined [] []) hc).
  exists hd. split.
  - eapply (fulfil_one p v h _ _ hd (Return VUndefined));
      [exact Hu|reflexivity|reflexivity|exact Hv| |].
    + eapply (evals_wrapped_return FThenCb) with (h1 := ho); [by left| |].
      * apply (evals_any_then O v ha ho (Return VUndefined)).
        apply (fulfil_quiet O v ha fresh_promise);
          [unfold ha; hlookup|reflexivity|reflexivity|exact Hv].
      * eapply (fulfil_one (S O + 2 * i) VUndefined ho _ _ hd (Return VUndefined));
          [unfold ho, ha; hlookup|reflexivity|reflexivity|reflexivity| |].
        -- apply (evals_thenCb_none _ _ _ _ (Return VUndefined)).
           apply (fulfil_quiet (S (S O) + 2 * i) VUndefined hc fresh_promise);
             [unfold hc, ho, ha; hlookup|reflexivity..].
        -- eexists. split; [unfold hd, hc, ho, ha; hlookup|reflexivity].
    + eexists. split; [unfold hd, hc, ho, ha; hlookup|reflexivity].
  - erewrite settlements_lookup_Some by (unfold hd, hc, ho, ha; hlookup).
    reflexivity.
Qed.

Lemma any_reject_run : forall evs done h,
  any_state h done ->
  NoDup (evs.*1 ++ done) ->
  (forall p e, (p, e) ∈ evs -> p ∈ ps /\ instanceof_MyPromise e = false) ->
  exists h',
    runs (reject_calls evs) h h' /\ any_state h' (reverse evs.*1 ++ done).
Proof.
  induction evs as [|[p e] evs IH]; intros done h Hst Hnd' Hin.
  - exists h. split; [apply runs_nil|exact Hst].
  - destruct (Hin p e) as [Hp He]; [by left|].
    apply list_elem_of_lookup in Hp as [i Hi].
    simpl in Hnd'. apply NoDup_cons in Hnd' as [Hpn Hnd'].
    assert (Hpd : p ∉ done) by (intros H; apply Hpn, elem_of_app; auto).
    destruct (any_reject_step h done i p e Hst Hi Hpd He) as (h1 & Hev & Hst1).
    destruct (IH (p :: done) h1 Hst1) as (h' & Hruns & Hst').
    + apply NoDup_app in Hnd' as (Hn1 & Hn2 & Hn3).
      apply NoDup_app. split; [done|]. split.
      * intros x Hx. apply not_elem_of_cons. split; [|by apply Hn2].
        intros ->. apply Hpn, elem_of_app. auto.
      * apply NoDup_cons. auto.
    + intros q w Hq. apply Hin. by right.
    + exists h'. split; [eapply runs_cons; eauto|].
      simpl. by rewrite reverse_cons, <- app_assoc.
Qed.

End Any.



(** X16.  [any] on distinct pending inputs without callbacks: after some inputs
    were rejected, the first input to be fulfilled fulfils the returned
    promise with its value, and later calls do not change that. *)
Theorem any_first_fulfilment_wins h0 ps evs pj v :
  NoDup ps ->
  Forall (quiet h0) ps ->
  NoDup (pj :: evs.*1) ->
  pj ∈ ps ->
  Forall (fun ev => fst ev ∈ ps /\ instanceof_MyPromise (snd ev) = false) evs ->
  instanceof_MyPromise v = false ->
  let O := length (promises h0) in
  exists h2 h3,
    any_pending_outcome h0 ps evs h2 /\
    evals (CApply (FOnSuccess pj) v) h2 h3 (Return VUndefined) /\
    settlements h3 !! O = Some (FULFILLED, v) /\
    forall fuel cs h4, run fuel cs h3 = Some h4 ->
                       settlements h4 !! O = Some (FULFILLED, v).
Proof.
  intros Hnd Hq Hnde Hpj Hevs Hv O.
  apply NoDup_cons in Hnde as [Hpjn Hnde].
  destruct (any_call h0 ps Hnd Hq) as (h1 & Hcall & Hst).
  destruct (any_reject_run h0 ps Hq evs [] h1 Hst) as (h2 & Hruns & Hst2).
  { by rewrite app_nil_r. }
  { intros p e Hin. rewrite Forall_forall in Hevs. apply (Hevs (p, e) Hin). }
  apply list_elem_of_lookup in Hpj as [j Hj].
  destruct (any_fulfil_step h0 ps Hq h2 _ j pj v Hst2 Hj) as (h3 & Hev & HO3);
    [|exact Hv|].
  { by rewrite app_nil_r, elem_of_reverse. }
  exists h2, h3. split; [|split; [exact Hev|split; [exact HO3|]]].
  - destruct Hst2 as (Hfr & HO & _).
    exists h1. split; [exact Hcall|]. split; [exact Hruns|]. split.
    + by rewrite (settlements_lookup_Some _ _ _ HO).
    + rewrite Hfr, app_nil_r, length_reverse, length_fmap. reflexivity.
  - intros fuel cs h4 Hrun.
    by apply (settlement_kept h3 _ _ _ fuel cs h4 HO3).
Qed.

Lemma any_first_fulfilment_wins_witness :
  exists h2 h3,
    any_pending_outcome three_pending [0; 1; 2] [(1, VStr "e")] h2 /\
    evals (CApply (FOnSuccess 2) (VNum 42)) h2 h3 (Return VUndefined) /\
    settlements h3 !! 3 = Some (FULFILLED, VNum 42) /\
    forall fuel cs h4, run fuel cs h3 = Some h4 ->
                       settlements h4 !! 3 = Some (FULFILLED, VNum 42).
Proof.
  apply (any_first_fulfilment_wins three_pending [0; 1; 2] [(1, VStr "e")] 2 (VNum 42)).
  - repeat (apply NoDup_cons; split; [set_solver|]). apply NoDup_nil_2.
  - repeat (apply Forall_cons; split; [by exists VUndefined|]). apply Forall_nil_2.
  - repeat (apply NoDup_cons; split; [set_solver|]). apply NoDup_nil_2.
  - set_solver.
  - repeat (apply Forall_cons; split; [split; [set_solver|reflexivity]|]).
    apply Forall_nil_2.
  - reflexivity.
Defined.

(** ** [allSettled] *)

Lemma evals_allSettled_record (fulfilled : bool) vars index promiseArray outer v h V h' r :
  frames h !! vars = Some V ->
  resultCount V = length promiseArray ->
  evals (CApply (FOnSuccess outer) (VArray vars))
    (set_vars vars
       (mkVars (array_set (results V) index (status_entry (fulfilled, v)))
          (resultCount V)) h)
    h' r ->
  evals (CApply (if fulfilled
                 then FAllSettledThen vars index promiseArray outer
                 else FAllSettledCatch vars index promiseArray outer) v)
    h h' (discard r).
Proof.
  intros HV Hn [k H]. exists (S k).
  destruct fulfilled; simpl; unfold allSettled_record; rewrite HV;
    rewrite decide_True by done; unfold bind, call;
    cbv [status_entry fst snd] in H; rewrite H; by destruct r.
Qed.

Lemma array_set_hole a i j v :
  i <> j -> (forall w, a !! j <> Some (Some w)) ->
  forall w, array_set a i v !! j <> Some (Some w).
Proof.
  intros Hne Hj w. unfold array_set. case_decide.
  - rewrite list_lookup_insert_ne by done. apply Hj.
  - destruct (decide (j < length a)).
    + rewrite lookup_app_l by done. apply Hj.
    + rewrite lookup_app_r by lia.
      destruct (decide (j - length a < i - length a)).
      * rewrite lookup_app_l by (rewrite length_replicate; done).
        rewrite lookup_replicate_2 by done. discriminate.
      * rewrite lookup_app_r by (rewrite length_replicate; lia).
        rewrite length_replicate.
        destruct (j - length a - (i - length a)) as [|k] eqn:E; [lia|].
        discriminate.
Qed.

Section AllSettled.

Variables (h0 : Heap) (ps : list loc).
Hypothesis Hnd : NoDup ps.
Hypothesis Hquiet : Forall (quiet h0) ps.

Let O := length (promises h0).
Let fr := length (frames h0).
Let onThen := fun i => FAllSettledThen fr i ps O.
Let onCatch := fun i => FAllSettledCatch fr i ps O.

Lemma allSettled_loop_run fuel : forall rest k h,
  drop k ps = rest -> k <= length ps ->
  looped h0 ps onThen onCatch h k ->
  frames h !! fr = Some (mkVars [] k) ->
  exists h',
    forEach (fun promise index h' =>
               match frames h' !! fr with
               | None => None
               | Some V =>
                 then_catch (exec (S (S fuel))) promise (onThen index) (onCatch index)
                   (set_vars fr (mkVars (results V) (resultCount V + 1)) h')
               end)
            rest k h = Some (h', Return VUndefined) /\
    looped h0 ps onThen onCatch h' (length ps) /\
    frames h' !! fr = Some (mkVars [] (length ps)).
Proof.
  induction rest as [|p rest IH]; intros k h Hdrop Hk Hloop Hfr.
  - exists h. split; [reflexivity|].
    assert (length ps <= k).
    { apply (f_equal length) in Hdrop. rewrite length_drop in Hdrop.
      simpl in Hdrop. lia. }
    by replace (length ps) with k by lia.
  - assert (Hpk : ps !! k = Some p).
    { rewrite <- (Nat.add_0_r k), <- lookup_drop, Hdrop. reflexivity. }
    assert (Hltf := lookup_lt_Some _ _ _ Hfr).
    pose (hv := set_vars fr (mkVars [] (k + 1)) h).
    assert (Hloopv : looped h0 ps onThen onCatch hv k)
      by (by apply (looped_same h0 ps onThen onCatch h)).
    pose proof Hloopv as (Hlen & HO & Hreg & Hq).
    destruct (Hq k p Hpk) as [u Hu]; [lia|].
    destruct (IH (S k) (then_catch_heap p (onThen k) (onCatch k) u hv))
      as (h' & Hrun & Hloop' & Hfr').
    + rewrite (drop_S ps p k Hpk) in Hdrop. congruence.
    + apply lookup_lt_Some in Hpk. lia.
    + apply looped_step; [exact Hnd|exact Hquiet|exact Hloopv|exact Hpk|exact Hu].
    + rewrite frames_then_catch_heap. unfold hv. rewrite frames_set_vars.
      rewrite list_lookup_insert_eq by exact Hltf. by rewrite Nat.add_1_r.
    + exists h'. split; [|split; [exact Hloop'|exact Hfr']].
      simpl. unfold bind at 1. rewrite Hfr. simpl. fold hv.
      rewrite (then_catch_quiet fuel p _ _ u hv Hu). exact Hrun.
Qed.

(** The store while inputs are being settled: [done] lists the inputs
    settled so far, each with its entry of the results array. *)
Definition allSettled_state (h : Heap) (done : list (loc * Value)) : Prop :=
  (exists arr,
     frames h !! fr = Some (mkVars arr (length ps)) /\
     length arr <= length ps /\
     (forall i p w, ps !! i = Some p -> (p, w) ∈ done -> arr !! i = Some (Some w)) /\
     (forall i p, ps !! i = Some p -> p ∉ done.*1 ->
        forall w, arr !! i <> Some (Some w))) /\
  promises h !! O
    = Some (match done with
            | [] => fresh_promise
            | _ :: _ => mkPromise FULFILLED (VArray fr) [] []
            end) /\
  (forall i p, ps !! i = Some p -> p ∉ done.*1 -> attached h0 onThen onCatch h i p).

Lemma allSettled_call :
  exists h1,
    evals (allSettled ps) h0 h1 (Return (VPromise O)) /\ allSettled_state h1 [].
Proof.
  destruct (allSettled_loop_run 0 ps 0 (alloc_vars (alloc_promise h0)))
    as (h1 & Hrun & Hloop & Hfr);
    [reflexivity|lia|by apply looped_start|simpl; by apply list_lookup_middle|].
  exists h1. split.
  - exists 4.
    change (exec 4 (allSettled ps) h0)
      with (constructor (exec 3) (RAllSettled ps) h0).
    unfold constructor, bind, try_catch.
    change (exec 3 (CResolver (RAllSettled ps) (length (promises h0)))
              (alloc_promise h0))
      with (allSettled_resolver (exec 2) ps (length (promises h0)) (alloc_promise h0)).
    unfold allSettled_resolver. fold O. rewrite frames_alloc_promise. fold fr.
    unfold onThen, onCatch in Hrun. rewrite Hrun. reflexivity.
  - destruct Hloop as (_ & HO & Hreg & _). split; [|split].
    + exists []. split; [exact Hfr|]. split; [simpl; lia|]. split.
      * intros i p w _ Hin. by apply elem_of_nil in Hin.
      * intros i p _ _ w. rewrite lookup_nil. discriminate.
    + exact HO.
    + intros i p Hi _. apply Hreg; [exact Hi|]. eauto using lookup_lt_Some.
Qed.

(** The call [resolve(results)] made by each callback: the first one
    fulfils the promise returned by [allSettled], the later ones find it
    fulfilled. *)
Lemma allSettled_resolve h (done : list (loc * Value)) :
  promises h !! O
    = Some (match done with
            | [] => fresh_promise
            | _ :: _ => mkPromise FULFILLED (VArray fr) [] []
            end) ->
  evals (CApply (FOnSuccess O) (VArray fr)) h
    (set_promise O (mkPromise FULFILLED (VArray fr) [] []) h) (Return VUndefined).
Proof.
  intros HO. destruct done as [|d done].
  - apply (fulfil_quiet O (VArray fr) h fresh_promise HO); reflexivity.
  - replace (set_promise O (mkPromise FULFILLED (VArray fr) [] []) h) with h.
    + by apply (evals_settled O (VArray fr) h _ HO).
    + unfold set_promise. rewrite list_insert_id by exact HO. by destruct h.
Qed.

Lemma allSettled_results (arr : list (option Value)) (done : list (loc * Value)) i p w :
  ps !! i = Some p -> p ∉ done.*1 ->
  length arr <= length ps ->
  (forall j q x, ps !! j = Some q -> (q, x) ∈ done -> arr !! j = Some (Some x)) ->
  (forall j q, ps !! j = Some q -> q ∉ done.*1 -> forall x, arr !! j <> Some (Some x)) ->
  length (array_set arr i w) <= length ps /\
  (forall j q x, ps !! j = Some q -> (q, x) ∈ (p, w) :: done ->
     array_set arr i w !! j = Some (Some x)) /\
  (forall j q, ps !! j = Some q -> q ∉ ((p, w) :: done).*1 ->
     forall x, array_set arr i w !! j <> Some (Some x)).
Proof.
  intros Hi Hp Hlen Harr Hhole.
  destruct (results_after ps Hnd arr done i p w Hi Hp Hlen Harr) as [H1 H2].
  split; [exact H1|]. split; [exact H2|].
  intros j q Hj Hq. simpl in Hq. apply not_elem_of_cons in Hq as [Hqp Hq].
  apply array_set_hole; [|by apply (Hhole j q)].
  intros ->. congruence.
Qed.

Lemma allSettled_fulfil_step h done i p v :
  allSettled_state h done -> ps !! i = Some p -> p ∉ done.*1 ->
  instanceof_MyPromise v = false ->
  exists h',
    evals (CApply (FOnSuccess p) v) h h' (Return VUndefined) /\
    allSettled_state h' ((p, VStatusFulfilled v) :: done).
Proof.
  intros ((arr & Hfr & Harrlen & Harr & Hhole) & HO & Hreg) Hi Hp Hv.
  destruct (Hreg i p Hi Hp) as ([u Hu] & HN1 & HN2).
  assert (HpO := input_allocated _ _ Hquiet _ _ Hi). fold O in HpO.
  assert (Hlt1 := lookup_lt_Some _ _ _ HN1).
  assert (Hlt2 := lookup_lt_Some _ _ _ HN2).
  assert (Hltf := lookup_lt_Some _ _ _ Hfr).
  assert (HltO := lookup_lt_Some _ _ _ HO).
  destruct (allSettled_results arr done i p (VStatusFulfilled v) Hi Hp Harrlen Harr Hhole)
    as (Hlen' & Harr' & Hhole').
  pose (ha := set_promise p
                (mkPromise FULFILLED v [] [FCatchCb None (S O + 2 * i)]) h).
  pose (hb := set_vars fr (mkVars (array_set arr i (VStatusFulfilled v)) (length ps)) ha).
  pose (ho := set_promise O (mkPromise FULFILLED (VArray fr) [] []) hb).
  pose (hc := set_promise (S O + 2 * i)
                (mkPromise FULFILLED VUndefined []
                   [FCatchCb (Some (onCatch i)) (S (S O) + 2 * i)]) ho).
  pose (hd := set_promise (S (S O) + 2 * i)
                (mkPromise FULFILLED VUndefined [] []) hc).
  exists hd. split.
  - eapply (fulfil_one p v h _ _ hd (Return VUndefined));
      [exact Hu|reflexivity|reflexivity|exact Hv| |].
    + eapply (evals_wrapped_return FThenCb) with (h1 := ho); [by left| |].
      * apply (evals_allSettled_record true fr i ps O v ha (mkVars arr (length ps))
                 ho (Return VUndefined)); [exact Hfr|reflexivity|].
        apply (allSettled_resolve hb done). unfold hb, ha. hsimpl. exact HO.
      * eapply (fulfil_one (S O + 2 * i) VUndefined ho _ _ hd (Return VUndefined));
          [unfold ho, hb, ha; hlookup|reflexivity|reflexivity|reflexivity| |].
        -- apply (evals_thenCb_none _ _ _ _ (Return VUndefined)).
           apply (fulfil_quiet (S (S O) + 2 * i) VUndefined hc fresh_promise);
             [unfold hc, ho, hb, ha; hlookup|reflexivity..].
        -- eexists. split; [unfold hd, hc, ho, hb, ha; hlookup|reflexivity].
    + eexists. split; [unfold hd, hc, ho, hb, ha; hlookup|reflexivity].
  - split; [|split].
    + exists (array_set arr i (VStatusFulfilled v)).
      split; [|split; [exact Hlen'|split; [exact Harr'|exact Hhole']]].
      unfold hd, hc, ho, hb, ha. simpl.
      by rewrite list_lookup_insert_eq by exact Hltf.
    + unfold hd, hc, ho, hb, ha. hlookup.
    + intros j q Hj Hq. simpl in Hq. apply not_elem_of_cons in Hq as [Hqp Hq].
      assert (Hji : j <> i) by (intros ->; congruence).
      assert (HqO := input_allocated _ _ Hquiet _ _ Hj). fold O in HqO.
      eapply attached_frame; [apply (Hreg j q Hj Hq)|..];
        unfold hd, hc, ho, hb, ha; hsimpl; reflexivity.
Qed.

Lemma allSettled_reject_step h done i p e :
  allSettled_state h done -> ps !! i = Some p -> p ∉ done.*1 ->
  instanceof_MyPromise e = false ->
  exists h',
    evals (CApply (FOnFailed p) e) h h' (Return VUndefined) /\
    allSettled_state h' ((p, VStatusRejected e) :: done).
Proof.
  intros ((arr & Hfr & Harrlen & Harr & Hhole) & HO & Hreg) Hi Hp He.
  destruct (Hreg i p Hi Hp) as ([u Hu] & HN1 & HN2).
  assert (HpO := input_allocated _ _ Hquiet _ _ Hi). fold O in HpO.
  assert (Hlt1 := lookup_lt_Some _ _ _ HN1).
  assert (Hlt2 := lookup_lt_Some _ _ _ HN2).
  assert (Hltf := lookup_lt_Some _ _ _ Hfr).
  assert (HltO := lookup_lt_Some _ _ _ HO).
  destruct (allSettled_results arr done i p (VStatusRejected e) Hi Hp Harrlen Harr Hhole)
    as (Hlen' & Harr' & Hhole').
  pose (ha := set_promise p
                (mkPromise REJECTED e
                   [FThenCb (Some (onThen i)) (S O + 2 * i)] []) h).
  pose (hb := set_promise (S O + 2 * i)
                (mkPromise REJECTED e [FThenCb None (S (S O) + 2 * i)] []) ha).
  pose (hv := set_vars fr (mkVars (array_set arr i (VStatusRejected e)) (length ps)) hb).
  pose (ho := set_promise O (mkPromise FULFILLED (VArray fr) [] []) hv).
  pose (hd := set_promise (S (S O) + 2 * i)
                (mkPromise FULFILLED VUndefined [] []) ho).
  exists hd. split.
  - eapply (reject_one p e h _ _ hd (Return VUndefined));
      [exact Hu|reflexivity|reflexivity|exact He| |].
    + apply (evals_catchCb_none _ _ _ _ (Return VUndefined)).
      eapply (reject_one (S O + 2 * i) e ha _ _ hd (Return VUndefined));
        [unfold ha; hlookup|reflexivity|reflexivity|exact He| |].
      * eapply (evals_wrapped_return FCatchCb) with (h1 := ho); [by right| |].
        -- apply (evals_allSettled_record false fr i ps O e hb (mkVars arr (length ps))
                    ho (Return VUndefined)); [exact Hfr|reflexivity|].
           apply (allSettled_resolve hv done). unfold hv, hb, ha. hsimpl. exact HO.
        -- apply (fulfil_quiet (S (S O) + 2 * i) VUndefined ho fresh_promise);
             [unfold ho, hv, hb, ha; hlookup|reflexivity..].
      * eexists. split; [unfold hd, ho, hv, hb, ha; hlookup|reflexivity].
    + eexists. split; [unfold hd, ho, hv, hb, ha; hlookup|reflexivity].
  - split; [|split].
    + exists (array_set arr i (VStatusRejected e)).
      split; [|split; [exact Hlen'|split; [exact Harr'|exact Hhole']]].
      unfold hd, ho, hv, hb, ha. simpl.
      by rewrite list_lookup_insert_eq by exact Hltf.
    + unfold hd, ho, hv, hb, ha. hlookup.
    + intros j q Hj Hq. simpl in Hq. apply not_elem_of_cons in Hq as [Hqp Hq].
      assert (Hji : j <> i) by (intros ->; congruence).
      assert (HqO := input_allocated _ _ Hquiet _ _ Hj). fold O in HqO.
      eapply attached_frame; [apply (Hreg j q Hj Hq)|..];
        unfold hd, ho, hv, hb, ha; hsimpl; reflexivity.
Qed.

Lemma allSettled_run : forall evs done h,
  allSettled_state h done ->
  NoDup (evs.*1 ++ done.*1) ->
  (forall p o, (p, o) ∈ evs -> p ∈ ps /\ instanceof_MyPromise (snd o) = false) ->
  exists h',
    runs (settle_calls evs) h h' /\
    allSettled_state h' (reverse (entries evs) ++ done).
Proof.
  induction evs as [|[p [b v]] evs IH]; intros done h Hst Hnd' Hin.
  - exists h. split; [apply runs_nil|exact Hst].
  - destruct (Hin p (b, v)) as [Hp Hv]; [by left|]. simpl in Hv.
    apply list_elem_of_lookup in Hp as [i Hi].
    simpl in Hnd'. apply NoDup_cons in Hnd' as [Hpn Hnd'].
    assert (Hpd : p ∉ done.*1) by (intros H; apply Hpn, elem_of_app; auto).
    assert (Hstep : exists h1 r,
              evals (settle_call b p v) h h1 r /\
              allSettled_state h1 ((p, status_entry (b, v)) :: done)).
    { destruct b.
      - destruct (allSettled_fulfil_step h done i p v Hst Hi Hpd Hv) as (h1 & ? & ?).
        eauto.
      - destruct (allSettled_reject_step h done i p v Hst Hi Hpd Hv) as (h1 & ? & ?).
        eauto. }
    destruct Hstep as (h1 & r & Hev & Hst1).
    destruct (IH ((p, status_entry (b, v)) :: done) h1 Hst1) as (h' & Hruns & Hst').
    + simpl. apply NoDup_app in Hnd' as (Hn1 & Hn2 & Hn3).
      apply NoDup_app. split; [done|]. split.
      * intros x Hx. apply not_elem_of_cons. split; [|by apply Hn2].
        intros ->. apply Hpn, elem_of_app. auto.
      * apply NoDup_cons. auto.
    + intros q w Hq. apply Hin. by right.
    + exists h'. split; [eapply runs_cons; eauto|].
      simpl. by rewrite reverse_cons, <- app_assoc.
Qed.

End AllSettled.

Lemma allSettled_settles h0 ps evs :
  NoDup ps ->
  Forall (quiet h0) ps ->
  evs <> [] ->
  NoDup evs.*1 ->
  Forall (fun ev => fst ev ∈ ps /\ instanceof_MyPromise (snd (snd ev)) = false) evs ->
  exists arr,
    allSettled_outcome h0 ps evs arr /\
    length arr <= length ps /\
    (forall i p o, ps !! i = Some p -> (p, o) ∈ evs ->
       arr !! i = Some (Some (status_entry o))) /\
    (forall i p, ps !! i = Some p -> p ∉ evs.*1 ->
       forall w, arr !! i <> Some (Some w)).
Proof.
  intros Hnd Hq Hne Hnde Hevs.
  destruct (allSettled_call h0 ps Hnd Hq) as (h1 & Hcall & Hst).
  destruct (allSettled_run h0 ps Hnd Hq evs [] h1 Hst)
    as (h2 & Hruns & ((arr & Hfr & Hlen & Harr & Hhole) & HO & _)).
  { by rewrite app_nil_r. }
  { intros p o Hin. rewrite Forall_forall in Hevs. apply (Hevs (p, o) Hin). }
  exists arr. split; [|split; [exact Hlen|split]].
  - exists h1, h2. split; [exact Hcall|]. split; [|split; [exact Hruns|split]].
    + destruct Hst as (_ & HO1 & _). by rewrite (settlements_lookup_Some _ _ _ HO1).
    + rewrite (settlements_lookup_Some _ _ _ HO).
      destruct (reverse (entries evs) ++ []) eqn:E; [|reflexivity].
      apply (f_equal length) in E.
      rewrite app_nil_r, length_reverse in E. unfold entries in E.
      rewrite length_map in E. destruct evs; [done|discriminate].
    + by rewrite Hfr.
  - intros i p o Hi Hin. apply (Harr i p); [exact Hi|].
    rewrite app_nil_r, elem_of_reverse. unfold entries.
    apply list_elem_of_fmap. by exists (p, o).
  - intros i p Hi Hin. apply (Hhole i p Hi).
    rewrite app_nil_r, fmap_reverse, elem_of_reverse. unfold entries.
    intros H. apply Hin.
    apply list_elem_of_fmap in H as [[q w] [-> H]].
    apply list_elem_of_fmap in H as [[q' o] [[= -> ->] H]].
    apply list_elem_of_fmap. by exists (q', o).
Qed.

(** X17.  The promise returned by [allSettled] is fulfilled as soon as one input
    has settled, not when all have: after any non-empty sequence of
    settlements of distinct inputs it is fulfilled with the results array,
    and the array holds an entry for exactly the inputs settled so far,
    each at its index: [{status: "fulfilled", value}] or
    [{status: "rejected", reason}]. *)
Theorem allSettled_fulfils_at_first_settlement h0 ps evs :
  NoDup ps ->
  Forall (quiet h0) ps ->
  evs <> [] ->
  NoDup evs.*1 ->
  Forall (fun ev => fst ev ∈ ps /\ instanceof_MyPromise (snd (snd ev)) = false) evs ->
  exists arr,
    allSettled_outcome h0 ps evs arr /\
    (forall i p o, ps !! i = Some p -> (p, o) ∈ evs ->
       arr !! i = Some (Some (status_entry o))) /\
    (forall i p, ps !! i = Some p -> p ∉ evs.*1 ->
       forall w, arr !! i <> Some (Some w)).
Proof.
  intros Hnd Hq Hne Hnde Hevs.
  destruct (allSettled_settles h0 ps evs Hnd Hq Hne Hnde Hevs)
    as (arr & Hout & _ & Harr & Hhole).
  exists arr. auto.
Qed.

Lemma allSettled_fulfils_at_first_settlement_witness :
  exists arr,
    allSettled_outcome three_pending [0; 1; 2] [(1, (false, VStr "boom"))] arr /\
    (forall i p o, [0; 1; 2] !! i = Some p -> (p, o) ∈ [(1, (false, VStr "boom"))] ->
       arr !! i = Some (Some (status_entry o))) /\
    (forall i p, [0; 1; 2] !! i = Some p -> p ∉ [(1, (false, VStr "boom"))].*1 ->
       forall w, arr !! i <> Some (Some w)).
Proof.
  apply allSettled_fulfils_at_first_settlement.
  - repeat (apply NoDup_cons; split; [set_solver|]). apply NoDup_nil_2.
  - repeat (apply Forall_cons; split; [by exists VUndefined|]). apply Forall_nil_2.
  - discriminate.
  - repeat (apply NoDup_cons; split; [set_solver|]). apply NoDup_nil_2.
  - repeat (apply Forall_cons; split; [split; [set_solver|reflexivity]|]).
    apply Forall_nil_2.
Defined.



(** ** [all] on inputs that are already fulfilled *)

Lemma array_set_end (a : list (option Value)) v :
  array_set a (length a) v = a ++ [Some v].
Proof.
  unfold array_set. rewrite decide_False by lia.
  by rewrite Nat.sub_diag.
Qed.

(** One turn of the loop of [all] on an input that is fulfilled: the
    callback records the value at once, and both new promises are
    fulfilled with [undefined].  [last] tells whether this turn completes
    the count, in which case the callback also fulfils the promise at
    [O]. *)
Lemma all_turn_fulfilled h p v cs k arr O fr ps n (last : bool) :
  promises h !! p = Some (mkPromise FULFILLED v [] cs) ->
  instanceof_MyPromise v = false ->
  length (promises h) = n -> O < n -> p <> O ->
  frames h !! fr = Some (mkVars arr k) -> length arr = k ->
  promises h !! O = Some fresh_promise ->
  (if last then S k = length ps else S k <> length ps) ->
  exists h',
    (exists fuel0, forall fuel, fuel0 <= fuel ->
       then_catch (exec fuel) p (FAllThen fr k ps O) (FAllCatch O) h
         = Some (h', Return (VPromise (S n)))) /\
    length (promises h') = S (S n) /\
    frames h' !! fr = Some (mkVars (arr ++ [Some v]) (S k)) /\
    length (frames h') = length (frames h) /\
    promises h' !! O
      = Some (if last then mkPromise FULFILLED (VArray fr) [] [] else fresh_promise) /\
    (forall q w, q <> O -> fulfilled_with h q w -> fulfilled_with h' q w).
Proof.
  intros Hp Hv Hn HO HpO Hfr Harr HOf Hlast.
  assert (Hlt := lookup_lt_Some _ _ _ Hp).
  assert (Hltf := lookup_lt_Some _ _ _ Hfr).
  pose (hA := set_promise p (mkPromise FULFILLED v [] (FCatchCb None n :: cs))
                (alloc_promise h)).
  pose (hB := set_vars fr (mkVars (array_set arr k v) (k + 1)) hA).
  pose (hO := if last
              then set_promise O (mkPromise FULFILLED (VArray fr) [] []) hB
              else hB).
  pose (hC := set_promise n (mkPromise FULFILLED VUndefined [] []) hO).
  pose (hD := set_promise n
                (mkPromise FULFILLED VUndefined []
                   [FCatchCb (Some (FAllCatch O)) (S n)]) (alloc_promise hC)).
  pose (hE := set_promise (S n) (mkPromise FULFILLED VUndefined [] []) hD).
  assert (HlenO : length (promises hO) = S n).
  { unfold hO, hB, hA. destruct last; subst n; len_solve. }
  assert (HnO : promises hO !! n = Some fresh_promise).
  { unfold hO, hB, hA. destruct last; subst n; hlookup. }
  assert (Hcb : evals (CApply (FAllThen fr k ps O) v) hA hO (Return VUndefined)).
  { destruct last.
    - apply (evals_all_then_last fr k ps O v hA (mkVars arr k) hO (Return VUndefined));
        [exact Hfr|simpl; lia|].
      apply (fulfil_quiet O (VArray fr) hB fresh_promise);
        [unfold hB, hA; subst n; hlookup|reflexivity..].
    - apply (evals_all_then_more fr k ps O v hA (mkVars arr k));
        [exact Hfr|simpl; lia]. }
  assert (Hthen : evals (then_ p (Some (FAllThen fr k ps O)) None) h hC
                    (Return (VPromise n))).
  { eapply (then_on_settled QThen) with (L := n) (r := Return VUndefined);
      [exact Hp|reflexivity|reflexivity|exact Hn| |].
    - eapply (evals_wrapped_return FThenCb) with (h1 := hO); [by left|exact Hcb|].
      apply (fulfil_quiet n VUndefined hO fresh_promise HnO); reflexivity.
    - eexists. split;
        [unfold hC, hO, hB, hA; destruct last; subst n; hlookup|reflexivity]. }
  assert (HnC : promises hC !! n = Some (mkPromise FULFILLED VUndefined [] [])).
  { apply lookup_set_promise_eq. rewrite HlenO. lia. }
  assert (HlenC : length (promises hC) = S n).
  { unfold hC. by rewrite length_set_promise. }
  assert (Hcatch : evals (catch n (Some (FAllCatch O))) hC hE
                     (Return (VPromise (S n)))).
  { eapply (then_on_settled QThen) with (L := S n) (r := Return VUndefined);
      [exact HnC|reflexivity|reflexivity|exact HlenC| |].
    - apply (evals_thenCb_none _ _ _ _ (Return VUndefined)).
      apply (fulfil_quiet (S n) VUndefined hD fresh_promise); [|reflexivity..].
      unfold hD. rewrite lookup_set_promise_ne by lia.
      rewrite <- HlenC. apply lookup_alloc_new.
    - exists (mkPromise FULFILLED VUndefined []
                [FCatchCb (Some (FAllCatch O)) (S n)]). split; [|reflexivity].
      unfold hE. rewrite lookup_set_promise_ne by lia.
      unfold hD. apply lookup_set_promise_eq. rewrite length_alloc_promise. lia. }
  exists hE. split; [|split; [|split; [|split; [|split]]]].
  - destruct Hthen as [n1 H1]. destruct Hcatch as [n2 H2].
    exists (n1 + n2). intros fuel Hfuel. unfold then_catch, bind.
    rewrite (exec_mono _ _ _ _ _ H1) by lia.
    apply (exec_mono _ _ _ _ _ H2). lia.
  - unfold hE, hD. rewrite !length_set_promise, length_alloc_promise. lia.
  - unfold hE, hD, hC, hO, hB, hA. destruct last; simpl;
      rewrite list_lookup_insert_eq by exact Hltf;
      by rewrite <- Harr, array_set_end, Nat.add_1_r.
  - unfold hE, hD, hC, hO, hB, hA. destruct last; simpl; by rewrite length_insert.
  - unfold hE, hD, hC. rewrite !lookup_set_promise_ne by lia.
    rewrite lookup_alloc_old by (rewrite length_set_promise, HlenO; lia).
    rewrite lookup_set_promise_ne by lia.
    unfold hO. destruct last.
    + apply lookup_set_promise_eq. unfold hB, hA. subst n. len_solve.
    + unfold hB, hA. subst n. hsimpl. exact HOf.
  - intros q w HqO [cq Hq]. assert (Hltq := lookup_lt_Some _ _ _ Hq).
    unfold fulfilled_with, hE, hD, hC.
    rewrite !lookup_set_promise_ne by lia.
    rewrite lookup_alloc_old by (rewrite length_set_promise, HlenO; lia).
    rewrite lookup_set_promise_ne by lia.
    assert (HqB : exists cq', promises hB !! q = Some (mkPromise FULFILLED w [] cq')).
    { unfold hB, hA. destruct (decide (q = p)) as [->|Hne].
      - rewrite Hp in Hq. injection Hq as -> ->. eexists. subst n. hlookup.
      - exists cq. subst n. hsimpl. exact Hq. }
    unfold hO. destruct last; [|exact HqB].
    by rewrite lookup_set_promise_ne.
Qed.

Lemma all_loop_fulfilled O fr ps : forall rest restv k h arr,
  Forall2 (fun p v => fulfilled_with h p v /\ p <> O /\
                      instanceof_MyPromise v = false) rest restv ->
  length (promises h) = S O + 2 * k ->
  frames h !! fr = Some (mkVars arr k) -> length arr = k ->
  promises h !! O = Some fresh_promise ->
  k + length rest = length ps -> rest <> [] ->
  exists h',
    (exists fuel0, forall fuel, fuel0 <= fuel ->
       forEach (fun promise index =>
                  then_catch (exec fuel) promise (FAllThen fr index ps O) (FAllCatch O))
               rest k h = Some (h', Return VUndefined)) /\
    frames h' !! fr = Some (mkVars (arr ++ (Some <$> restv)) (length ps)) /\
    promises h' !! O = Some (mkPromise FULFILLED (VArray fr) [] []).
Proof.
  induction rest as [|p rest IH]; intros restv k h arr Hall Hlen Hfr Harr HO Hk Hne;
    [done|].
  destruct restv as [|v restv]; [by apply Forall2_length in Hall|].
  apply Forall2_cons in Hall as [([cs Hp] & HpO & Hv) Hall].
  simpl in Hk.
  destruct rest as [|p' rest'].
  - (* the last turn *)
    apply Forall2_nil_inv_l in Hall as ->.
    destruct (all_turn_fulfilled h p v cs k arr O fr ps (S O + 2 * k) true)
      as (h' & [f0 Hrun] & _ & Hfr' & _ & HO' & _); auto; try (simpl in *; lia).
    exists h'. split; [|split].
    + exists f0. intros fuel Hfuel. simpl. unfold bind.
      by rewrite (Hrun fuel Hfuel).
    + rewrite Hfr'. simpl in *. do 2 f_equal. lia.
    + exact HO'.
  - destruct (all_turn_fulfilled h p v cs k arr O fr ps (S O + 2 * k) false)
      as (h' & [f0 Hrun] & Hlen' & Hfr' & _ & HO' & Hkeep); auto; try (simpl in *; lia).
    destruct (IH restv (S k) h' (arr ++ [Some v])) as (h2 & [f1 Hrun2] & Hfr2 & HO2).
    + eapply Forall2_impl; [exact Hall|].
      intros q w (Hq & HqO & Hw). split; [|split]; auto.
    + rewrite Hlen'. lia.
    + exact Hfr'.
    + rewrite length_app. simpl. lia.
    + exact HO'.
    + simpl in *. lia.
    + discriminate.
    + exists h2. split; [|split].
      * exists (f0 + f1). intros fuel Hfuel.
        change (forEach ?b (p :: ?r) k h) with ((b p k;; forEach b r (S k)) h).
        unfold bind at 1. rewrite (Hrun fuel) by lia.
        apply Hrun2. lia.
      * rewrite Hfr2. by rewrite <- app_assoc.
      * exact HO2.
Qed.

(** X19.  [all] on inputs that are all fulfilled already, with their fulfilment
    callbacks run: the promise it returns is fulfilled when the call
    returns, with the results array holding the value of every input at
    the input's index.  The same promise may occur more than once in the
    input. *)
Theorem all_of_fulfilled_inputs h0 ps vs :
  ps <> [] ->
  Forall2 (fun p v => fulfilled_with h0 p v /\ instanceof_MyPromise v = false) ps vs ->
  exists h1,
    evals (all ps) h0 h1 (Return (VPromise (length (promises h0)))) /\
    settlements h1 !! length (promises h0)
      = Some (FULFILLED, VArray (length (frames h0))) /\
    results <$> frames h1 !! length (frames h0) = Some (Some <$> vs).
Proof.
  intros Hne Hall.
  set (O := length (promises h0)). set (fr := length (frames h0)).
  destruct (all_loop_fulfilled O fr ps ps vs 0 (alloc_vars (alloc_promise h0)) [])
    as (h1 & [f0 Hrun] & Hfr & HO); auto.
  - eapply Forall2_impl; [exact Hall|].
    intros p v ([cs Hp] & Hv). assert (Hlt := lookup_lt_Some _ _ _ Hp).
    split; [|split; [unfold O; lia|exact Hv]].
    exists cs. hsimpl. exact Hp.
  - unfold O. len_solve.
  - simpl. by apply list_lookup_middle.
  - unfold O. hlookup.
  - exists h1. split; [|split].
    + exists (S (S f0)).
      change (exec (S (S f0)) (all ps) h0)
        with (constructor (exec (S f0)) (RAll ps) h0).
      unfold constructor, bind, try_catch.
      change (exec (S f0) (CResolver (RAll ps) (length (promises h0))) (alloc_promise h0))
        with (all_resolver (exec f0) ps (length (promises h0)) (alloc_promise h0)).
      unfold all_resolver. fold O. rewrite frames_alloc_promise. fold fr.
      rewrite (Hrun f0) by lia. reflexivity.
    + by rewrite (settlements_lookup_Some _ _ _ HO).
    + by rewrite Hfr.
Qed.

Lemma all_of_fulfilled_inputs_witness :
  exists h1,
    evals (all [0; 0]) one_fulfilled h1 (Return (VPromise 1)) /\
    settlements h1 !! 1 = Some (FULFILLED, VArray 0) /\
    results <$> frames h1 !! 0 = Some [Some (VNum 5); Some (VNum 5)].
Proof.
  apply (all_of_fulfilled_inputs one_fulfilled [0; 0] [VNum 5; VNum 5]).
  - discriminate.
  - repeat (apply Forall2_cons; split; [split; [by exists []|reflexivity]|]).
    apply Forall2_nil. done.
Defined.

(** ** What no call undoes *)

Lemma exec_keeps_promises n fuel c h h' r :
  exec fuel c h = Some (h', r) ->
  n <= length (promises h) -> n <= length (promises h').
Proof.
  intros H Hn.
  apply (exec_pres (fun x => n <= length (promises x)) (fun _ => True))
    with fuel c h r; auto using okc_always.
  - intros. by rewrite length_set_promise.
  - intros. split; [by rewrite length_set_promise|apply okf_always].
  - intros. by rewrite length_set_promise.
  - intros. split; [rewrite length_alloc_promise; lia|exact Logic.I].
Qed.

(** X20.  Whatever calls are made, in any number and of any method, entry
    point or callback: no promise is removed from the store, and a promise
    that has settled keeps its state and its value. *)
Theorem settlement_is_final fuel cs : forall h h',
  run fuel cs h = Some h' ->
  length (promises h) <= length (promises h') /\
  forall p s v, settlements h !! p = Some (s, v) -> s <> PENDING ->
                settlements h' !! p = Some (s, v).
Proof.
  induction cs as [|c cs IH]; simpl; intros h h' H.
  - injection H as <-. auto.
  - destruct (exec fuel c h) as [[h1 r]|] eqn:E; [|discriminate].
    destruct (IH h1 h' H) as [Hlen Hkeep]. split.
    + pose proof (exec_keeps_promises (length (promises h)) fuel c h h1 r E).
      lia.
    + intros p s v Hp Hs. apply Hkeep; [|exact Hs].
      rewrite settlements_lookup in Hp.
      destruct (promises h !! p) as [P|] eqn:HP; [|discriminate].
      injection Hp as Hst Hval.
      destruct (settled_forever fuel c h h1 r E p P HP) as (P1 & HP1 & Hs1 & Hv1).
      { apply pending_false. congruence. }
      rewrite settlements_lookup, HP1. simpl. congruence.
Qed.

Lemma settlement_is_final_witness :
  exists h',
    run 9 [all [0]; CApply (FOnFailed 0) (VStr "late"); finally 0 (FUser 1 Return)]
      one_fulfilled = Some h' /\
    length (promises one_fulfilled) <= length (promises h') /\
    forall p s v, settlements one_fulfilled !! p = Some (s, v) -> s <> PENDING ->
                  settlements h' !! p = Some (s, v).
Proof.
  eexists. split; [vm_compute; reflexivity|].
  apply (settlement_is_final 9
           [all [0]; CApply (FOnFailed 0) (VStr "late"); finally 0 (FUser 1 Return)]
           one_fulfilled).
  vm_compute. reflexivity.
Defined.

(** ** Callback arrays that hold only closures of [then] *)

Lemma only_then_closures_update h p P P' :
  only_then_closures h -> promises h !! p = Some P ->
  Forall (fun f => then_closure f = true) (thenCbs P') ->
  Forall (fun f => then_closure f = true) (catchCbs P') ->
  only_then_closures (set_promise p P' h).
Proof.
  intros Hok HP Ht Hc q Q. simpl.
  rewrite list_lookup_insert_Some.
  intros [(_ & <- & _)|(_ & HQ)]; eauto.
Qed.

Lemma only_then_closures_same h h' :
  promises h' = promises h -> only_then_closures h -> only_then_closures h'.
Proof. intros E Hok p P. rewrite E. apply Hok. Qed.

Lemma only_then_closures_alloc h :
  only_then_closures h -> only_then_closures (alloc_promise h).
Proof.
  intros Hok q Q. simpl. rewrite lookup_snoc_Some.
  intros [(_ & HQ)|(_ & <-)]; simpl; eauto.
Qed.

(** ** What a call can throw *)

Lemma throws_class_error_return w : throws_class_error (Return w).
Proof. intros e H. discriminate. Qed.

Section ClassErrors.

Local Hint Resolve throws_class_error_return : core.

Variable rec : Call -> M.
Hypothesis Hrec : forall c h h' r,
  only_then_closures h -> rec c h = Some (h', r) ->
  only_then_closures h' /\ (class_call c = true -> throws_class_error r).

Definition guarded (m : M) : Prop :=
  forall h h' r, only_then_closures h -> m h = Some (h', r) ->
    only_then_closures h' /\ throws_class_error r.

Definition kept (m : M) : Prop :=
  forall h h' r, only_then_closures h -> m h = Some (h', r) ->
    only_then_closures h'.

Lemma guarded_kept m : guarded m -> kept m.
Proof. intros Hm h h' r Hok H. by destruct (Hm h h' r Hok H). Qed.

Lemma guarded_rec c : class_call c = true -> guarded (rec c).
Proof.
  intros Hc h h' r Hok H. destruct (Hrec c h h' r Hok H) as [Hok' Hr]. auto.
Qed.

Lemma kept_rec c : kept (rec c).
Proof. intros h h' r Hok H. by destruct (Hrec c h h' r Hok H). Qed.

Lemma guarded_ret v : guarded (ret v).
Proof. intros h h' r Hok [= <- <-]. auto. Qed.

Lemma guarded_bind m k :
  guarded m -> (forall v, guarded (k v)) -> guarded (bind m k).
Proof.
  intros Hm Hk h h' r Hok H. unfold bind in H.
  destruct (m h) as [[h1 [v|e]]|] eqn:E; [| |discriminate].
  - destruct (Hm h h1 _ Hok E) as [Hok1 _]. eapply Hk; eauto.
  - injection H as <- <-. eapply Hm; eauto.
Qed.

Lemma kept_bind m k : kept m -> (forall v, kept (k v)) -> kept (bind m k).
Proof.
  intros Hm Hk h h' r Hok H. unfold bind in H.
  destruct (m h) as [[h1 [v|e]]|] eqn:E; [| |discriminate].
  - eapply Hk; [|exact H]. eapply Hm; eauto.
  - injection H as <- <-. eapply Hm; eauto.
Qed.

(** A [try] block may throw anything when its handler is guarded. *)
Lemma guarded_try_catch m k :
  kept m -> (forall e, guarded (k e)) -> guarded (try_catch m k).
Proof.
  intros Hm Hk h h' r Hok H. unfold try_catch in H.
  destruct (m h) as [[h1 [v|e]]|] eqn:E; [| |discriminate].
  - injection H as <- <-. split; [eapply Hm; eauto|auto].
  - eapply Hk; [|exact H]. eapply Hm; eauto.
Qed.

Lemma guarded_entry (fulfil : bool) n v :
  guarded (call rec (if fulfil then FOnSuccess n else FOnFailed n) v).
Proof. apply guarded_rec. by destruct fulfil. Qed.

Lemma guarded_entry_ret (fulfil : bool) n v :
  guarded (call rec (if fulfil then FOnSuccess n else FOnFailed n) v;; ret VUndefined).
Proof. apply guarded_bind; [apply guarded_entry|intros; apply guarded_ret]. Qed.

Lemma guarded_set_promise (m : M) this P P' h h' r :
  only_then_closures h -> promises h !! this = Some P ->
  Forall (fun f => then_closure f = true) (thenCbs P') ->
  Forall (fun f => then_closure f = true) (catchCbs P') ->
  guarded m -> m (set_promise this P' h) = Some (h', r) ->
  only_then_closures h' /\ throws_class_error r.
Proof.
  intros Hok HP Ht Hc Hm H. eapply Hm; [|exact H].
  eapply only_then_closures_update; eauto.
Qed.

Lemma guarded_onSuccess this v : guarded (onSuccess rec this v).
Proof.
  intros h h' r Hok H. unfold onSuccess in H.
  destruct (promises h !! this) as [P|] eqn:HP; [|discriminate].
  destruct (Hok this P HP) as [Ht Hc].
  destruct (state P); try (injection H as <- <-; auto).
  assert (Hrun : forall w,
            rec (CRunCallbacks this QThen) (set_promise this (settled FULFILLED w P) h)
              = Some (h', r) ->
            only_then_closures h' /\ throws_class_error r).
  { intros w Hw.
    apply (guarded_set_promise (rec (CRunCallbacks this QThen)) this P
             (settled FULFILLED w P) h h' r); auto.
    by apply guarded_rec. }
  destruct v; try (by apply (Hrun _ H)).
  revert H. apply guarded_bind; [by apply guarded_rec|intros; apply guarded_ret|exact Hok].
Qed.

Lemma guarded_onFailed this e : guarded (onFailed rec this e).
Proof.
  intros h h' r Hok H. unfold onFailed in H.
  destruct (promises h !! this) as [P|] eqn:HP; [|discriminate].
  destruct (Hok this P HP) as [Ht Hc].
  destruct (state P); try (injection H as <- <-; auto).
  assert (Hset : forall w, only_then_closures (set_promise this (settled REJECTED w P) h)).
  { intros w. eapply only_then_closures_update; eauto. }
  assert (Hrun : forall w,
            match catchCbs P with
            | [] => Some (set_promise this (settled REJECTED w P) h,
                          Throw (UncaughtPromiseError (VStr "Unhandle catch")))
            | _ :: _ => rec (CRunCallbacks this QCatch)
                          (set_promise this (settled REJECTED w P) h)
            end = Some (h', r) ->
            only_then_closures h' /\ throws_class_error r).
  { intros w Hw. destruct (catchCbs P).
    - injection Hw as <- <-. split; [apply Hset|].
      intros x [= <-]. by left.
    - revert Hw. apply guarded_rec; [reflexivity|apply Hset]. }
  destruct e; try (by apply (Hrun _ H)).
  injection H as <- <-. split; [exact Hok|]. intros x [= <-]. by right.
Qed.

Lemma guarded_runCallbacks this q : guarded (runCallbacks rec this q).
Proof.
  intros h h' r Hok H. unfold runCallbacks in H.
  destruct (promises h !! this) as [P|] eqn:HP; [|discriminate].
  destruct (Hok this P HP) as [Ht Hc].
  destruct (queue q P) as [|cb rest] eqn:HQ.
  - injection H as <- <-. auto.
  - assert (Hcb : then_closure cb = true /\
                  Forall (fun f => then_closure f = true) rest).
    { destruct q; simpl in HQ; rewrite HQ in *;
        [apply Forall_cons in Ht|apply Forall_cons in Hc]; tauto. }
    destruct Hcb as [Hcb Hrest].
    revert H. apply guarded_bind.
    + apply guarded_rec. simpl. destruct cb; try discriminate; reflexivity.
    + intros _. by apply guarded_rec.
    + eapply only_then_closures_update; eauto; destruct q; simpl; auto.
Qed.

Lemma guarded_wrapper (fulfil : bool) cb n v :
  guarded (if fulfil then thenCb_wrapper rec cb n v else catchCb_wrapper rec cb n v).
Proof.
  assert (H : guarded
            match cb with
            | None => call rec (if fulfil then FOnSuccess n else FOnFailed n) v;;
                      ret VUndefined
            | Some f =>
                try_catch
                  (let* x := call rec f v in call rec (FOnSuccess n) x;; ret VUndefined)
                  (fun e => call rec (FOnFailed n) e;; ret VUndefined)
            end).
  { destruct cb as [f|].
    - apply guarded_try_catch.
      + apply kept_bind; [apply kept_rec|]. intros x.
        apply guarded_kept, (guarded_entry_ret true).
      + intros e. apply (guarded_entry_ret false).
    - apply guarded_entry_ret. }
  by destruct fulfil, cb.
Qed.

Lemma guarded_all_then vars index ps outer v :
  guarded (all_then rec vars index ps outer v).
Proof.
  intros h h' r Hok H. unfold all_then in H.
  destruct (frames h !! vars) as [V|]; [|discriminate].
  case_decide as Hd.
  - revert H. apply (guarded_entry_ret true).
    by apply (only_then_closures_same h).
  - injection H as <- <-. split; [by apply (only_then_closures_same h)|auto].
Qed.

Lemma guarded_allSettled_record vars index ps outer entry :
  guarded (allSettled_record rec vars index ps outer entry).
Proof.
  intros h h' r Hok H. unfold allSettled_record in H.
  destruct (frames h !! vars) as [V|]; [|discriminate].
  case_decide as Hd.
  - revert H. apply (guarded_entry_ret true).
    by apply (only_then_closures_same h).
  - injection H as <- <-. split; [by apply (only_then_closures_same h)|auto].
Qed.

Lemma guarded_any_catch vars index ps outer e :
  guarded (any_catch vars index ps outer e).
Proof.
  intros h h' r Hok H. unfold any_catch in H.
  destruct (frames h !! vars) as [V|]; [|discriminate].
  injection H as <- <-. split; [by apply (only_then_closures_same h)|].
  intros x [= <-]. by right.
Qed.

Lemma class_apply f v h h' r :
  only_then_closures h -> apply rec f v h = Some (h', r) ->
  only_then_closures h' /\ (class_closure f = true -> throws_class_error r).
Proof.
  intros Hok H. destruct f; simpl in H.
  - destruct (guarded_onSuccess _ _ _ _ _ Hok H). auto.
  - destruct (guarded_onFailed _ _ _ _ _ Hok H). auto.
  - destruct (guarded_wrapper true _ _ _ _ _ _ Hok H). auto.
  - destruct (guarded_wrapper false _ _ _ _ _ _ Hok H). auto.
  - split; [|discriminate]. revert H.
    apply kept_bind; [apply kept_rec|intros _ ? ? ? ? [= <- _]; auto|exact Hok].
  - split; [|discriminate]. revert H.
    apply kept_bind; [apply kept_rec|intros _ ? ? ? ? [= <- _]; auto|exact Hok].
  - destruct (guarded_all_then _ _ _ _ _ _ _ _ Hok H). auto.
  - destruct (guarded_entry_ret false _ _ _ _ _ Hok H). auto.
  - destruct (guarded_allSettled_record _ _ _ _ _ _ _ _ Hok H). auto.
  - destruct (guarded_allSettled_record _ _ _ _ _ _ _ _ Hok H). auto.
  - destruct (guarded_entry_ret true _ _ _ _ _ Hok H). auto.
  - destruct (guarded_any_catch _ _ _ _ _ _ _ _ Hok H). auto.
  - injection H as <- <-. split; [|discriminate].
    by apply (only_then_closures_same h).
Qed.

Lemma guarded_then_catch p f g : guarded (then_catch rec p f g).
Proof.
  unfold then_catch. apply guarded_bind; [by apply guarded_rec|].
  intros t. destruct t; try (intros h h' r _ H; discriminate).
  by apply guarded_rec.
Qed.

Lemma guarded_forEach (body : loc -> nat -> M) ps :
  (forall p i, guarded (body p i)) -> forall i, guarded (forEach body ps i).
Proof.
  intros Hb. induction ps as [|p ps IH]; intros i; simpl.
  - apply guarded_ret.
  - apply guarded_bind; auto.
Qed.

Lemma kept_user_resolver body fin this : kept (user_resolver rec body fin this).
Proof.
  induction body as [|[v|e] body IH]; simpl.
  - intros h h' r Hok [= <- _]. exact Hok.
  - apply kept_bind; [apply kept_rec|auto].
  - apply kept_bind; [apply kept_rec|auto].
Qed.

Lemma guarded_then_resolver p thenCb catchCb n :
  guarded (then_resolver rec p thenCb catchCb n).
Proof.
  intros h h' r Hok H. unfold then_resolver in H.
  destruct (promises h !! p) as [P|] eqn:HP; [|discriminate].
  destruct (Hok p P HP) as [Ht Hc].
  assert (Hok1 : only_then_closures
                   (set_promise p
                      (mkPromise (state P) (value P)
                         (FThenCb thenCb n :: thenCbs P)
                         (FCatchCb catchCb n :: catchCbs P)) h)).
  { eapply only_then_closures_update; eauto; simpl; apply Forall_cons; auto. }
  destruct (state P); try (injection H as <- <-; auto);
    revert H; apply guarded_rec; auto.
Qed.

Lemma class_run_resolver rs this h h' r :
  only_then_closures h -> run_resolver rec rs this h = Some (h', r) ->
  only_then_closures h' /\ (class_call (CResolver rs this) = true -> throws_class_error r).
Proof.
  intros Hok H. destruct rs; simpl in H.
  - destruct (guarded_then_resolver _ _ _ _ _ _ _ Hok H). auto.
  - destruct (guarded_entry_ret true _ _ _ _ _ Hok H). auto.
  - destruct (guarded_entry_ret false _ _ _ _ _ Hok H). auto.
  - unfold all_resolver in H.
    eapply guarded_forEach in H; [destruct H; eauto| |].
    + intros p i. apply guarded_then_catch.
    + by apply (only_then_closures_same h).
  - unfold allSettled_resolver in H.
    eapply guarded_forEach in H; [destruct H; eauto| |].
    + intros p i h1 h2 r2 Hok1 H1.
      destruct (frames h1 !! length (frames h)) as [V|]; [|discriminate].
      revert H1. apply guarded_then_catch.
      by apply (only_then_closures_same h1).
    + by apply (only_then_closures_same h).
  - unfold race_resolver in H.
    eapply guarded_forEach in H; [destruct H; eauto| |exact Hok].
    intros p i. apply guarded_then_catch.
  - unfold any_resolver in H.
    eapply guarded_forEach in H; [destruct H; eauto| |].
    + intros p i. apply guarded_then_catch.
    + by apply (only_then_closures_same h).
  - split; [|discriminate]. eapply kept_user_resolver; eauto.
Qed.

Lemma guarded_constructor rs : guarded (constructor rec rs).
Proof.
  intros h h' r Hok H. unfold constructor in H.
  revert H. apply guarded_bind.
  - apply guarded_try_catch; [apply kept_rec|].
    intros e. apply (guarded_entry false).
  - intros _. apply guarded_ret.
  - by apply only_then_closures_alloc.
Qed.

Lemma class_step c h h' r :
  only_then_closures h -> step rec c h = Some (h', r) ->
  only_then_closures h' /\ (class_call c = true -> throws_class_error r).
Proof.
  intros Hok H. destruct c; simpl in H.
  - exact (class_apply _ _ _ _ _ Hok H).
  - destruct (guarded_runCallbacks _ _ _ _ _ Hok H). auto.
  - exact (class_run_resolver _ _ _ _ _ Hok H).
  - destruct (guarded_constructor _ _ _ _ Hok H). auto.
Qed.

End ClassErrors.

(** X24.  Of the exceptions with which a call of the class's own code ends
    only two kinds exist: the UncaughtPromiseError with its fixed message
    and the ReferenceError for the name [value].  The calls meant are those
    of [class_call]: the constructor with any resolver, the two entry
    points, [#runCallbacks], the closures [then] pushes and the callbacks
    the combinators register; not a direct call of a function of the
    caller, nor of one of the two closures of [finally], which end as the
    caller's function ends.  This holds in every store whose callback
    arrays hold only closures pushed by [then], and every call that ends
    leaves the store so. *)
Theorem only_class_errors_escape fuel : forall c h h' r,
  only_then_closures h ->
  exec fuel c h = Some (h', r) ->
  only_then_closures h' /\
  (class_call c = true -> forall e, r = Throw e -> class_error e).
Proof.
  induction fuel as [|n IH]; intros c h h' r Hok H; [discriminate|].
  simpl in H. exact (class_step (exec n) IH c h h' r Hok H).
Qed.

Lemma only_class_errors_escape_witness :
  exists h',
    exec 3 (CNew (RUser [] (Throw (VNum 1)))) empty_heap = Some (h', Throw unhandled) /\
    only_then_closures h' /\ class_error unhandled.
Proof.
  eexists. split; [reflexivity|].
  assert (Hok : only_then_closures empty_heap) by (intros p P H; discriminate H).
  destruct (only_class_errors_escape 3 (CNew (RUser [] (Throw (VNum 1))))
              empty_heap _ _ Hok eq_refl) as [H1 H2].
  split; [exact H1|exact (H2 eq_refl _ eq_refl)].
Defined.

(** ** The first version: no call throws *)

Section DraftSafety.

Variable rec : Call -> M.
Hypothesis Hrec : forall c h h' r,
  only_then_closures h -> rec c h = Some (h', r) ->
  only_then_closures h' /\ (library_call c = true -> returns r).

Lemma draft_entry_point (fulfil : bool) this v h h' r :
  only_then_closures h ->
  (if fulfil then Draft.onSuccess rec this v else Draft.onFailed rec this v) h
    = Some (h', r) ->
  only_then_closures h' /\ returns r.
Proof.
  intros Hok H.
  assert (H' : match promises h !! this with
               | None => None
               | Some P =>
                 match state P with
                 | PENDING =>
                     rec (CRunCallbacks this (if fulfil then QThen else QCatch))
                       (set_promise this
                          (settled (if fulfil then FULFILLED else REJECTED) v P) h)
                 | _ => Some (h, Return VUndefined)
                 end
               end = Some (h', r)).
  { by destruct fulfil. }
  clear H. destruct (promises h !! this) as [P|] eqn:HP; [|discriminate].
  destruct (Hok this P HP) as [Ht Hc].
  destruct (state P);
    try (injection H' as <- <-; split; [exact Hok|by eexists]).
  apply Hrec in H'.
  - destruct H' as [Hok' Hr]. split; [exact Hok'|]. by apply Hr.
  - eapply only_then_closures_update; eauto.
Qed.

Lemma draft_call_entry (fulfil : bool) n v h h' r :
  only_then_closures h ->
  call rec (if fulfil then FOnSuccess n else FOnFailed n) v h = Some (h', r) ->
  only_then_closures h' /\ returns r.
Proof.
  intros Hok H. apply Hrec in H; [|exact Hok].
  destruct H as [Hok' Hr]. split; [exact Hok'|]. apply Hr. by destruct fulfil.
Qed.

Lemma draft_wrapped f n v h h' r :
  only_then_closures h ->
  try_catch
    (let* x := call rec f v in call rec (FOnSuccess n) x;; ret VUndefined)
    (fun e => call rec (FOnFailed n) e;; ret VUndefined) h = Some (h', r) ->
  only_then_closures h' /\ returns r.
Proof.
  intros Hok H. unfold try_catch, bind in H.
  destruct (call rec f v h) as [[h1 [w|e]]|] eqn:E1; [| |discriminate].
  - apply Hrec in E1 as [Hok1 _]; [|exact Hok].
    destruct (call rec (FOnSuccess n) w h1) as [[h2 r2]|] eqn:E2; [|discriminate].
    destruct (draft_call_entry true n w h1 h2 r2 Hok1 E2) as [Hok2 [u ->]].
    injection H as <- <-. split; [exact Hok2|by eexists].
  - apply Hrec in E1 as [Hok1 _]; [|exact Hok].
    destruct (call rec (FOnFailed n) e h1) as [[h2 r2]|] eqn:E2; [|discriminate].
    destruct (draft_call_entry false n e h1 h2 r2 Hok1 E2) as [Hok2 [u ->]].
    injection H as <- <-. split; [exact Hok2|by eexists].
Qed.

Lemma draft_wrapper (fulfil : bool) cb n v h h' r :
  only_then_closures h ->
  (if fulfil then thenCb_wrapper rec cb n v else catchCb_wrapper rec cb n v) h
    = Some (h', r) ->
  only_then_closures h' /\ returns r.
Proof.
  intros Hok H. destruct cb as [f|].
  - apply (draft_wrapped f n v h); [exact Hok|]. by destruct fulfil.
  - assert (H' : (call rec (if fulfil then FOnSuccess n else FOnFailed n) v;;
                  ret VUndefined) h = Some (h', r)) by (by destruct fulfil).
    unfold bind in H'.
    destruct (call rec _ v h) as [[h1 r1]|] eqn:E; [|discriminate].
    destruct (draft_call_entry fulfil n v h h1 r1 Hok E) as [Hok1 [u ->]].
    injection H' as <- <-. split; [exact Hok1|by eexists].
Qed.

Lemma draft_apply f v h h' r :
  only_then_closures h -> Draft.apply rec f v h = Some (h', r) ->
  only_then_closures h' /\ (library_call (CApply f v) = true -> returns r).
Proof.
  intros Hok H. destruct f; simpl in H; try discriminate.
  - destruct (draft_entry_point true _ _ _ _ _ Hok H). auto.
  - destruct (draft_entry_point false _ _ _ _ _ Hok H). auto.
  - destruct (draft_wrapper true _ _ _ _ _ _ Hok H). auto.
  - destruct (draft_wrapper false _ _ _ _ _ _ Hok H). auto.
  - unfold bind in H. destruct (call rec f VUndefined h) as [[h1 [w|e]]|] eqn:E;
      [| |discriminate]; apply Hrec in E as [Hok1 _]; try exact Hok;
      injection H as <- <-; split; auto; discriminate.
  - unfold bind in H. destruct (call rec f VUndefined h) as [[h1 [w|e]]|] eqn:E;
      [| |discriminate]; apply Hrec in E as [Hok1 _]; try exact Hok;
      injection H as <- <-; split; auto; discriminate.
  - injection H as <- <-. split; [|discriminate].
    by apply (only_then_closures_same h).
Qed.

Lemma draft_runCallbacks this q h h' r :
  only_then_closures h -> runCallbacks rec this q h = Some (h', r) ->
  only_then_closures h' /\ returns r.
Proof.
  intros Hok H. unfold runCallbacks in H.
  destruct (promises h !! this) as [P|] eqn:HP; [|discriminate].
  destruct (Hok this P HP) as [Ht Hc].
  destruct (queue q P) as [|cb rest] eqn:HQ.
  - injection H as <- <-. split; [exact Hok|by eexists].
  - assert (Hcb : then_closure cb = true /\
                  Forall (fun f => then_closure f = true) rest).
    { destruct q; simpl in HQ; rewrite HQ in *;
        [apply Forall_cons in Ht|apply Forall_cons in Hc]; tauto. }
    destruct Hcb as [Hcb Hrest].
    assert (Hok0 : only_then_closures (set_promise this (with_queue q rest P) h)).
    { eapply only_then_closures_update; eauto; destruct q; simpl; auto. }
    unfold bind in H.
    destruct (call rec cb (value P) _) as [[h1 r1]|] eqn:E; [|discriminate].
    apply Hrec in E as [Hok1 Hr1]; [|exact Hok0].
    destruct Hr1 as [w ->].
    { simpl. destruct cb; try discriminate; reflexivity. }
    apply Hrec in H as [Hok2 Hr2]; [|exact Hok1].
    split; [exact Hok2|]. by apply Hr2.
Qed.

Lemma draft_user_resolver body fin this : forall h h' r,
  only_then_closures h -> user_resolver rec body fin this h = Some (h', r) ->
  only_then_closures h'.
Proof.
  induction body as [|[v|e] body IH]; simpl; intros h h' r Hok H.
  - by injection H as <- _.
  - unfold bind in H.
    destruct (call rec (FOnSuccess this) v h) as [[h1 r1]|] eqn:E; [|discriminate].
    destruct (draft_call_entry true this v h h1 r1 Hok E) as [Hok1 [u ->]]. eauto.
  - unfold bind in H.
    destruct (call rec (FOnFailed this) e h) as [[h1 r1]|] eqn:E; [|discriminate].
    destruct (draft_call_entry false this e h h1 r1 Hok E) as [Hok1 [u ->]]. eauto.
Qed.

Lemma draft_run_resolver rs this h h' r :
  only_then_closures h -> Draft.run_resolver rec rs this h = Some (h', r) ->
  only_then_closures h' /\ (library_call (CResolver rs this) = true -> returns r).
Proof.
  intros Hok H. destruct rs; simpl in H; try discriminate.
  - unfold then_resolver in H.
    destruct (promises h !! this0) as [P|] eqn:HP; [|discriminate].
    destruct (Hok this0 P HP) as [Ht Hc].
    assert (Hok1 : only_then_closures
                     (set_promise this0
                        (mkPromise (state P) (value P)
                           (FThenCb thenCb this :: thenCbs P)
                           (FCatchCb catchCb this :: catchCbs P)) h)).
    { eapply only_then_closures_update; eauto; simpl; apply Forall_cons; auto. }
    destruct (state P);
      try (injection H as <- <-; split; [exact Hok1|intros _; by eexists]);
      apply Hrec in H as [Hok2 Hr]; auto.
  - split; [|discriminate]. eapply draft_user_resolver; eauto.
Qed.

Lemma draft_constructor rs h h' r :
  only_then_closures h -> constructor rec rs h = Some (h', r) ->
  only_then_closures h' /\ returns r.
Proof.
  intros Hok H. unfold constructor, bind, try_catch in H.
  destruct (rec (CResolver rs (length (promises h))) (alloc_promise h))
    as [[h1 [w|e]]|] eqn:E; [| |discriminate].
  - apply Hrec in E as [Hok1 _]; [|by apply only_then_closures_alloc].
    injection H as <- <-. split; [exact Hok1|by eexists].
  - apply Hrec in E as [Hok1 _]; [|by apply only_then_closures_alloc].
    destruct (call rec (FOnFailed (length (promises h))) e h1) as [[h2 r2]|] eqn:E2;
      [|discriminate].
    destruct (draft_call_entry false _ e h1 h2 r2 Hok1 E2) as [Hok2 [u ->]].
    injection H as <- <-. split; [exact Hok2|by eexists].
Qed.

Lemma draft_step c h h' r :
  only_then_closures h -> Draft.step rec c h = Some (h', r) ->
  only_then_closures h' /\ (library_call c = true -> returns r).
Proof.
  intros Hok H. destruct c; simpl in H.
  - exact (draft_apply _ _ _ _ _ Hok H).
  - destruct (draft_runCallbacks _ _ _ _ _ Hok H). auto.
  - exact (draft_run_resolver _ _ _ _ _ Hok H).
  - destruct (draft_constructor _ _ _ _ Hok H). auto.
Qed.

End DraftSafety.

Lemma draft_exec_safe fuel : forall c h h' r,
  only_then_closures h -> Draft.exec fuel c h = Some (h', r) ->
  only_then_closures h' /\ (library_call c = true -> returns r).
Proof.
  induction fuel as [|n IH]; intros c h h' r Hok H; [discriminate|].
  simpl in H. exact (draft_step (Draft.exec n) IH c h h' r Hok H).
Qed.

(** X21.  In the first version no call of the class ends by throwing:
    whenever a call of the constructor, of an entry point, of a closure of
    [then] or of [#runCallbacks] ends, it ends by returning.  A handler or a
    resolver that throws is caught by the closure or the constructor that
    invoked it, and the reject entry point, which they then call, has no
    unhandled-rejection error to throw.  This holds in every store whose
    callback arrays hold only closures pushed by [then], and every call
    that ends leaves the store so. *)
Theorem draft_never_throws fuel c h h' r :
  only_then_closures h ->
  Draft.exec fuel c h = Some (h', r) ->
  only_then_closures h' /\
  (library_call c = true -> forall e, r <> Throw e).
Proof.
  intros Hok H.
  destruct (draft_exec_safe fuel c h h' r Hok H) as [Hok' Hr].
  split; [exact Hok'|]. intros Hc e ->.
  destruct (Hr Hc) as [w Hw]. discriminate.
Qed.

Lemma draft_never_throws_witness :
  only_then_closures (mkHeap [mkPromise REJECTED (VNum 1) [] []] [] []) /\
  (library_call (CNew (RUser [] (Throw (VNum 1)))) = true ->
   forall e, Return (VPromise 0) <> Throw e).
Proof.
  apply (draft_never_throws 4 (CNew (RUser [] (Throw (VNum 1)))) empty_heap).
  - intros p P H. discriminate H.
  - reflexivity.
Defined.


(** X23.  In the first version the two entry points store any payload, a
    promise included, and return: a promise passed to the fulfil entry
    point is not followed, and a rejection nobody handles raises
    nothing. *)
Theorem draft_stores_any_payload fuel (fulfil : bool) F u v h :
  promises h !! F = Some (mkPromise PENDING u [] []) ->
  Draft.exec (2 + fuel) (settle_call fulfil F v) h
    = Some (set_promise F (mkPromise (settled_state fulfil) v [] []) h,
            Return VUndefined).
Proof.
  intros HF. assert (Hlt := lookup_lt_Some _ _ _ HF).
  destruct fulfil.
  - change (Draft.onSuccess (Draft.exec (S fuel)) F v h
            = Some (set_promise F (mkPromise FULFILLED v [] []) h, Return VUndefined)).
    unfold Draft.onSuccess. rewrite HF. cbn [state].
    change (runCallbacks (Draft.exec fuel) F QThen
              (set_promise F (mkPromise FULFILLED v [] []) h)
            = Some (set_promise F (mkPromise FULFILLED v [] []) h, Return VUndefined)).
    unfold runCallbacks. rewrite lookup_set_promise_eq by exact Hlt. reflexivity.
  - change (Draft.onFailed (Draft.exec (S fuel)) F v h
            = Some (set_promise F (mkPromise REJECTED v [] []) h, Return VUndefined)).
    unfold Draft.onFailed. rewrite HF. cbn [state].
    change (runCallbacks (Draft.exec fuel) F QCatch
              (set_promise F (mkPromise REJECTED v [] []) h)
            = Some (set_promise F (mkPromise REJECTED v [] []) h, Return VUndefined)).
    unfold runCallbacks. rewrite lookup_set_promise_eq by exact Hlt. reflexivity.
Qed.

Lemma draft_stores_any_payload_witness :
  Draft.exec 2 (settle_call true 0 (VPromise 1)) two_pending
    = Some (set_promise 0 (mkPromise FULFILLED (VPromise 1) [] []) two_pending,
            Return VUndefined).
Proof.
  apply (draft_stores_any_payload 0 true 0 VUndefined (VPromise 1) two_pending).
  reflexivity.
Defined.
